(** * font_to_svg: the outline-to-path conversion of [font_to_svg.hpp]

    A shallow embedding of [font2svg::do_outline] and of the Bezier
    tessellator it calls ([quadraticBezier], [fullQuadraticBezier],
    [svgQuadraticBezier], [debugQuadraticBezier]), of [halfway_between],
    and of the methods of [class glyph] that draw from the points of the
    glyph ([outline], which calls [do_outline], [points] and [pointlines]),
    followed by the properties of the conversion.

    Conventions of the embedding.
    - [double] is IEEE 754 binary64 with round-to-nearest-even: Rocq's
      primitive [float].  [pow(u, 2)] is taken as the correctly rounded
      square [u * u].
    - [FT_Pos] ([signed long]), [int], [short] and [char] values are [Z];
      the two places where [int] arithmetic can leave the range of [int]
      (conversion from [double], and the sum inside a midpoint) are
      checked, and leaving the range is undefined behaviour.  [long] is
      64 bits wide; a [long] stored in an [int] is reduced modulo [2^32].
    - Undefined behaviour (an index outside a vector read with [operator[]]
      or outside an array, an [int] or a [long] out of range) is [None] in
      the [option] monad.
    - A stream ([std::stringstream], [std::cout]) is the list of the values
      inserted into it; the formatting of a number is the C++ library's, and
      every stream of [do_outline] is formatted with the default flags.
    - The process-wide variables [debug], [hasDebug] and the standard output
      are passed explicitly as a record [globals].
    - An array reached through a pointer of FreeType ([ftpoints], [tags],
      [contours]) is the list of its elements.  What FreeType itself does
      ([ttf_file], [glyph::init]) is not modelled. *)

From Stdlib Require Import ZArith List String Bool Lia Floats.
Import ListNotations.
#[local] Set Warnings "-inexact-float".
#[local] Open Scope string_scope.
#[local] Open Scope list_scope.
#[local] Open Scope Z_scope.

(** ** C++ scalars *)

Module Cxx.

Notation "x <- e ;; k" :=
  (match e with Some x => k | None => None end)
  (at level 61, e at next level, right associativity).
Notation "' ( x , y ) <- e ;; k" :=
  (match e with Some (x, y) => k | None => None end)
  (at level 61, x name, y name, e at next level, right associativity).
Notation "' ( x , y , z ) <- e ;; k" :=
  (match e with Some (x, y, z) => k | None => None end)
  (at level 61, x name, y name, z name, e at next level, right associativity).

Definition INT_MIN : Z := - 2 ^ 31.
Definition INT_MAX : Z := 2 ^ 31 - 1.

Definition in_int (z : Z) : bool := (INT_MIN <=? z) && (z <=? INT_MAX).

(** [a + b] on [int]: signed overflow is undefined. *)
Definition int_add (a b : Z) : option Z :=
  if in_int (a + b) then Some (a + b) else None.

(** [a / b] on [int] truncates toward zero. *)
Definition int_div (a b : Z) : Z := Z.quot a b.

(** [a % b] on [int] has the sign of [a]. *)
Definition int_mod (a b : Z) : Z := Z.rem a b.

(** Conversion of an integer to [double], rounded to nearest (exact below
    [2^53] in magnitude). *)
Definition double_of_Z (z : Z) : float :=
  SF2Prim (binary_normalize prec emax z 0 false).

(** The integer part of a finite [double], toward zero. *)
Definition trunc_double (d : float) : option Z :=
  match Prim2SF d with
  | S754_zero _ => Some 0
  | S754_finite s m e =>
      let a := Z.shiftl (Z.pos m) e in
      Some (if s then - a else a)
  | S754_infinity _ | S754_nan => None
  end.

(** Conversion of a [double] to [int]: the fractional part is discarded;
    undefined when the truncated value is not an [int]. *)
Definition int_of_double (d : float) : option Z :=
  z <- trunc_double d ;;
  if in_int z then Some z else None.

(** [v[i]] on a [std::vector]: undefined outside [0 .. size-1]. *)
Definition index {A : Type} (v : list A) (i : Z) : option A :=
  if i <? 0 then None else nth_error v (Z.to_nat i).

(** The size of a vector, as an integer. *)
Definition size {A : Type} (v : list A) : Z := Z.of_nat (List.length v).

End Cxx.
Import Cxx.

(** ** Streams *)

(** One insertion [<<] into a stream. *)
Inductive item : Type :=
| Str (s : string)
| Int (n : Z)
| Dbl (d : float)
| Bool (b : bool).

Definition text : Type := list item.

(** The process-wide state: [font2svg::debug], [font2svg::hasDebug] and what
    has been written to [std::cout]. *)
Record globals : Type := mkGlobals {
  debug : text;
  hasDebug : bool;
  cout : text
}.

(** ** Data *)

(** FreeType's [FT_Vector]: a pair of [FT_Pos] (signed long). *)
Record FT_Vector : Type := mkFT { FT_x : Z; FT_y : Z }.

Record Point2D : Type := mkPoint2D { P_x : float; P_y : float }.

(** [Point2D(x, y)] called with two [int]s. *)
Definition Point2D_of_int (x y : Z) : Point2D :=
  mkPoint2D (double_of_Z x) (double_of_Z y).

(** ** The tessellator *)

Definition pow2 (u : float) : float := (u * u)%float.

Definition quadraticBezier (p0 p1 p2 : Point2D) (t : float) : Point2D :=
  {| P_x := (pow2 (1 - t) * P_x p0 + (1 - t) * 2 * t * P_x p1 + t * t * P_x p2)%float;
     P_y := (pow2 (1 - t) * P_y p0 + (1 - t) * 2 * t * P_y p1 + t * t * P_y p2)%float |}.

(** The loop [for (double i = ...; i < 1.0; i += increment)] of
    [fullQuadraticBezier], entered with the current value of [i]; [None]
    when [fuel] tests of the loop condition do not reach its exit. *)
Fixpoint fullQuadraticBezier_from (fuel : nat) (p0 p1 p2 : Point2D)
    (increment i : float) : option (list Point2D) :=
  match fuel with
  | O => None
  | S fuel' =>
      if (i <? 1)%float then
        res <- fullQuadraticBezier_from fuel' p0 p1 p2 increment (i + increment)%float ;;
        Some (quadraticBezier p0 p1 p2 i :: res)
      else Some []
  end.

Definition fullQuadraticBezier (fuel : nat) (p0 p1 p2 : Point2D)
    (increment : float) : option (list Point2D) :=
  fullQuadraticBezier_from fuel p0 p1 p2 increment 0%float.

(** The default argument [increment = 0.1]. *)
Definition default_increment : float := 0.1%float.

(** Loop tests granted to a call of the tessellator made by [do_outline]:
    twelve are needed ([fullQuadraticBezier_default]). *)
Definition tessellation_fuel : nat := 16%nat.

(** The values taken by the loop variable [i] under [increment = 0.1]:
    the running sums in binary64. *)
Definition default_parameters : list float :=
  [ 0; 0.1; 0.2; 0.30000000000000004; 0.4; 0.5; 0.6; 0.7;
    0.7999999999999999; 0.8999999999999999; 0.9999999999999999 ]%float.

(** ** Path commands *)

(** The commands [do_outline] writes into the [d] attribute, one constructor
    for each statement of the source that writes one.  The first point of a
    contour and the samples of a tessellated curve are inserted as [double]s,
    every other coordinate as an [int]. *)
Inductive PathCommand : Type :=
| MoveToD (x y : float)          (* the first point of a contour *)
| MoveTo (x y : Z)               (* the point halfway between two leading control points *)
| LineTo (x y : Z)
| LineToD (x y : float)          (* one sample written by [svgQuadraticBezier] *)
| QuadCurveTo (cx cy x y : Z)
| ClosePath.

Inductive CommandKind : Type := KMove | KLine | KQuad | KClose.

Definition kind (c : PathCommand) : CommandKind :=
  match c with
  | MoveToD _ _ | MoveTo _ _ => KMove
  | LineTo _ _ | LineToD _ _ => KLine
  | QuadCurveTo _ _ _ _ => KQuad
  | ClosePath => KClose
  end.

Definition LF : string := String (Ascii.ascii_of_nat 10) EmptyString.

(** The insertions each command stands for. *)
Definition svg_text (c : PathCommand) : text :=
  match c with
  | MoveToD x y => [Str (LF ++ " M ")%string; Dbl x; Str ","; Dbl y; Str LF]
  | MoveTo x y => [Str " M "; Int x; Str ","; Int y; Str LF]
  | LineTo x y => [Str " L "; Int x; Str ","; Int y; Str LF]
  | LineToD x y => [Str " L "; Dbl x; Str " "; Dbl y; Str LF]
  | QuadCurveTo cx cy x y =>
      [Str " Q "; Int cx; Str ","; Int cy; Str " "; Int x; Str ","; Int y; Str LF]
  | ClosePath => [Str (" Z" ++ LF)%string]
  end.

(** Generate the subpath as line segments. *)
Definition svgQuadraticBezier (quadBezier : list Point2D) : list PathCommand :=
  map (fun p => LineToD (P_x p) (P_y p)) quadBezier.

Fixpoint debugQuadraticBezier_from (i : Z) (quadBezier : list Point2D) : text :=
  match quadBezier with
  | [] => []
  | p :: rest =>
      [Str " Index = "; Int i; Str " Point(X,Y) = "; Dbl (P_x p); Str ",";
       Dbl (P_y p); Str LF] ++ debugQuadraticBezier_from (i + 1) rest
  end.

Definition debugQuadraticBezier (g : globals) (quadBezier : list Point2D) : text :=
  if hasDebug g then debugQuadraticBezier_from 0 quadBezier else [].

(** The variables an iteration of the inner loop declares; [set_xy] is the
    assignment [x = ...; y = ...; this_isctl = false] of the block for two
    adjacent control points. *)
Module Var.
Record t : Type := mk {
  thisi : Z; nexti : Z; nextnexti : Z;
  x : Z; y : Z; nx : Z; ny : Z; nnx : Z; nny : Z;
  this_isctl : bool; next_isctl : bool; nextnext_isctl : bool
}.
Definition set_xy (v : t) (x' y' : Z) : t :=
  mk (thisi v) (nexti v) (nextnexti v) x' y' (nx v) (ny v) (nnx v) (nny v)
     false (next_isctl v) (nextnext_isctl v).
End Var.

(** [tags[i] & 1], as a [bool]. *)
Definition tagbit1 (tag : Z) : bool := negb (Z.land tag 1 =? 0).

(** ** The path builder *)

Section Builder.

Variable points : list FT_Vector.
Variable tags : list Z.
Variables offsetX offsetY : float.
Variable generateBezierStatements : bool.
Variable g : globals.

(** [if ( hasDebug ) debug << ...] on the local stream [debug]. *)
Definition log (t : text) : text := if hasDebug g then t else [].

(** [int x = points[i].x + offsetX]: a [long] plus a [double], as an [int]. *)
Definition coordX (p : FT_Vector) : option Z :=
  int_of_double (double_of_Z (FT_x p) + offsetX)%float.
Definition coordY (p : FT_Vector) : option Z :=
  int_of_double (double_of_Z (FT_y p) + offsetY)%float.

(** The declarations that open the body of the inner loop. *)
Definition read_vars (offset npts j : Z) : option Var.t :=
  let thisi := int_mod j npts + offset in
  let nexti := int_mod (j + 1) npts + offset in
  let nextnexti := int_mod (j + 2) npts + offset in
  p <- index points thisi ;;
  x <- coordX p ;;
  y <- coordY p ;;
  np <- index points nexti ;;
  nx <- coordX np ;;
  ny <- coordY np ;;
  nnp <- index points nextnexti ;;
  nnx <- coordX nnp ;;
  nny <- coordY nnp ;;
  this_tag <- index tags thisi ;;
  next_tag <- index tags nexti ;;
  nextnext_tag <- index tags nextnexti ;;
  Some (Var.mk thisi nexti nextnexti x y nx ny nnx nny
          (negb (tagbit1 this_tag)) (negb (tagbit1 next_tag))
          (negb (tagbit1 nextnext_tag))).

Definition listing (v : Var.t) : text :=
  log [Str " ["; Int (Var.thisi v); Str "]"]
  ++ log [Str "["; Bool (Var.this_isctl v); Str "]"]
  ++ log [Str " <"; Int (Var.nexti v); Str ">"]
  ++ log [Str "<"; Bool (Var.next_isctl v); Str ">"]
  ++ log [Str " <<"; Int (Var.nextnexti v); Str ">>"]
  ++ log [Str "<<"; Bool (Var.nextnext_isctl v); Str ">>"]
  ++ log [Str " ["; Int (Var.x v); Str ","; Int (Var.y v); Str "]"]
  ++ log [Str " <"; Int (Var.nx v); Str ","; Int (Var.ny v); Str ">"]
  ++ log [Str " <<"; Int (Var.nnx v); Str ","; Int (Var.nny v); Str ">>"]
  ++ log [Str LF].

(** [if (this_isctl && next_isctl) { ... }]: two adjacent control points
    imply a point halfway between them.  Returns the variables as the
    block leaves them, what it wrote to [svg] and what it wrote to [debug]. *)
Definition adjacent_ctl (j : Z) (v : Var.t)
  : option (Var.t * list PathCommand * text) :=
  if Var.this_isctl v && Var.next_isctl v then
    sx <- int_add (Var.x v) (Var.nx v) ;;
    sy <- int_add (Var.y v) (Var.ny v) ;;
    let x := int_div sx 2 in
    let y := int_div sy 2 in
    Some (Var.set_xy v x y,
          (if j =? 0 then [MoveTo x y] else []),
          log [Str " two adjacent ctl pts. adding point halfway between ";
               Int (Var.thisi v); Str " and "; Int (Var.nexti v); Str ":"]
          ++ log [Str " reseting x and y to "]
          ++ log [Str " ["; Int x; Str ","; Int y; Str ("]" ++ LF)%string]
          ++ (if j =? 0
              then log [Str ("first pt in contour was ctrl pt. moving to non-ctrl pt" ++ LF)%string]
              else []))
  else Some (v, [], []).

(** A curve from [(x, y)] with control point [(nx, ny)] to [(ex, ey)]: one
    [Q] statement, or the sampled arc as line segments. *)
Definition curve (v : Var.t) (ex ey : Z) : option (list PathCommand * text) :=
  if generateBezierStatements then
    Some ([QuadCurveTo (Var.nx v) (Var.ny v) ex ey],
          log [Str " bezier to "; Int ex; Str ","; Int ey; Str " ctlx, ctly: ";
               Int (Var.nx v); Str ","; Int (Var.ny v); Str LF])
  else
    samples <- fullQuadraticBezier tessellation_fuel
                 (Point2D_of_int (Var.x v) (Var.y v))
                 (Point2D_of_int (Var.nx v) (Var.ny v))
                 (Point2D_of_int ex ey) default_increment ;;
    Some (svgQuadraticBezier samples,
          log ([Str " BEZIER INTERPOLATION "] ++ debugQuadraticBezier g samples
               ++ [Str LF])).

(** The [if ... else if ...] chain that decides what to draw. *)
Definition segment (v : Var.t) : option (list PathCommand * text) :=
  if negb (Var.this_isctl v) && Var.next_isctl v && negb (Var.nextnext_isctl v) then
    curve v (Var.nnx v) (Var.nny v)
  else if negb (Var.this_isctl v) && Var.next_isctl v && Var.nextnext_isctl v then
    sx <- int_add (Var.nx v) (Var.nnx v) ;;
    sy <- int_add (Var.ny v) (Var.nny v) ;;
    '(cmds, dbg) <- curve v (int_div sx 2) (int_div sy 2) ;;
    Some (cmds,
          log [Str " two ctl pts coming. adding point halfway between ";
               Int (Var.nexti v); Str " and "; Int (Var.nextnexti v); Str ":"]
          ++ log [Str " reseting nnx and nny to halfway pt"]
          ++ dbg)
  else if negb (Var.this_isctl v) && negb (Var.next_isctl v) then
    Some ([LineTo (Var.nx v) (Var.ny v)],
          log [Str " line to "; Int (Var.nx v); Str ","; Int (Var.ny v); Str LF])
  else if Var.this_isctl v && negb (Var.next_isctl v) then
    Some ([],
          log [Str " this is ctrl pt. skipping to "; Int (Var.nx v); Str ",";
               Int (Var.ny v); Str LF])
  else Some ([], []).

(** The body of the loop over [j]. *)
Definition iteration (offset npts j : Z) : option (list PathCommand * text) :=
  v <- read_vars offset npts j ;;
  '(v', moved, dbg1) <- adjacent_ctl j v ;;
  '(drawn, dbg2) <- segment v' ;;
  Some (moved ++ drawn, listing v ++ dbg1 ++ dbg2).

(** [for ( int j = ...; j < npts; j++ )], with [n] iterations left. *)
Fixpoint for_j (offset npts : Z) (n : nat) (j : Z) : option (list PathCommand * text) :=
  match n with
  | O => Some ([], [])
  | S n' =>
      '(cmds, dbg) <- iteration offset npts j ;;
      '(cmds', dbg') <- for_j offset npts n' (j + 1) ;;
      Some (cmds ++ cmds', dbg ++ dbg')
  end.

(** The body of the loop over the contours. *)
Definition contour (contour_starti contour_endi : Z) : option (list PathCommand * text) :=
  let offset := contour_starti in
  let npts := contour_endi - contour_starti + 1 in
  first <- index points contour_starti ;;
  let mx := (double_of_Z (FT_x first) + offsetX)%float in
  let my := (double_of_Z (FT_y first) + offsetY)%float in
  '(cmds, dbg) <- for_j offset npts (Z.to_nat npts) 0 ;;
  Some (MoveToD mx my :: cmds ++ [ClosePath],
        log [Str "new contour starting. startpt index, endpt index:"]
        ++ log [Int contour_starti; Str ","; Int contour_endi; Str LF]
        ++ log [Str "number of points in this contour: "; Int npts; Str LF]
        ++ log [Str "moving to first pt "; Dbl mx; Str ","; Dbl my; Str LF]
        ++ log [Str ("listing pts: [this pt index][isctrl] <next pt index><isctrl> [x,y] <nx,ny>" ++ LF)%string]
        ++ dbg).

(** [for ( unsigned int i = ...; i < contours.size(); i++ )], entered with
    the contours still to draw and the current [contour_starti]. *)
Fixpoint for_i (contours : list Z) (contour_starti : Z) : option (list PathCommand * text) :=
  match contours with
  | [] => Some ([], [])
  | contour_endi :: rest =>
      '(cmds, dbg) <- contour contour_starti contour_endi ;;
      '(cmds', dbg') <- for_i rest (contour_endi + 1) ;;
      Some (cmds ++ cmds', dbg ++ dbg')
  end.

End Builder.

(** ** [do_outline] *)

(** [std::cout << ...]. *)
Definition print (g : globals) (t : text) : globals :=
  mkGlobals (debug g) (hasDebug g) (cout g ++ t).

(** What is written to [svg] before the first contour, and after the last. *)
Definition svg_open : text :=
  [ Str (LF ++ LF ++ "  <!-- draw actual outline using lines and Bezier curves-->")%string;
    Str (LF ++ "  <path fill='black' stroke='black'")%string;
    Str " fill-opacity='0.45' "; Str " stroke-width='2' "; Str " d='" ].

Definition svg_close : text := [ Str (LF ++ "  '/>")%string ].

(** The text of the [path] element that draws [cmds]. *)
Definition svg_path (cmds : list PathCommand) : text :=
  svg_open ++ flat_map svg_text cmds ++ svg_close.

Definition no_points : text := [ Str "<!-- font had 0 points -->" ].
Definition no_contours : text := [ Str "<!-- font had 0 contours -->" ].

(** Draw the outline of the font as svg: the returned string and the
    process-wide state the call leaves. *)
Definition do_outline (points : list FT_Vector) (tags : list Z) (contours : list Z)
    (offsetX offsetY : float) (generateBezierStatements : bool) (g : globals)
  : option (text * globals) :=
  let g1 := print g [Str ("<!-- do outline -->" ++ LF)%string] in
  if size points =? 0 then Some (no_points, g1)
  else if size contours =? 0 then Some (no_contours, g1)
  else
    '(cmds, dbg) <- for_i points tags offsetX offsetY generateBezierStatements g
                      contours 0 ;;
    Some (svg_path cmds,
          if hasDebug g
          then print g1 ([Str (LF ++ "<!--" ++ LF)%string] ++ dbg
                         ++ [Str (" " ++ LF ++ "-->" ++ LF)%string])
          else g1).

(** The commands a call of [do_outline] writes: none when it returns early. *)
Definition outline_commands (points : list FT_Vector) (tags : list Z) (contours : list Z)
    (offsetX offsetY : float) (generateBezierStatements : bool) (g : globals)
  : option (list PathCommand) :=
  if size points =? 0 then Some []
  else if size contours =? 0 then Some []
  else option_map fst
         (for_i points tags offsetX offsetY generateBezierStatements g contours 0).

(** ** [halfway_between] *)

(** [long] is 64 bits wide, as it is where [int] is 32 bits wide and
    pointers are 64 (LP64). *)
Definition LONG_MIN : Z := - 2 ^ 63.
Definition LONG_MAX : Z := 2 ^ 63 - 1.

Definition in_long (z : Z) : bool := (LONG_MIN <=? z) && (z <=? LONG_MAX).

(** [a - b] on [long]: signed overflow is undefined. *)
Definition long_sub (a b : Z) : option Z :=
  if in_long (a - b) then Some (a - b) else None.

(** Conversion of a [double] to [long]: the fractional part is discarded;
    undefined when the truncated value is not a [long]. *)
Definition long_of_double (d : float) : option Z :=
  z <- trunc_double d ;;
  if in_long z then Some z else None.

(** [newv.x = p1.x + (p2.x-p1.x)/2.0]: the difference is taken on [long],
    halved and added on [double], and the sum is stored in a [long]. *)
Definition halfway_between (p1 p2 : FT_Vector) : option FT_Vector :=
  dx <- long_sub (FT_x p2) (FT_x p1) ;;
  x <- long_of_double (double_of_Z (FT_x p1) + double_of_Z dx / 2)%float ;;
  dy <- long_sub (FT_y p2) (FT_y p1) ;;
  y <- long_of_double (double_of_Z (FT_y p1) + double_of_Z dy / 2)%float ;;
  Some (mkFT x y).

(** ** The drawing methods of [class glyph] *)

(** Conversion of a [long] to [int]: the value modulo [2^32]. *)
Definition int_of_long (z : Z) : Z := (z + 2 ^ 31) mod 2 ^ 32 - 2 ^ 31.

(** The vector [std::vector<T>(a, a + n)] built from the first [n] elements
    of an array: undefined unless the array has them. *)
Definition vector_of {A : Type} (a : list A) (n : Z) : option (list A) :=
  if (0 <=? n) && (n <=? size a) then Some (firstn (Z.to_nat n) a) else None.

Module Glyph.

(** The members that [outline], [points] and [pointlines] read, as [init]
    leaves them: the counts of [ftoutline], the arrays that [ftpoints],
    [tags] and [contours] point to, and the arguments kept for
    [do_outline]. *)
Record glyph : Type := mk {
  n_contours : Z;
  n_points : Z;
  ftpoints : list FT_Vector;
  tags : list Z;
  contours : list Z;
  offsetX : float;
  offsetY : float;
  generateBezierStatements : bool
}.

(** [glyph::outline]. *)
Definition outline (gl : glyph) (g : globals) : option (text * globals) :=
  pointsv <- vector_of (ftpoints gl) (n_points gl) ;;
  tagsv <- vector_of (tags gl) (n_points gl) ;;
  contoursv <- vector_of (contours gl) (n_contours gl) ;;
  do_outline pointsv tagsv contoursv (offsetX gl) (offsetY gl)
    (generateBezierStatements gl) g.

(** The commands of the path that [outline] returns. *)
Definition path (gl : glyph) (g : globals) : option (list PathCommand) :=
  pointsv <- vector_of (ftpoints gl) (n_points gl) ;;
  tagsv <- vector_of (tags gl) (n_points gl) ;;
  contoursv <- vector_of (contours gl) (n_contours gl) ;;
  outline_commands pointsv tagsv contoursv (offsetX gl) (offsetY gl)
    (generateBezierStatements gl) g.

(** The circles [points] draws: the small one halfway between two control
    points, and the one of a point, with its number. *)
Inductive Circle : Type :=
| Halfway (cx cy : Z)
| Numbered (i : Z) (color : string) (cx cy : Z) (radius : Z).

Definition circle_text (c : Circle) : text :=
  match c with
  | Halfway cx cy =>
      [Str (LF ++ "  <!-- halfway pt between 2 ctrl pts -->")%string;
       Str "<circle"; Str " fill='"; Str "blue"; Str "'"; Str " stroke='black'";
       Str " cx='"; Int cx; Str "' cy='"; Int cy; Str "'";
       Str " r='"; Int 2; Str "'"; Str "/>"]
  | Numbered i color cx cy radius =>
      [Str (LF ++ "  <!--")%string; Int i; Str "-->";
       Str "<circle"; Str " fill='"; Str color; Str "'"; Str " stroke='black'";
       Str " cx='"; Int cx; Str "' cy='"; Int cy; Str "'";
       Str " r='"; Int radius; Str "'"; Str "/>"]
  end.

(** The body of the loop of [points]. *)
Definition points_iteration (gl : glyph) (i : Z) : option (list Circle) :=
  let nexti := int_mod (i + 1) (n_points gl) in
  tag <- index (tags gl) i ;;
  ntag <- index (tags gl) nexti ;;
  let this_is_ctrl_pt := negb (tagbit1 tag) in
  let next_is_ctrl_pt := negb (tagbit1 ntag) in
  p <- index (ftpoints gl) i ;;
  np <- index (ftpoints gl) nexti ;;
  let x := int_of_long (FT_x p) in
  let y := int_of_long (FT_y p) in
  let nx := int_of_long (FT_x np) in
  let ny := int_of_long (FT_y np) in
  let radius := if i =? 0 then 10 else 5 in
  let color := if this_is_ctrl_pt then "none" else "blue" in
  halfway <- (if this_is_ctrl_pt && next_is_ctrl_pt then
                sx <- int_add x nx ;;
                sy <- int_add y ny ;;
                Some [Halfway (int_div sx 2) (int_div sy 2)]
              else Some []) ;;
  Some (halfway ++ [Numbered i color (FT_x p) (FT_y p) radius]).

(** [for ( int i = ...; i < ftoutline.n_points; i++ )], with [n] iterations
    left. *)
Fixpoint points_loop (gl : glyph) (n : nat) (i : Z) : option (list Circle) :=
  match n with
  | O => Some []
  | S n' =>
      cs <- points_iteration gl i ;;
      cs' <- points_loop gl n' (i + 1) ;;
      Some (cs ++ cs')
  end.

Definition circles (gl : glyph) : option (list Circle) :=
  points_loop gl (Z.to_nat (n_points gl)) 0.

(** What [points] writes before its loop. *)
Definition points_open : text :=
  [Str (LF ++ LF ++ "  <!-- draw points as circles -->")%string].

(** [glyph::points]. *)
Definition points (gl : glyph) : option text :=
  cs <- circles gl ;;
  Some (points_open ++ flat_map circle_text cs).

(** The inner loop of [pointlines], over the contours [j, j+1, ...]:
    [dash_mod] is set when the point [i] ends one of them. *)
Fixpoint dash_loop (gl : glyph) (i : Z) (n : nat) (j : Z) (dash_mod : string)
  : option string :=
  match n with
  | O => Some dash_mod
  | S n' =>
      c <- index (contours gl) j ;;
      dash_loop gl i n' (j + 1) (if i =? c then " stroke-dasharray='3'" else dash_mod)
  end.

(** One [path] element of [pointlines]: a line from a point to another. *)
Record Line : Type := mkLine { dash_mod : string; from : FT_Vector; to : FT_Vector }.

Definition line_text (l : Line) : text :=
  [Str (LF ++ "  <path fill='none' stroke='green'")%string;
   Str (dash_mod l);
   Str " d='";
   Str " M "; Int (FT_x (from l)); Str ","; Int (FT_y (from l));
   Str " L "; Int (FT_x (to l)); Str ","; Int (FT_y (to l));
   Str (LF ++ "  '/>")%string].

(** The body of the outer loop of [pointlines]. *)
Definition pointlines_iteration (gl : glyph) (i : Z) : option Line :=
  d <- dash_loop gl i (Z.to_nat (n_contours gl)) 0 EmptyString ;;
  p <- index (ftpoints gl) i ;;
  q <- index (ftpoints gl) (int_mod (i + 1) (n_points gl)) ;;
  Some (mkLine d p q).

(** [for ( int i = ...; i < ftoutline.n_points-1; i++ )], with [n]
    iterations left. *)
Fixpoint pointlines_loop (gl : glyph) (n : nat) (i : Z) : option (list Line) :=
  match n with
  | O => Some []
  | S n' =>
      l <- pointlines_iteration gl i ;;
      ls <- pointlines_loop gl n' (i + 1) ;;
      Some (l :: ls)
  end.

Definition lines (gl : glyph) : option (list Line) :=
  pointlines_loop gl (Z.to_nat (n_points gl - 1)) 0.

(** What [pointlines] writes before its loop: a path that is a move to the
    first point. *)
Definition pointlines_open (first : FT_Vector) : text :=
  [Str (LF ++ LF ++ "  <!-- draw straight lines between points -->")%string;
   Str (LF ++ "  <path fill='none' stroke='green' d='")%string;
   Str (LF ++ "   M ")%string; Int (FT_x first); Str ","; Int (FT_y first); Str LF;
   Str (LF ++ "  '/>")%string].

(** [glyph::pointlines]. *)
Definition pointlines (gl : glyph) : option text :=
  first <- index (ftpoints gl) 0 ;;
  ls <- lines gl ;;
  Some (pointlines_open first ++ flat_map line_text ls).

End Glyph.

(** ** The y axis *)

(** [ftpoints[i].y *= -1], the statement by which [glyph::init] turns the
    y axis of TrueType into the one of SVG. *)
Definition invert_y (p : FT_Vector) : FT_Vector := mkFT (FT_x p) (- FT_y p).

(** * Vocabulary of the properties *)

(** The commands of a result, without the debug text. *)
Definition commands (r : option (list PathCommand * text)) : option (list PathCommand) :=
  option_map fst r.

(** Two results in sequence. *)
Definition then_ (a b : option (list PathCommand)) : option (list PathCommand) :=
  match a, b with
  | Some c, Some c' => Some (c ++ c')
  | _, _ => None
  end.

(** The truncated average the source writes [(a + b) / 2]. *)
Definition midpoint (a b : Z) : Z := int_div (a + b) 2.

(** [d] is an integer. *)
Definition is_integer (d : float) : bool :=
  match trunc_double d with
  | Some z => (double_of_Z z =? d)%float
  | None => false
  end.

(** The greatest integer below a finite [double]. *)
Definition floor_double (d : float) : option Z :=
  z <- trunc_double d ;;
  Some (if (d <? double_of_Z z)%float then z - 1 else z).

(** [d] is neither an infinity nor a NaN. *)
Definition finite (d : float) : bool :=
  match Prim2SF d with
  | S754_zero _ | S754_finite _ _ _ => true
  | S754_infinity _ | S754_nan => false
  end.

Definition finite_point (p : Point2D) : bool := finite (P_x p) && finite (P_y p).

(** The coordinates of [q] compare equal to those of [p]. *)
Definition same_point (q p : Point2D) : bool :=
  (P_x q =? P_x p)%float && (P_y q =? P_y p)%float.

(** The binary64 number nearest to the integer [z]. *)
Definition normal (z : Z) : spec_float := binary_normalize prec emax z 0 false.

Definition is_zero (x : spec_float) : bool :=
  match x with
  | S754_zero _ => true
  | _ => false
  end.

(** [x] and [y] are the same finite number: two zeros, or the same sign,
    mantissa and exponent. *)
Definition same_number (x y : spec_float) : Prop :=
  (is_zero x = true /\ is_zero y = true)
  \/ (x = y /\ exists s m e, y = S754_finite s m e).

(** [ts] is strictly increasing. *)
Fixpoint increasing (ts : list float) : bool :=
  match ts with
  | [] => true
  | t :: rest =>
      match rest with
      | [] => true
      | t' :: _ => (t <? t')%float && increasing rest
      end
  end.

(** ** Well-formed outlines *)

(** The contours, given by the index of their last point, are non-empty
    ranges, each starting where the previous one ended ([start] for the
    first), and the last one ends at the last of [n] points. *)
Fixpoint contours_ok (contours : list Z) (start n : Z) : bool :=
  match contours with
  | [] => start =? n
  | e :: rest => (start <=? e) && (e <? n) && contours_ok rest (e + 1) n
  end.

(** The invariants of an outline: a tag for every point, and contours that
    partition the points. *)
Definition well_formed (points : list FT_Vector) (tags contours : list Z) : bool :=
  (size tags =? size points) && contours_ok contours 0 (size points).

(** The indices of the variables of an iteration, moved by [k]. *)
Definition shift_indices (k : Z) (v : Var.t) : Var.t :=
  Var.mk (Var.thisi v + k) (Var.nexti v + k) (Var.nextnexti v + k)
    (Var.x v) (Var.y v) (Var.nx v) (Var.ny v) (Var.nnx v) (Var.nny v)
    (Var.this_isctl v) (Var.next_isctl v) (Var.nextnext_isctl v).

(** ** Where a coordinate comes from *)

Section Provenance.

Variable points : list FT_Vector.
Variables offsetX offsetY : float.

(** [(x, y)] is a point of the outline, moved by the offsets and truncated. *)
Definition at_point (x y : Z) : Prop :=
  exists p, In p points /\ coordX offsetX p = Some x /\ coordY offsetY p = Some y.

(** [(x, y)] is halfway between two such points. *)
Definition at_midpoint (x y : Z) : Prop :=
  exists x1 y1 x2 y2,
    at_point x1 y1 /\ at_point x2 y2 /\ x = midpoint x1 x2 /\ y = midpoint y1 y2.

Definition on_grid (x y : Z) : Prop := at_point x y \/ at_midpoint x y.

(** [(a, b)] is a sample of an arc between two points of the grid whose
    control point is a point of the outline. *)
Definition sample_of (a b : float) : Prop :=
  exists x0 y0 x1 y1 x2 y2 t,
    on_grid x0 y0 /\ at_point x1 y1 /\ on_grid x2 y2 /\ In t default_parameters
    /\ mkPoint2D a b
       = quadraticBezier (Point2D_of_int x0 y0) (Point2D_of_int x1 y1)
           (Point2D_of_int x2 y2) t.

(** What the loop over [j] guarantees of the commands it writes. *)
Definition placed (c : PathCommand) : Prop :=
  match c with
  | MoveTo x y => at_midpoint x y
  | LineTo x y => at_point x y
  | QuadCurveTo cx cy x y => at_point cx cy /\ on_grid x y
  | LineToD a b => sample_of a b
  | MoveToD _ _ | ClosePath => True
  end.

End Provenance.

(** ** What an iteration draws, as a function of its variables *)

Definition curve_cmds (gen : bool) (v : Var.t) (ex ey : Z) : list PathCommand :=
  if gen then [QuadCurveTo (Var.nx v) (Var.ny v) ex ey]
  else svgQuadraticBezier
         (map (quadraticBezier (Point2D_of_int (Var.x v) (Var.y v))
                 (Point2D_of_int (Var.nx v) (Var.ny v)) (Point2D_of_int ex ey))
            default_parameters).

Definition segment_cmds (gen : bool) (v : Var.t) : list PathCommand :=
  if negb (Var.this_isctl v) && Var.next_isctl v && negb (Var.nextnext_isctl v) then
    curve_cmds gen v (Var.nnx v) (Var.nny v)
  else if negb (Var.this_isctl v) && Var.next_isctl v && Var.nextnext_isctl v then
    curve_cmds gen v (midpoint (Var.nx v) (Var.nnx v)) (midpoint (Var.ny v) (Var.nny v))
  else if negb (Var.this_isctl v) && negb (Var.next_isctl v) then
    [LineTo (Var.nx v) (Var.ny v)]
  else [].

Definition iteration_cmds (gen : bool) (j : Z) (v : Var.t) : list PathCommand :=
  if Var.this_isctl v && Var.next_isctl v then
    (if j =? 0
     then [MoveTo (midpoint (Var.x v) (Var.nx v)) (midpoint (Var.y v) (Var.ny v))]
     else [])
    ++ segment_cmds gen
         (Var.set_xy v (midpoint (Var.x v) (Var.nx v)) (midpoint (Var.y v) (Var.ny v)))
  else segment_cmds gen v.

(** The sums an iteration may form stay in the range of [int]. *)
Definition sums_in_int (v : Var.t) : bool :=
  in_int (Var.x v + Var.nx v) && in_int (Var.y v + Var.ny v)
  && in_int (Var.nx v + Var.nnx v) && in_int (Var.ny v + Var.nny v).

(** ** Commands of two runs, compared *)

Section Compared.

(** [r x y x' y']: how a point of the first run relates to the same point
    of the second; [m]: how a point or a midpoint does. *)
Variables r m : Z -> Z -> Z -> Z -> Prop.

Definition related (c c' : PathCommand) : Prop :=
  match c, c' with
  | MoveTo x y, MoveTo x' y' => m x y x' y'
  | LineTo x y, LineTo x' y' => r x y x' y'
  | QuadCurveTo cx cy x y, QuadCurveTo cx' cy' x' y' => r cx cy cx' cy' /\ m x y x' y'
  | MoveToD _ _, MoveToD _ _ => True
  | LineToD _ _, LineToD _ _ => True
  | ClosePath, ClosePath => True
  | _, _ => False
  end.

End Compared.

(** [(x', y')] is [(x, y)] moved by [(kx, ky)]. *)
Definition moved (kx ky x y x' y' : Z) : Prop := x' = x + kx /\ y' = y + ky.

(** [c'] is the command [c] with its [int] coordinates moved by [(kx, ky)];
    coordinates written as [double]s are not compared. *)
Definition shifted (kx ky : Z) (c c' : PathCommand) : Prop :=
  related (moved kx ky) (moved kx ky) c c'.

(** ** The points of one contour *)

(** The integers [j, j+1, ...], [k] of them. *)
Fixpoint zrange (j : Z) (k : nat) : list Z :=
  match k with
  | O => []
  | S k' => j :: zrange (j + 1) k'
  end.

Section ContourData.

Variable points : list FT_Vector.
Variable tags : list Z.
Variables offsetX offsetY : float.

(** The contour is the points [s .. e]; the point of index [i] is [P i], it
    is moved and truncated to [(X i, Y i)], and [C i] tells whether it is a
    control point. *)
Variables s e : Z.
Variable P : Z -> FT_Vector.
Variables X Y : Z -> Z.
Variable C : Z -> bool.

Definition reads (i : Z) : Prop :=
  index points i = Some (P i)
  /\ coordX offsetX (P i) = Some (X i) /\ coordY offsetY (P i) = Some (Y i)
  /\ exists tag, index tags i = Some tag /\ negb (tagbit1 tag) = C i.

(** The index [j % npts + offset]. *)
Definition wrap (k : Z) : Z := int_mod k (e - s + 1) + s.

Definition vars_at (j : Z) : Var.t :=
  Var.mk (wrap j) (wrap (j + 1)) (wrap (j + 2))
    (X (wrap j)) (Y (wrap j)) (X (wrap (j + 1))) (Y (wrap (j + 1)))
    (X (wrap (j + 2))) (Y (wrap (j + 2)))
    (C (wrap j)) (C (wrap (j + 1))) (C (wrap (j + 2))).

End ContourData.

(** The point of index [i] of a vector of points. *)
Definition nth_point (points : list FT_Vector) (i : Z) : FT_Vector :=
  nth (Z.to_nat i) points (mkFT 0 0).

(** ** Outlines used as examples *)

Definition quiet : globals := mkGlobals [] false [].
Definition verbose : globals := mkGlobals [] true [].

(** The three points of property P3 of the specification. *)
Definition P3_start : Point2D := Point2D_of_int 0 0.
Definition P3_control : Point2D := Point2D_of_int 10 0.
Definition P3_end : Point2D := Point2D_of_int 20 0.

(** The contours of properties P2 and P4 of the specification. *)
Definition P2_points : list FT_Vector := [mkFT 0 0; mkFT 10 0; mkFT 20 0].
Definition P2_tags : list Z := [1; 0; 1].
Definition P4_points : list FT_Vector := [mkFT 0 0; mkFT 10 10; mkFT 20 0; mkFT 30 0].
Definition P4_tags : list Z := [1; 0; 0; 1].

Definition square_points : list FT_Vector :=
  [mkFT 0 0; mkFT 10 0; mkFT 10 10; mkFT 0 10].

(** ** Counting the commands of a path *)

Definition is_start (c : PathCommand) : bool :=
  match c with MoveToD _ _ => true | _ => false end.

Definition is_close (c : PathCommand) : bool :=
  match c with ClosePath => true | _ => false end.

Definition is_quad (c : PathCommand) : bool :=
  match c with QuadCurveTo _ _ _ _ => true | _ => false end.

Definition is_sample (c : PathCommand) : bool :=
  match c with LineToD _ _ => true | _ => false end.

Definition count (f : PathCommand -> bool) (cmds : list PathCommand) : nat :=
  List.length (filter f cmds).

(** [!(tags[i] & 1)]: the point is a control point. *)
Definition is_ctl (tag : Z) : bool := negb (tagbit1 tag).

(** The commands of one curve: a [Q] statement, or the line segments of the
    default tessellation. *)
Definition per_curve (gen : bool) : nat :=
  if gen then 1%nat else List.length default_parameters.

Definition is_curve (gen : bool) (c : PathCommand) : bool :=
  if gen then is_quad c else is_sample c.

(** A command written by an iteration is a move to a midpoint, a line, or
    part of a curve drawn the way [gen] asks for. *)
Definition drawing (gen : bool) (c : PathCommand) : Prop :=
  match c with
  | MoveTo _ _ | LineTo _ _ => True
  | _ => is_curve gen c = true
  end.

(** ** Numbers that are not positive, and halves *)

(** [x] is a zero, a negative number or minus infinity. *)
Definition not_positive (x : spec_float) : bool :=
  match x with
  | S754_zero _ => true
  | S754_finite s _ _ | S754_infinity s => s
  | S754_nan => false
  end.

(** The binary64 number nearest to [n / 2]. *)
Definition half (n : Z) : spec_float := binary_normalize prec emax n (-1) false.

(** ** The vertices of a path *)

(** The control points of the [Q] statements of a path, in order. *)
Definition controls (cmds : list PathCommand) : list (Z * Z) :=
  flat_map (fun c => match c with
                     | QuadCurveTo cx cy _ _ => [(cx, cy)]
                     | _ => []
                     end) cmds.

(** The points where the lines and the [Q] statements of a path end. *)
Definition ends (cmds : list PathCommand) : list (Z * Z) :=
  flat_map (fun c => match c with
                     | LineTo x y | QuadCurveTo _ _ x y => [(x, y)]
                     | _ => []
                     end) cmds.

(** The points where its [Q] statements end. *)
Definition curve_ends (cmds : list PathCommand) : list (Z * Z) :=
  flat_map (fun c => match c with
                     | QuadCurveTo _ _ x y => [(x, y)]
                     | _ => []
                     end) cmds.

(** The point after [k] in the contour [s .. e]. *)
Definition next_in (s e k : Z) : Z := if k =? e then s else k + 1.

(** ** Glyphs *)

(** The centres of the small circles of [points]. *)
Definition halfway_points (cs : list Glyph.Circle) : list (Z * Z) :=
  flat_map (fun c => match c with
                     | Glyph.Halfway cx cy => [(cx, cy)]
                     | Glyph.Numbered _ _ _ _ _ => []
                     end) cs.

(** The glyph of the contour of property P4. *)
Definition P4_glyph : Glyph.glyph :=
  Glyph.mk 1 4 P4_points P4_tags [3] 0 0 true.

(** A glyph of two triangles. *)
Definition two_triangles : Glyph.glyph :=
  Glyph.mk 2 6 [mkFT 0 0; mkFT 10 0; mkFT 0 10; mkFT 20 0; mkFT 30 0; mkFT 20 10]
    [1; 1; 1; 1; 1; 1] [2; 5] 0 0 true.

(** ** Mirror images *)

(** [(x', y')] is the mirror image of [(x, y)]. *)
Definition mirrored (x y x' y' : Z) : Prop := x' = x /\ y' = - y.

(** [x'] is the opposite of [x]; two zeros are opposite whatever their
    signs. *)
Definition opposite (x x' : spec_float) : Prop :=
  match x, x' with
  | S754_zero _, S754_zero _ => True
  | S754_infinity s, S754_infinity s' => s' = negb s
  | S754_nan, S754_nan => True
  | S754_finite s m e, S754_finite s' m' e' => s' = negb s /\ m' = m /\ e' = e
  | _, _ => False
  end.

(** * Properties *)

(** ** The default step of the tessellator *)

Lemma fullQuadraticBezier_default (p0 p1 p2 : Point2D) (n : nat) :
  fullQuadraticBezier (12 + n) p0 p1 p2 default_increment
  = Some (map (quadraticBezier p0 p1 p2) default_parameters).
Proof. reflexivity. Qed.

(** ** The debug flag does not change what is drawn *)

Section Erasure.

Variable points : list FT_Vector.
Variable tags : list Z.
Variables offsetX offsetY : float.
Variable gen : bool.
Variables g g' : globals.

Lemma curve_erase v ex ey :
  commands (curve gen g v ex ey) = commands (curve gen g' v ex ey).
Proof.
  unfold curve. destruct gen; [reflexivity|].
  destruct (fullQuadraticBezier _ _ _ _ _); reflexivity.
Qed.

Lemma segment_erase v :
  commands (segment gen g v) = commands (segment gen g' v).
Proof.
  unfold segment.
  destruct (negb (Var.this_isctl v) && Var.next_isctl v && negb (Var.nextnext_isctl v)).
  - apply curve_erase.
  - destruct (negb (Var.this_isctl v) && Var.next_isctl v && Var.nextnext_isctl v).
    + destruct (int_add (Var.nx v) (Var.nnx v)) as [sx|]; [|reflexivity].
      destruct (int_add (Var.ny v) (Var.nny v)) as [sy|]; [|reflexivity].
      pose proof (curve_erase v (int_div sx 2) (int_div sy 2)) as H.
      destruct (curve gen g v _ _) as [[c d]|], (curve gen g' v _ _) as [[c' d']|];
        simpl in *; congruence.
    + destruct (negb (Var.this_isctl v) && negb (Var.next_isctl v)); [reflexivity|].
      destruct (Var.this_isctl v && negb (Var.next_isctl v)); reflexivity.
Qed.

Lemma adjacent_ctl_erase j v :
  option_map fst (adjacent_ctl g j v) = option_map fst (adjacent_ctl g' j v).
Proof.
  unfold adjacent_ctl.
  destruct (Var.this_isctl v && Var.next_isctl v); [|reflexivity].
  destruct (int_add (Var.x v) (Var.nx v)); [|reflexivity].
  destruct (int_add (Var.y v) (Var.ny v)); reflexivity.
Qed.

Lemma iteration_erase offset npts j :
  commands (iteration points tags offsetX offsetY gen g offset npts j)
  = commands (iteration points tags offsetX offsetY gen g' offset npts j).
Proof.
  unfold iteration.
  destruct (read_vars _ _ _ _ _ _ _) as [v|]; [|reflexivity].
  pose proof (adjacent_ctl_erase j v) as Ha.
  destruct (adjacent_ctl g j v) as [[[v1 m1] d1]|],
           (adjacent_ctl g' j v) as [[[v2 m2] d2]|]; simpl in Ha; try congruence.
  injection Ha as -> ->.
  pose proof (segment_erase v2) as Hs.
  destruct (segment gen g v2) as [[c d]|], (segment gen g' v2) as [[c' d']|];
    simpl in *; congruence.
Qed.

Lemma for_j_erase offset npts n : forall j,
  commands (for_j points tags offsetX offsetY gen g offset npts n j)
  = commands (for_j points tags offsetX offsetY gen g' offset npts n j).
Proof.
  induction n as [|n IH]; intros j; [reflexivity|]. simpl.
  pose proof (iteration_erase offset npts j) as Hi.
  specialize (IH (j + 1)).
  destruct (iteration _ _ _ _ _ g _ _ _) as [[c d]|],
           (iteration _ _ _ _ _ g' _ _ _) as [[c' d']|]; simpl in Hi; try congruence.
  destruct (for_j _ _ _ _ _ g _ _ _ _) as [[cs ds]|],
           (for_j _ _ _ _ _ g' _ _ _ _) as [[cs' ds']|]; simpl in *; congruence.
Qed.

Lemma contour_erase s e :
  commands (contour points tags offsetX offsetY gen g s e)
  = commands (contour points tags offsetX offsetY gen g' s e).
Proof.
  unfold contour.
  destruct (index points s) as [p|]; [|reflexivity].
  pose proof (for_j_erase s (e - s + 1) (Z.to_nat (e - s + 1)) 0) as H.
  destruct (for_j _ _ _ _ _ g _ _ _ _) as [[c d]|],
           (for_j _ _ _ _ _ g' _ _ _ _) as [[c' d']|]; simpl in *; congruence.
Qed.

Lemma for_i_erase contours : forall s,
  commands (for_i points tags offsetX offsetY gen g contours s)
  = commands (for_i points tags offsetX offsetY gen g' contours s).
Proof.
  induction contours as [|e rest IH]; intros s; [reflexivity|]. simpl.
  pose proof (contour_erase s e) as Hc. specialize (IH (e + 1)).
  destruct (contour _ _ _ _ _ g _ _) as [[c d]|],
           (contour _ _ _ _ _ g' _ _) as [[c' d']|]; simpl in Hc; try congruence.
  destruct (for_i _ _ _ _ _ g _ _) as [[cs ds]|],
           (for_i _ _ _ _ _ g' _ _) as [[cs' ds']|]; simpl in *; congruence.
Qed.

Lemma outline_commands_erase contours :
  outline_commands points tags contours offsetX offsetY gen g
  = outline_commands points tags contours offsetX offsetY gen g'.
Proof.
  unfold outline_commands.
  destruct (size points =? 0); [reflexivity|].
  destruct (size contours =? 0); [reflexivity|].
  apply for_i_erase.
Qed.

End Erasure.

(** ** Arithmetic of binary64 at 0 and 1 *)

Lemma digits2_shift52 (m : positive) :
  Z.pos (digits2_pos (4503599627370496 * m)) = Z.pos (digits2_pos m) + 52.
Proof. cbn [Pos.mul digits2_pos]. lia. Qed.

Lemma shr_shift52 (m : positive) :
  iter_pos shr_1 52 (Build_shr_record (Z.pos (4503599627370496 * m)) false false)
  = Build_shr_record (Z.pos m) false false.
Proof. reflexivity. Qed.

(** The product of 1 and a finite number is rounded to that number. *)
Lemma SFmul_one_l (s : bool) (m : positive) (e : Z) :
  valid_binary (S754_finite s m e) = true ->
  SF64mul (S754_finite false 4503599627370496 (-52)) (S754_finite s m e)
  = S754_finite s m e.
Proof.
  intros Hv. cbn [SpecFloat.valid_binary] in Hv. unfold bounded, canonical_mantissa in Hv.
  apply andb_prop in Hv as [Hc Hb]. apply Z.eqb_eq in Hc.
  unfold SF64mul, SFmul, binary_round_aux, shr_fexp.
  cbn [Zdigits2 xorb]. rewrite digits2_shift52.
  replace (Z.pos (digits2_pos m) + 52 + (-52 + e)) with (Z.pos (digits2_pos m) + e) by lia.
  rewrite Hc. replace (e - (-52 + e)) with 52 by lia.
  cbn [shr shr_record_of_loc]. rewrite shr_shift52.
  cbn [shr_m loc_of_shr_record round_nearest_even Zdigits2].
  replace (-52 + e + 52) with e by lia.
  rewrite Hc, Z.sub_diag. cbn [shr shr_m]. now rewrite Hb.
Qed.

Lemma mul_one_l (a : float) : finite a = true -> (1 * a)%float = a.
Proof.
  intros Hf. apply Prim2SF_inj. rewrite mul_spec.
  pose proof (Prim2SF_valid a) as Hv. unfold finite in Hf.
  change (Prim2SF 1) with (S754_finite false 4503599627370496 (-52)).
  destruct (Prim2SF a) as [s|s| |s m e]; try discriminate.
  - destruct s; reflexivity.
  - now apply SFmul_one_l.
Qed.

Lemma mul_zero_l (b : float) : finite b = true -> is_zero (Prim2SF (0 * b)) = true.
Proof.
  intros Hf. rewrite mul_spec. unfold finite in Hf.
  change (Prim2SF 0) with (S754_zero false).
  destruct (Prim2SF b) as [s|s| |s m e]; try discriminate; reflexivity.
Qed.

Lemma add_zero_r (a z : float) :
  finite a = true -> is_zero (Prim2SF z) = true ->
  same_number (Prim2SF (a + z)) (Prim2SF a).
Proof.
  intros Hf Hz. unfold finite in Hf. rewrite add_spec.
  destruct (Prim2SF z) as [sz|sz| |sz mz ez]; try discriminate.
  destruct (Prim2SF a) as [s|s| |s m e]; try discriminate.
  - left. destruct s, sz; split; reflexivity.
  - right. split; [reflexivity | now exists s, m, e].
Qed.

Lemma same_number_finite (x y : float) :
  same_number (Prim2SF x) (Prim2SF y) -> finite x = true.
Proof.
  unfold finite. intros [[Hx _] | [-> (s & m & e & ->)]]; [|reflexivity].
  destruct (Prim2SF x); try discriminate; reflexivity.
Qed.

Lemma same_number_trans (x y z : spec_float) :
  same_number x y -> same_number y z -> same_number x z.
Proof.
  intros [[Hx Hy] | [-> (s & m & e & ->)]] [[Hy' Hz] | [-> Hfin]].
  - left. now split.
  - destruct Hfin as (s & m & e & ->). discriminate.
  - discriminate.
  - right. split; [reflexivity | assumption].
Qed.

Lemma same_number_eqb (x y : float) :
  same_number (Prim2SF x) (Prim2SF y) -> (x =? y)%float = true.
Proof.
  rewrite FloatAxioms.eqb_spec.
  intros [[Hx Hy] | [-> (s & m & e & ->)]].
  - destruct (Prim2SF x), (Prim2SF y); try discriminate; reflexivity.
  - unfold SFeqb, SFcompare. rewrite Z.compare_refl.
    assert (Pos.compare_cont Eq m m = Eq) as -> by apply Pos.compare_refl.
    destruct s; reflexivity.
Qed.

(** The Bezier formula at [t = 0], as the source computes it, is the start
    of the curve. *)
Lemma bezier_coordinate_at_zero (a b c : float) :
  finite a = true -> finite b = true -> finite c = true ->
  (1 * a + 0 * b + 0 * c =? a)%float = true.
Proof.
  intros Ha Hb Hc. apply same_number_eqb.
  rewrite (mul_one_l a Ha).
  pose proof (add_zero_r a (0 * b) Ha (mul_zero_l b Hb)) as H1.
  pose proof (add_zero_r (a + 0 * b) (0 * c)
                (same_number_finite _ _ H1) (mul_zero_l c Hc)) as H2.
  exact (same_number_trans _ _ _ H2 H1).
Qed.

Lemma quadraticBezier_at_zero (p0 p1 p2 : Point2D) :
  finite_point p0 = true -> finite_point p1 = true -> finite_point p2 = true ->
  same_point (quadraticBezier p0 p1 p2 0) p0 = true.
Proof.
  unfold finite_point, same_point. intros H0 H1 H2.
  apply andb_prop in H0 as [H0x H0y]. apply andb_prop in H1 as [H1x H1y].
  apply andb_prop in H2 as [H2x H2y].
  change (quadraticBezier p0 p1 p2 0)
    with {| P_x := (1 * P_x p0 + 0 * P_x p1 + 0 * P_x p2)%float;
            P_y := (1 * P_y p0 + 0 * P_y p1 + 0 * P_y p2)%float |}.
  cbn [P_x P_y]. now rewrite !bezier_coordinate_at_zero.
Qed.

(** ** Integers in binary64 *)

Lemma pos_iter_xO (m q : positive) : Z.pos (Pos.iter xO m q) = Z.pos m * 2 ^ Z.pos q.
Proof.
  induction q using Pos.peano_ind.
  - simpl. lia.
  - rewrite Pos.iter_succ, Pos2Z.inj_succ, Z.pow_succ_r by lia.
    rewrite Pos2Z.inj_xO, IHq. lia.
Qed.

Lemma digits2_iter_xO (m q : positive) :
  Z.pos (digits2_pos (Pos.iter xO m q)) = Z.pos (digits2_pos m) + Z.pos q.
Proof.
  induction q using Pos.peano_ind.
  - simpl. lia.
  - rewrite Pos.iter_succ. cbn [digits2_pos]. lia.
Qed.

Lemma fexp_small (d : Z) : 0 < d -> fexp prec emax d = d - 53.
Proof. intros. unfold fexp, emin, prec, emax. lia. Qed.

(** A canonical mantissa is left as it is by rounding. *)
Lemma binary_round_aux_canonical (s : bool) (m : positive) (e : Z) :
  bounded prec emax m e = true ->
  binary_round_aux prec emax s (Z.pos m) e loc_Exact = S754_finite s m e.
Proof.
  unfold bounded, canonical_mantissa. intros H.
  apply andb_prop in H as [Hc Hb]. apply Z.eqb_eq in Hc.
  unfold binary_round_aux, shr_fexp. cbn [Zdigits2].
  rewrite Hc, Z.sub_diag. cbn [shr shr_record_of_loc shr_m loc_of_shr_record round_nearest_even Zdigits2].
  rewrite Hc, Z.sub_diag. cbn [shr shr_m]. now rewrite Hb.
Qed.

Lemma iter_pos_eq {A : Type} (f : A -> A) (n : positive) : forall x,
  iter_pos f n x = Pos.iter f x n.
Proof.
  induction n as [n IH|n IH|]; intros x; cbn [iter_pos Pos.iter].
  - rewrite !IH. now rewrite <- !Pos.iter_swap.
  - now rewrite !IH.
  - reflexivity.
Qed.

(** Shifting right the zeros that a shift to the left has put is exact. *)
Lemma shr_iter_xO (w : positive) (n : positive) :
  iter_pos shr_1 n (Build_shr_record (Z.pos (Pos.iter xO w n)) false false)
  = Build_shr_record (Z.pos w) false false.
Proof.
  rewrite iter_pos_eq. revert w.
  induction n using Pos.peano_ind; intros w.
  - reflexivity.
  - rewrite Pos.iter_succ. rewrite Pos.iter_succ_r, IHn. reflexivity.
Qed.

Lemma canon_bounded (m : positive) :
  Z.pos (digits2_pos m) <= 53 ->
  exists mz ez, shl_align m 0 (Z.pos (digits2_pos m) - 53) = (mz, ez)
    /\ ez = Z.pos (digits2_pos m) - 53
    /\ Z.pos mz = Z.pos m * 2 ^ (53 - Z.pos (digits2_pos m))
    /\ bounded prec emax mz ez = true.
Proof.
  intros Hd. unfold shl_align. rewrite Z.sub_0_r.
  destruct (Z.pos (digits2_pos m) - 53) as [|q|q] eqn:E; try lia.
  - exists m, 0. repeat split; try lia.
    + replace (53 - Z.pos (digits2_pos m)) with 0 by lia. lia.
    + unfold bounded, canonical_mantissa. rewrite Z.add_0_r, fexp_small by lia.
      apply andb_true_intro. split; [apply Z.eqb_eq; lia | reflexivity].
  - exists (Pos.iter xO m q), (Z.neg q). repeat split.
    + rewrite pos_iter_xO. f_equal. f_equal. lia.
    + unfold bounded, canonical_mantissa. rewrite digits2_iter_xO, fexp_small by lia.
      apply andb_true_intro. split; [apply Z.eqb_eq; lia | apply Z.leb_le; unfold emax, prec; lia].
Qed.

Lemma digits2_lower (m : positive) : 2 ^ (Z.pos (digits2_pos m) - 1) <= Z.pos m.
Proof.
  induction m as [m IH|m IH|]; cbn [digits2_pos].
  - rewrite Pos2Z.inj_succ.
    replace (Z.succ (Z.pos (digits2_pos m)) - 1) with (Z.succ (Z.pos (digits2_pos m) - 1)) by lia.
    rewrite Z.pow_succ_r by lia. lia.
  - rewrite Pos2Z.inj_succ.
    replace (Z.succ (Z.pos (digits2_pos m)) - 1) with (Z.succ (Z.pos (digits2_pos m) - 1)) by lia.
    rewrite Z.pow_succ_r by lia. lia.
  - simpl. lia.
Qed.

Lemma digits2_le_53 (m : positive) : Z.pos m < 2 ^ 53 -> Z.pos (digits2_pos m) <= 53.
Proof.
  intros H. pose proof (digits2_lower m) as L.
  destruct (Z_le_gt_dec (Z.pos (digits2_pos m)) 53) as [|G]; [assumption|].
  assert (2 ^ 53 <= 2 ^ (Z.pos (digits2_pos m) - 1)) by (apply Z.pow_le_mono_r; lia).
  lia.
Qed.

Lemma pos_of_shift (m w : positive) (k : Z) :
  0 <= k -> Z.pos m = Z.pos w * 2 ^ k ->
  match k with Z.pos q => m = Pos.iter xO w q | _ => m = w end.
Proof.
  intros Hk H. destruct k as [|q|q]; try lia.
  apply Pos2Z.inj. now rewrite pos_iter_xO.
Qed.

Lemma digits2_shift (m w : positive) (k : Z) :
  0 <= k -> Z.pos m = Z.pos w * 2 ^ k ->
  Z.pos (digits2_pos m) = Z.pos (digits2_pos w) + k.
Proof.
  intros Hk H. pose proof (pos_of_shift m w k Hk H) as E.
  destruct k as [|q|q]; try lia; subst m.
  - lia.
  - apply digits2_iter_xO.
Qed.

(** Rounding any pair that stands for the value of a canonical pair gives
    the canonical pair. *)
Lemma binary_round_value (s : bool) (w : positive) (ew : Z) (m : positive) (e : Z) :
  bounded prec emax w ew = true ->
  (e <= ew /\ Z.pos m = Z.pos w * 2 ^ (ew - e))
  \/ (ew <= e /\ Z.pos w = Z.pos m * 2 ^ (e - ew)) ->
  binary_round prec emax s m e = S754_finite s w ew.
Proof.
  intros Hb H. pose proof Hb as Hb'. unfold bounded, canonical_mantissa in Hb'.
  apply andb_prop in Hb' as [Hc Hemax]. apply Z.eqb_eq in Hc.
  unfold binary_round. destruct H as [[He Hm] | [He Hw]].
  - (* the mantissa carries [ew - e] more zeros than the canonical one *)
    pose proof (digits2_shift m w (ew - e) ltac:(lia) Hm) as Hd.
    replace (Z.pos (digits2_pos m) + e) with (Z.pos (digits2_pos w) + ew) by lia.
    rewrite Hc. unfold shl_align.
    pose proof (pos_of_shift m w (ew - e) ltac:(lia) Hm) as E.
    destruct (ew - e) as [|q|q] eqn:Ek; try lia.
    + subst m. replace e with ew by lia. now apply binary_round_aux_canonical.
    + subst m. unfold binary_round_aux, shr_fexp. cbn [Zdigits2].
      rewrite digits2_iter_xO.
      replace (Z.pos (digits2_pos w) + Z.pos q + e) with (Z.pos (digits2_pos w) + ew) by lia.
      rewrite Hc, Ek. cbn [shr shr_record_of_loc]. rewrite shr_iter_xO.
      cbn [shr_m loc_of_shr_record round_nearest_even Zdigits2].
      replace (e + Z.pos q) with ew by lia.
      rewrite Hc, Z.sub_diag. cbn [shr shr_m]. now rewrite Hemax.
  - (* the mantissa is to be shifted left by [e - ew] *)
    pose proof (digits2_shift w m (e - ew) ltac:(lia) Hw) as Hd.
    replace (Z.pos (digits2_pos m) + e) with (Z.pos (digits2_pos w) + ew) by lia.
    rewrite Hc. unfold shl_align.
    pose proof (pos_of_shift w m (e - ew) ltac:(lia) Hw) as E.
    destruct (ew - e) as [|q|q] eqn:Ek; try lia.
    + replace (e - ew) with 0 in E by lia. subst w. replace e with ew by lia.
      now apply binary_round_aux_canonical.
    + replace (e - ew) with (Z.pos q) in E by lia. subst w.
      now apply binary_round_aux_canonical.
Qed.

Lemma canon_of (m : positive) :
  Z.pos m < 2 ^ 53 ->
  exists w ew, bounded prec emax w ew = true
    /\ Z.pos w = Z.pos m * 2 ^ (- ew) /\ -52 <= ew <= 0.
Proof.
  intros H. pose proof (digits2_le_53 m H) as Hd.
  destruct (canon_bounded m Hd) as (w & ew & _ & -> & Hw & Hb).
  exists w, (Z.pos (digits2_pos m) - 53). split; [exact Hb|]. split; [|lia].
  rewrite Hw.
  replace (- (Z.pos (digits2_pos m) - 53)) with (53 - Z.pos (digits2_pos m)) by lia.
  reflexivity.
Qed.

Lemma binary_round_of_value (s : bool) (p m : positive) (e : Z) :
  Z.pos p < 2 ^ 53 -> e <= 0 -> Z.pos m = Z.pos p * 2 ^ (- e) ->
  exists w ew, bounded prec emax w ew = true
    /\ Z.pos w = Z.pos p * 2 ^ (- ew) /\ -52 <= ew <= 0
    /\ binary_round prec emax s m e = S754_finite s w ew
    /\ binary_round prec emax s p 0 = S754_finite s w ew.
Proof.
  intros Hp He Hm. destruct (canon_of p Hp) as (w & ew & Hb & Hw & Hew).
  exists w, ew. repeat split; try assumption; try lia.
  - apply binary_round_value; [assumption|].
    destruct (Z_le_gt_dec e ew) as [L|G].
    + left. split; [assumption|]. rewrite Hw, Hm, <- Z.mul_assoc, <- Z.pow_add_r by lia.
      do 2 f_equal. lia.
    + right. split; [lia|]. rewrite Hw, Hm, <- Z.mul_assoc, <- Z.pow_add_r by lia.
      do 2 f_equal. lia.
  - apply binary_round_value; [assumption|].
    right. split; [lia|]. rewrite Hw. f_equal.
Qed.

(** Normalizing [z * 2^(-e)] with the exponent [e] is normalizing [z]. *)
Lemma normalize_value (z v e : Z) :
  Z.abs z < 2 ^ 53 -> e <= 0 -> v = z * 2 ^ (- e) ->
  binary_normalize prec emax v e false = normal z.
Proof.
  intros Hz He Hv. unfold normal, binary_normalize.
  assert (Hpow : 0 < 2 ^ (- e)) by (apply Z.pow_pos_nonneg; lia).
  destruct z as [|p|p].
  - subst v. reflexivity.
  - destruct v as [|m|m]; try nia.
    destruct (binary_round_of_value false p m e ltac:(lia) He Hv)
      as (w & ew & _ & _ & _ & -> & ->). reflexivity.
  - destruct v as [|m|m]; try nia.
    assert (Hm : Z.pos m = Z.pos p * 2 ^ (- e)) by lia.
    destruct (binary_round_of_value true p m e ltac:(lia) He Hm)
      as (w & ew & _ & _ & _ & -> & ->). reflexivity.
Qed.

Lemma normal_finite (z : Z) :
  z <> 0 -> Z.abs z < 2 ^ 53 ->
  exists w ew, normal z = S754_finite (z <? 0) w ew
    /\ bounded prec emax w ew = true
    /\ Z.pos w = Z.abs z * 2 ^ (- ew) /\ -52 <= ew <= 0.
Proof.
  intros Hz Hb. unfold normal, binary_normalize. destruct z as [|p|p]; [contradiction| |].
  - assert (Hp : Z.pos p < 2 ^ 53) by exact Hb.
    assert (Hm : Z.pos p = Z.pos p * 2 ^ (- 0)) by (rewrite Z.opp_0, Z.pow_0_r; lia).
    destruct (binary_round_of_value false p p 0 Hp (Z.le_refl 0) Hm)
      as (w & ew & Hbd & Hw & Hew & _ & E).
    exists w, ew. split; [exact E|]. split; [exact Hbd|]. split; [exact Hw | exact Hew].
  - assert (Hp : Z.pos p < 2 ^ 53) by exact Hb.
    assert (Hm : Z.pos p = Z.pos p * 2 ^ (- 0)) by (rewrite Z.opp_0, Z.pow_0_r; lia).
    destruct (binary_round_of_value true p p 0 Hp (Z.le_refl 0) Hm)
      as (w & ew & Hbd & Hw & Hew & _ & E).
    exists w, ew. split; [exact E|]. split; [exact Hbd|]. split; [exact Hw | exact Hew].
Qed.

Lemma shl_align_value (w : positive) (ew ez : Z) :
  ez <= ew -> Z.pos (fst (shl_align w ew ez)) = Z.pos w * 2 ^ (ew - ez).
Proof.
  intros H. unfold shl_align. destruct (ez - ew) as [|q|q] eqn:E; try lia.
  - cbn [fst]. replace (ew - ez) with 0 by lia. lia.
  - cbn [fst]. rewrite pos_iter_xO. do 2 f_equal. lia.
Qed.

Lemma cond_Zopp_abs (z a : Z) : 0 <= a -> cond_Zopp (z <? 0) (Z.abs z * a) = z * a.
Proof.
  intros Ha. unfold cond_Zopp. destruct (Z.ltb_spec z 0); nia.
Qed.

Lemma SFadd_normal (x k : Z) :
  Z.abs x < 2 ^ 52 -> Z.abs k < 2 ^ 52 ->
  SF64add (normal x) (normal k) = normal (x + k).
Proof.
  intros Hx Hk.
  destruct (Z.eq_dec x 0) as [->|Nx].
  { destruct (Z.eq_dec k 0) as [->|Nk]; [reflexivity|].
    destruct (normal_finite k Nk ltac:(lia)) as (w & ew & E & _).
    rewrite Z.add_0_l, E. reflexivity. }
  destruct (Z.eq_dec k 0) as [->|Nk].
  { destruct (normal_finite x Nx ltac:(lia)) as (w & ew & E & _).
    rewrite Z.add_0_r, E. reflexivity. }
  destruct (normal_finite x Nx ltac:(lia)) as (wx & ex & -> & _ & Hwx & Hex).
  destruct (normal_finite k Nk ltac:(lia)) as (wk & ek & -> & _ & Hwk & Hek).
  unfold SF64add, SFadd. apply normalize_value; [lia | lia |].
  rewrite !shl_align_value by lia. rewrite Hwx, Hwk.
  rewrite <- !Z.mul_assoc, <- !Z.pow_add_r by lia.
  replace (- ex + (ex - Z.min ex ek)) with (- Z.min ex ek) by lia.
  replace (- ek + (ek - Z.min ex ek)) with (- Z.min ex ek) by lia.
  assert (0 <= 2 ^ (- Z.min ex ek)) by (apply Z.pow_nonneg; lia).
  rewrite !cond_Zopp_abs by assumption. lia.
Qed.

Lemma normal_valid (z : Z) : Z.abs z < 2 ^ 53 -> valid_binary (normal z) = true.
Proof.
  intros H. destruct (Z.eq_dec z 0) as [->|N]; [reflexivity|].
  destruct (normal_finite z N H) as (w & ew & -> & Hb & _). exact Hb.
Qed.

Lemma Prim2SF_double_of_Z (z : Z) : Z.abs z < 2 ^ 53 -> Prim2SF (double_of_Z z) = normal z.
Proof. intros H. unfold double_of_Z. apply Prim2SF_SF2Prim. now apply normal_valid. Qed.

(** Adding two integers below [2^52] in magnitude is exact. *)
Lemma double_add_exact (x k : Z) :
  Z.abs x < 2 ^ 52 -> Z.abs k < 2 ^ 52 ->
  (double_of_Z x + double_of_Z k)%float = double_of_Z (x + k).
Proof.
  intros Hx Hk. apply Prim2SF_inj.
  rewrite add_spec, !Prim2SF_double_of_Z by lia. now apply SFadd_normal.
Qed.

Lemma trunc_double_of_Z (z : Z) : Z.abs z < 2 ^ 53 -> trunc_double (double_of_Z z) = Some z.
Proof.
  intros H. unfold trunc_double. rewrite Prim2SF_double_of_Z by assumption.
  destruct (Z.eq_dec z 0) as [->|N]; [reflexivity|].
  destruct (normal_finite z N H) as (w & ew & -> & _ & Hw & Hew).
  assert (Hs : Z.shiftl (Z.pos w) ew = Z.abs z).
  { rewrite <- (Z.opp_involutive ew) at 1.
    rewrite Z.shiftl_opp_r, Z.shiftr_div_pow2, Hw by lia.
    apply Z.div_mul. apply Z.pow_nonzero; lia. }
  cbv zeta. rewrite Hs.
  f_equal. destruct (Z.ltb_spec z 0); lia.
Qed.

(** An integer point moved by an integer offset is converted to their sum. *)
Lemma int_of_double_sum (x k : Z) :
  Z.abs x < 2 ^ 52 -> Z.abs k < 2 ^ 52 ->
  int_of_double (double_of_Z x + double_of_Z k)
  = if in_int (x + k) then Some (x + k) else None.
Proof.
  intros Hx Hk. unfold int_of_double.
  rewrite double_add_exact, trunc_double_of_Z by lia. reflexivity.
Qed.

(** ** The tessellator *)

(** C4, as the specification states it, fails on the arc of property P3:
    the call returns eleven samples, not ten; the first of them is the start
    point of the curve, and the last one, taken at 0.9999999999999999, is
    rounded to its end point. *)
Lemma C4_counterexample :
  option_map (@List.length Point2D)
    (fullQuadraticBezier tessellation_fuel P3_start P3_control P3_end default_increment)
  = Some 11%nat
  /\ option_map (@hd_error Point2D)
       (fullQuadraticBezier tessellation_fuel P3_start P3_control P3_end default_increment)
     = Some (Some P3_start)
  /\ option_map (fun s => last s P3_start)
       (fullQuadraticBezier tessellation_fuel P3_start P3_control P3_end default_increment)
     = Some P3_end.
Proof. repeat split; vm_compute; reflexivity. Qed.

(** C4 (amended): with the default step the tessellator returns, for every
    three points, eleven samples: [quadraticBezier] at the running sums
    [0, 0.1, 0.1 + 0.1, ...] of the step in binary64, in that order.  The
    parameters increase strictly and all are below [1.0]; the first one is
    [0], and the first sample is the start of the curve when the three points
    are finite; twelve tests of the loop condition reach the exit of the
    loop. *)
Theorem C4_default_tessellation (p0 p1 p2 : Point2D) (n : nat) :
  fullQuadraticBezier (12 + n) p0 p1 p2 default_increment
  = Some (map (quadraticBezier p0 p1 p2) default_parameters)
  /\ List.length default_parameters = 11%nat
  /\ hd_error default_parameters = Some 0%float
  /\ increasing default_parameters = true
  /\ forallb (fun t => (t <? 1)%float) default_parameters = true
  /\ (finite_point p0 = true -> finite_point p1 = true -> finite_point p2 = true ->
      same_point (quadraticBezier p0 p1 p2 0) p0 = true).
Proof.
  split; [apply fullQuadraticBezier_default|].
  repeat (split; [vm_compute; reflexivity|]).
  apply quadraticBezier_at_zero.
Qed.

Lemma C4_witness :
  same_point (quadraticBezier P3_start P3_control P3_end 0) P3_start = true.
Proof.
  exact (proj2 (proj2 (proj2 (proj2 (proj2
           (C4_default_tessellation P3_start P3_control P3_end 0)))))
           eq_refl eq_refl eq_refl).
Defined.

(** The call made by [do_outline] returns. *)
Lemma tessellation_returns (p0 p1 p2 : Point2D) :
  fullQuadraticBezier tessellation_fuel p0 p1 p2 default_increment
  = Some (map (quadraticBezier p0 p1 p2) default_parameters).
Proof. exact (fullQuadraticBezier_default p0 p1 p2 4). Qed.

(** ** Empty outlines *)

Lemma svg_path_not_marker (cmds : list PathCommand) (s : string) :
  [Str s] <> svg_path cmds.
Proof.
  unfold svg_path, svg_open. simpl. discriminate.
Qed.

(** C6: when there are no points, or no contours, [do_outline] returns
    (no undefined behaviour, whatever the other arguments) one of the two
    explanatory comments; the comment is not the text of a path, and no
    command is written. *)
Theorem C6_empty_outline (points : list FT_Vector) (tags contours : list Z)
    (offsetX offsetY : float) (gen : bool) (g : globals) :
  points = [] \/ contours = [] ->
  exists marker g',
    do_outline points tags contours offsetX offsetY gen g = Some (marker, g')
    /\ (marker = no_points \/ marker = no_contours)
    /\ (forall cmds, marker <> svg_path cmds)
    /\ outline_commands points tags contours offsetX offsetY gen g = Some [].
Proof.
  intros H. unfold do_outline, outline_commands.
  destruct (size points =? 0) eqn:Hp.
  - eexists _, _. split; [reflexivity|]. split; [now left|].
    split; [intros cmds; apply svg_path_not_marker | reflexivity].
  - destruct H as [-> | ->]; [discriminate Hp|]. simpl.
    eexists _, _. split; [reflexivity|]. split; [now right|].
    split; [intros cmds; apply svg_path_not_marker | reflexivity].
Qed.

Lemma C6_witness :
  exists marker g',
    do_outline [mkFT 3 4] [1] [] 0%float 0%float true quiet = Some (marker, g')
    /\ (marker = no_points \/ marker = no_contours)
    /\ (forall cmds, marker <> svg_path cmds)
    /\ outline_commands [mkFT 3 4] [1] [] 0%float 0%float true quiet = Some [].
Proof. apply C6_empty_outline. right. reflexivity. Defined.

(** ** Purity *)

(** The text [do_outline] returns is the path of the commands it writes. *)
Lemma do_outline_returns (points : list FT_Vector) (tags contours : list Z)
    (offsetX offsetY : float) (gen : bool) (g : globals) :
  option_map fst (do_outline points tags contours offsetX offsetY gen g)
  = if size points =? 0 then Some no_points
    else if size contours =? 0 then Some no_contours
    else option_map svg_path
           (outline_commands points tags contours offsetX offsetY gen g).
Proof.
  unfold do_outline, outline_commands.
  destruct (size points =? 0); [reflexivity|].
  destruct (size contours =? 0); [reflexivity|].
  destruct (for_i _ _ _ _ _ _ _ _) as [[c d]|]; reflexivity.
Qed.

(** C10, as the specification states it, fails: every call writes to the
    standard output, also one on an empty outline with [hasDebug] unset. *)
Lemma C10_counterexample :
  option_map (fun r => cout (snd r))
    (do_outline [] [] [] 0%float 0%float true quiet)
  = Some [Str ("<!-- do outline -->" ++ LF)%string]
  /\ cout quiet = [].
Proof. split; reflexivity. Qed.

(** C10 (amended): the string [do_outline] returns depends on its arguments
    only, not on the process-wide state; a call reads [hasDebug], leaves
    [hasDebug] and the global [debug] stream as they were, and appends to the
    standard output: always the line [<!-- do outline -->], and nothing
    else when [hasDebug] is unset. *)
Theorem C10_state_and_output (points : list FT_Vector) (tags contours : list Z)
    (offsetX offsetY : float) (gen : bool) :
  (forall g1 g2,
     option_map fst (do_outline points tags contours offsetX offsetY gen g1)
     = option_map fst (do_outline points tags contours offsetX offsetY gen g2))
  /\ (forall g,
        match do_outline points tags contours offsetX offsetY gen g with
        | None => True
        | Some (_, g') =>
            debug g' = debug g /\ hasDebug g' = hasDebug g
            /\ exists trace,
                 cout g' = cout g ++ Str ("<!-- do outline -->" ++ LF)%string :: trace
                 /\ (hasDebug g = false -> trace = [])
        end).
Proof.
  split.
  - intros g1 g2. rewrite !do_outline_returns.
    now rewrite (outline_commands_erase _ _ _ _ _ g1 g2).
  - intros g. unfold do_outline.
    destruct (size points =? 0).
    { simpl. repeat split. exists []. split; [reflexivity | auto]. }
    destruct (size contours =? 0).
    { simpl. repeat split. exists []. split; [reflexivity | auto]. }
    destruct (for_i _ _ _ _ _ _ _ _) as [[c d]|]; [|exact I].
    destruct (hasDebug g) eqn:Hd; simpl; rewrite ?Hd.
    + repeat split. eexists. split; [|discriminate].
      rewrite <- app_assoc. reflexivity.
    + repeat split; auto. exists []. split; [reflexivity | auto].
Qed.

(** The string returned for the square is the same with and without the
    debug trace. *)
Lemma C10_witness :
  option_map fst
    (do_outline square_points [1; 1; 1; 1] [3] 0.5%float 0%float true quiet)
  = option_map fst
      (do_outline square_points [1; 1; 1; 1] [3] 0.5%float 0%float true verbose).
Proof.
  exact (proj1 (C10_state_and_output square_points [1; 1; 1; 1] [3] 0.5%float 0%float
                  true) quiet verbose).
Defined.

(** With [hasDebug] set the trace follows on the standard output. *)
Example debug_trace_written :
  option_map (fun r => firstn 3 (cout (snd r)))
    (do_outline square_points [1; 1; 1; 1] [3] 0%float 0%float true verbose)
  = Some [Str ("<!-- do outline -->" ++ LF)%string; Str (LF ++ "<!--" ++ LF)%string;
          Str "new contour starting. startpt index, endpt index:"].
Proof. vm_compute. reflexivity. Qed.

(** ** One iteration of the inner loop *)

Section Iteration.

Variable points : list FT_Vector.
Variable tags : list Z.
Variables offsetX offsetY : float.
Variable gen : bool.
Variable g : globals.
Variables offset npts j : Z.
Variable v : Var.t.
Hypothesis Hread : read_vars points tags offsetX offsetY offset npts j = Some v.

Lemma iteration_read :
  commands (iteration points tags offsetX offsetY gen g offset npts j)
  = match adjacent_ctl g j v with
    | Some (v', moved, _) =>
        match commands (segment gen g v') with
        | Some drawn => Some (moved ++ drawn)
        | None => None
        end
    | None => None
    end.
Proof.
  unfold iteration. rewrite Hread.
  destruct (adjacent_ctl g j v) as [[[v' m] d]|]; [|reflexivity].
  destruct (segment gen g v') as [[c d']|]; reflexivity.
Qed.

Lemma adjacent_ctl_skip :
  Var.this_isctl v && Var.next_isctl v = false ->
  adjacent_ctl g j v = Some (v, [], []).
Proof. intros H. unfold adjacent_ctl. now rewrite H. Qed.

Lemma adjacent_ctl_midpoint :
  Var.this_isctl v = true -> Var.next_isctl v = true ->
  in_int (Var.x v + Var.nx v) = true -> in_int (Var.y v + Var.ny v) = true ->
  option_map fst (adjacent_ctl g j v)
  = Some (Var.set_xy v (midpoint (Var.x v) (Var.nx v)) (midpoint (Var.y v) (Var.ny v)),
          if j =? 0
          then [MoveTo (midpoint (Var.x v) (Var.nx v)) (midpoint (Var.y v) (Var.ny v))]
          else []).
Proof.
  intros Ht Hn Hx Hy. unfold adjacent_ctl, int_add.
  rewrite Ht, Hn, Hx, Hy. reflexivity.
Qed.

Lemma curve_commands (w : Var.t) (ex ey : Z) :
  commands (curve gen g w ex ey)
  = Some (if gen then [QuadCurveTo (Var.nx w) (Var.ny w) ex ey]
          else svgQuadraticBezier
                 (map (quadraticBezier (Point2D_of_int (Var.x w) (Var.y w))
                         (Point2D_of_int (Var.nx w) (Var.ny w))
                         (Point2D_of_int ex ey))
                      default_parameters)).
Proof.
  unfold curve. destruct gen; [reflexivity|].
  rewrite tessellation_returns. reflexivity.
Qed.

Lemma iteration_on_off_on :
  Var.this_isctl v = false -> Var.next_isctl v = true ->
  Var.nextnext_isctl v = false ->
  commands (iteration points tags offsetX offsetY gen g offset npts j)
  = commands (curve gen g v (Var.nnx v) (Var.nny v)).
Proof.
  intros Ht Hn Hnn. rewrite iteration_read, adjacent_ctl_skip by now rewrite Ht.
  unfold segment. rewrite Ht, Hn, Hnn. simpl.
  destruct (commands (curve gen g v _ _)); reflexivity.
Qed.

Lemma iteration_on_off_off :
  Var.this_isctl v = false -> Var.next_isctl v = true ->
  Var.nextnext_isctl v = true ->
  in_int (Var.nx v + Var.nnx v) = true -> in_int (Var.ny v + Var.nny v) = true ->
  commands (iteration points tags offsetX offsetY gen g offset npts j)
  = commands (curve gen g v (midpoint (Var.nx v) (Var.nnx v))
                (midpoint (Var.ny v) (Var.nny v))).
Proof.
  intros Ht Hn Hnn Hx Hy. rewrite iteration_read, adjacent_ctl_skip by now rewrite Ht.
  unfold segment, int_add. rewrite Ht, Hn, Hnn, Hx, Hy. simpl.
  fold (midpoint (Var.nx v) (Var.nnx v)) (midpoint (Var.ny v) (Var.nny v)).
  destruct (curve gen g v _ _) as [[c d]|]; reflexivity.
Qed.

Lemma iteration_on_on :
  Var.this_isctl v = false -> Var.next_isctl v = false ->
  commands (iteration points tags offsetX offsetY gen g offset npts j)
  = Some [LineTo (Var.nx v) (Var.ny v)].
Proof.
  intros Ht Hn. rewrite iteration_read, adjacent_ctl_skip by now rewrite Ht.
  unfold segment. rewrite Ht, Hn. reflexivity.
Qed.

Lemma iteration_off_on :
  Var.this_isctl v = true -> Var.next_isctl v = false ->
  commands (iteration points tags offsetX offsetY gen g offset npts j) = Some [].
Proof.
  intros Ht Hn. rewrite iteration_read, adjacent_ctl_skip by now rewrite Ht, Hn.
  unfold segment. rewrite Ht, Hn. reflexivity.
Qed.

Lemma iteration_off_off :
  Var.this_isctl v = true -> Var.next_isctl v = true ->
  in_int (Var.x v + Var.nx v) = true -> in_int (Var.y v + Var.ny v) = true ->
  commands (iteration points tags offsetX offsetY gen g offset npts j)
  = match commands (segment gen g
                      (Var.set_xy v (midpoint (Var.x v) (Var.nx v))
                         (midpoint (Var.y v) (Var.ny v)))) with
    | Some drawn =>
        Some ((if j =? 0
               then [MoveTo (midpoint (Var.x v) (Var.nx v)) (midpoint (Var.y v) (Var.ny v))]
               else []) ++ drawn)
    | None => None
    end.
Proof.
  intros Ht Hn Hx Hy. rewrite iteration_read.
  pose proof (adjacent_ctl_midpoint Ht Hn Hx Hy) as H.
  destruct (adjacent_ctl g j v) as [[[v' m] d]|]; [|discriminate].
  simpl in H. injection H as -> ->. reflexivity.
Qed.

End Iteration.

(** C2, as the specification states it, fails on its own example: after the
    curve the loop meets the last point followed (cyclically) by the first,
    both on the curve, and draws the line back to the first point. *)
Lemma C2_counterexample :
  option_map (map kind)
    (outline_commands P2_points P2_tags [2] 0%float 0%float true quiet)
  = Some [KMove; KQuad; KLine; KClose]
  /\ [KMove; KQuad; KLine; KClose] <> [KMove; KQuad; KClose].
Proof. split; [vm_compute; reflexivity | discriminate]. Qed.

(** C2 (amended): an iteration whose point is on the curve, whose next point
    is a control point and whose point after that is on the curve writes one
    [QuadCurveTo] with control [next] and end [nextnext] when
    [generateBezierStatements] is set, and otherwise one line per sample of
    the tessellated arc (this, next, nextnext).  The contour
    [on(0,0), off(10,0), on(20,0)] at offset (0,0), with curve statements,
    yields [MoveTo(0,0); QuadCurveTo(10,0,20,0); LineTo(0,0); ClosePath]. *)
Theorem C2_curve_segment :
  (forall points tags offsetX offsetY gen g offset npts j v,
     read_vars points tags offsetX offsetY offset npts j = Some v ->
     Var.this_isctl v = false -> Var.next_isctl v = true ->
     Var.nextnext_isctl v = false ->
     commands (iteration points tags offsetX offsetY gen g offset npts j)
     = Some (if gen
             then [QuadCurveTo (Var.nx v) (Var.ny v) (Var.nnx v) (Var.nny v)]
             else svgQuadraticBezier
                    (map (quadraticBezier (Point2D_of_int (Var.x v) (Var.y v))
                            (Point2D_of_int (Var.nx v) (Var.ny v))
                            (Point2D_of_int (Var.nnx v) (Var.nny v)))
                       default_parameters)))
  /\ (forall g,
        outline_commands P2_points P2_tags [2] 0%float 0%float true g
        = Some [MoveToD 0 0; QuadCurveTo 10 0 20 0; LineTo 0 0; ClosePath]).
Proof.
  split.
  - intros points tags offsetX offsetY gen g offset npts j v Hread Ht Hn Hnn.
    rewrite (iteration_on_off_on _ _ _ _ gen g _ _ _ _ Hread Ht Hn Hnn).
    apply curve_commands.
  - intros g. rewrite (outline_commands_erase _ _ _ _ _ g quiet).
    vm_compute. reflexivity.
Qed.

Lemma C2_witness :
  commands (iteration P2_points P2_tags 0%float 0%float true quiet 0 3 0)
  = Some [QuadCurveTo 10 0 20 0]
  /\ commands (iteration P2_points P2_tags 0%float 0%float false quiet 0 3 0)
     = Some (svgQuadraticBezier
               (map (quadraticBezier P3_start P3_control P3_end) default_parameters)).
Proof.
  split.
  - exact (proj1 C2_curve_segment P2_points P2_tags 0%float 0%float true quiet 0 3 0
             _ eq_refl eq_refl eq_refl eq_refl).
  - exact (proj1 C2_curve_segment P2_points P2_tags 0%float 0%float false quiet 0 3 0
             _ eq_refl eq_refl eq_refl eq_refl).
Defined.

(** C3: two consecutive control points imply a point halfway between them,
    the truncated average of their (truncated) coordinates, which the
    iteration then treats as a point on the curve.  When this point and the
    next are control points, [x] and [y] become the midpoint and
    [this_isctl] is cleared before the iteration decides what to draw, and
    for [j = 0] a [MoveTo] at the midpoint is written first.  When this point
    is on the curve and the next two are control points, the curve drawn has
    control [next] and ends at the midpoint of [next] and [nextnext]. *)
Theorem C3_synthesized_midpoints points tags offsetX offsetY gen g offset npts j v :
  read_vars points tags offsetX offsetY offset npts j = Some v ->
  (Var.this_isctl v = true -> Var.next_isctl v = true ->
   in_int (Var.x v + Var.nx v) = true -> in_int (Var.y v + Var.ny v) = true ->
   Var.this_isctl (Var.set_xy v (midpoint (Var.x v) (Var.nx v))
                     (midpoint (Var.y v) (Var.ny v))) = false
   /\ Var.x (Var.set_xy v (midpoint (Var.x v) (Var.nx v))
               (midpoint (Var.y v) (Var.ny v))) = midpoint (Var.x v) (Var.nx v)
   /\ Var.y (Var.set_xy v (midpoint (Var.x v) (Var.nx v))
               (midpoint (Var.y v) (Var.ny v))) = midpoint (Var.y v) (Var.ny v)
   /\ commands (iteration points tags offsetX offsetY gen g offset npts j)
      = match commands (segment gen g
                          (Var.set_xy v (midpoint (Var.x v) (Var.nx v))
                             (midpoint (Var.y v) (Var.ny v)))) with
        | Some drawn =>
            Some ((if j =? 0
                   then [MoveTo (midpoint (Var.x v) (Var.nx v))
                           (midpoint (Var.y v) (Var.ny v))]
                   else []) ++ drawn)
        | None => None
        end)
  /\ (Var.this_isctl v = false -> Var.next_isctl v = true ->
      Var.nextnext_isctl v = true ->
      in_int (Var.nx v + Var.nnx v) = true -> in_int (Var.ny v + Var.nny v) = true ->
      commands (iteration points tags offsetX offsetY gen g offset npts j)
      = Some (if gen
              then [QuadCurveTo (Var.nx v) (Var.ny v)
                      (midpoint (Var.nx v) (Var.nnx v))
                      (midpoint (Var.ny v) (Var.nny v))]
              else svgQuadraticBezier
                     (map (quadraticBezier (Point2D_of_int (Var.x v) (Var.y v))
                             (Point2D_of_int (Var.nx v) (Var.ny v))
                             (Point2D_of_int (midpoint (Var.nx v) (Var.nnx v))
                                (midpoint (Var.ny v) (Var.nny v))))
                        default_parameters))).
Proof.
  intros Hread. split.
  - intros Ht Hn Hx Hy. repeat (split; [reflexivity|]).
    exact (iteration_off_off _ _ _ _ gen g _ _ _ _ Hread Ht Hn Hx Hy).
  - intros Ht Hn Hnn Hx Hy.
    rewrite (iteration_on_off_off _ _ _ _ gen g _ _ _ _ Hread Ht Hn Hnn Hx Hy).
    apply curve_commands.
Qed.

(** On the contour of property P4: the iteration at the first point ends
    its curve at the midpoint (15,5); the iteration at the first control
    point starts from that midpoint. *)
Lemma C3_witness :
  commands (iteration P4_points P4_tags 0%float 0%float true quiet 0 4 0)
  = Some [QuadCurveTo 10 10 15 5]
  /\ commands (iteration P4_points P4_tags 0%float 0%float true quiet 0 4 1)
     = Some [QuadCurveTo 20 0 30 0].
Proof.
  split.
  - exact (proj2 (C3_synthesized_midpoints P4_points P4_tags 0%float 0%float true
                    quiet 0 4 0 _ eq_refl) eq_refl eq_refl eq_refl eq_refl eq_refl).
  - exact (proj2 (proj2 (proj2 (proj1 (C3_synthesized_midpoints P4_points P4_tags
                                         0%float 0%float true quiet 0 4 1 _ eq_refl)
                                  eq_refl eq_refl eq_refl eq_refl)))).
Defined.

(** A contour that starts with two control points: the midpoint (5,0) is
    moved to before the first curve is drawn. *)
Example leading_control_points :
  outline_commands [mkFT 0 0; mkFT 10 0; mkFT 10 10] [0; 0; 1] [2]
    0%float 0%float true quiet
  = Some [MoveToD 0 0; MoveTo 5 0; QuadCurveTo 10 0 10 10; QuadCurveTo 0 0 5 0;
          ClosePath].
Proof. vm_compute. reflexivity. Qed.

(** ** The loops, on commands *)

Lemma last_cons_default {A : Type} (l : list A) : forall (a d d' : A),
  last (a :: l) d = last (a :: l) d'.
Proof.
  induction l as [|b l IH]; intros a d d'; [reflexivity|].
  change (last (b :: l) d = last (b :: l) d'). apply IH.
Qed.

Section Loops.

Variable points : list FT_Vector.
Variable tags : list Z.
Variables offsetX offsetY : float.
Variable gen : bool.
Variable g : globals.

Lemma for_j_step offset npts n j :
  commands (for_j points tags offsetX offsetY gen g offset npts (S n) j)
  = then_ (commands (iteration points tags offsetX offsetY gen g offset npts j))
      (commands (for_j points tags offsetX offsetY gen g offset npts n (j + 1))).
Proof.
  simpl. destruct (iteration _ _ _ _ _ _ _ _ _) as [[c d]|]; [|reflexivity].
  destruct (for_j _ _ _ _ _ _ _ _ _ _) as [[c' d']|]; reflexivity.
Qed.

Lemma for_i_step e rest s :
  commands (for_i points tags offsetX offsetY gen g (e :: rest) s)
  = then_ (commands (contour points tags offsetX offsetY gen g s e))
      (commands (for_i points tags offsetX offsetY gen g rest (e + 1))).
Proof.
  simpl. destruct (contour _ _ _ _ _ _ _ _) as [[c d]|]; [|reflexivity].
  destruct (for_i _ _ _ _ _ _ _ _) as [[c' d']|]; reflexivity.
Qed.

Lemma contour_commands s e :
  commands (contour points tags offsetX offsetY gen g s e)
  = match index points s with
    | Some first =>
        option_map
          (fun cmds =>
             MoveToD (double_of_Z (FT_x first) + offsetX)
               (double_of_Z (FT_y first) + offsetY) :: cmds ++ [ClosePath])
          (commands (for_j points tags offsetX offsetY gen g s (e - s + 1)
                       (Z.to_nat (e - s + 1)) 0))
    | None => None
    end.
Proof.
  unfold contour. destruct (index points s) as [p|]; [|reflexivity].
  destruct (for_j _ _ _ _ _ _ _ _ _ _) as [[c d]|]; reflexivity.
Qed.

Lemma for_i_app (c1 c2 : list Z) : forall s,
  commands (for_i points tags offsetX offsetY gen g (c1 ++ c2) s)
  = then_ (commands (for_i points tags offsetX offsetY gen g c1 s))
      (commands (for_i points tags offsetX offsetY gen g c2 (last (map Z.succ c1) s))).
Proof.
  induction c1 as [|e rest IH]; intros s.
  - simpl. destruct (for_i _ _ _ _ _ _ c2 s) as [[c d]|]; reflexivity.
  - rewrite <- app_comm_cons, !for_i_step, IH.
    replace (last (map Z.succ (e :: rest)) s) with (last (map Z.succ rest) (e + 1)).
    + destruct (commands (contour _ _ _ _ _ _ _ _)) as [a|]; [|reflexivity].
      destruct (commands (for_i _ _ _ _ _ _ rest _)) as [b|]; [|reflexivity].
      destruct (commands (for_i _ _ _ _ _ _ c2 _)) as [c|]; [|reflexivity].
      simpl. now rewrite app_assoc.
    + destruct rest as [|e' rest]; [reflexivity|].
      cbn [map]. change (last (Z.succ e :: Z.succ e' :: map Z.succ rest) s)
        with (last (Z.succ e' :: map Z.succ rest) s).
      apply last_cons_default.
Qed.

End Loops.

(** ** Vectors *)

Lemma index_app_l {A : Type} (a b : list A) (i : Z) :
  i < size a -> index (a ++ b) i = index a i.
Proof.
  unfold index, size. intros H. destruct (i <? 0) eqn:E; [reflexivity|].
  apply nth_error_app1. lia.
Qed.

Lemma index_app_r {A : Type} (a b : list A) (i : Z) :
  0 <= i -> index (a ++ b) (i + size a) = index b i.
Proof.
  unfold index, size. intros H.
  destruct (Z.ltb_spec i 0) as [E|E]; [lia|].
  destruct (Z.ltb_spec (i + Z.of_nat (List.length a)) 0) as [E2|E2]; [lia|].
  rewrite nth_error_app2 by lia. f_equal. lia.
Qed.

Lemma index_In {A : Type} (v : list A) (i : Z) (a : A) :
  index v i = Some a -> In a v.
Proof.
  unfold index. destruct (i <? 0); [discriminate|]. apply nth_error_In.
Qed.

Lemma index_Some {A : Type} (v : list A) (i : Z) :
  0 <= i < size v -> exists a, index v i = Some a.
Proof.
  unfold index, size. intros H. destruct (Z.ltb_spec i 0) as [E|E]; [lia|].
  destruct (nth_error v (Z.to_nat i)) as [a|] eqn:Hn; [now exists a|].
  apply nth_error_None in Hn. lia.
Qed.

Lemma int_mod_range (j n : Z) : 0 <= j -> 0 < n -> 0 <= int_mod j n < n.
Proof. intros. unfold int_mod. apply Z.rem_bound_pos; lia. Qed.

(** ** Well-formed outlines *)

Lemma contours_ok_last (contours : list Z) (n : Z) : forall start,
  contours_ok contours start n = true -> last (map Z.succ contours) start = n.
Proof.
  induction contours as [|e rest IH]; intros start H; simpl in H.
  - apply Z.eqb_eq in H. exact H.
  - apply andb_prop in H as [_ H]. specialize (IH _ H).
    destruct rest as [|e' rest]; [exact IH|].
    cbn [map]. cbn [map] in IH.
    change (last (Z.succ e' :: map Z.succ rest) start = n).
    now rewrite (last_cons_default _ _ start (e + 1)).
Qed.

Lemma contours_ok_nonempty (contours : list Z) (n : Z) :
  contours_ok contours 0 n = true -> 0 < n -> contours <> [].
Proof.
  intros H Hn ->. cbn [contours_ok] in H. apply Z.eqb_eq in H. lia.
Qed.

Lemma contours_ok_empty (contours : list Z) : forall start,
  0 <= start -> contours_ok contours start 0 = true -> contours = [].
Proof.
  destruct contours as [|e rest]; intros start Hs H; [reflexivity|].
  simpl in H. apply andb_prop in H as [H _]. apply andb_prop in H as [H1 H2].
  apply Z.leb_le in H1. apply Z.ltb_lt in H2. lia.
Qed.

(** ** Outlines side by side *)

Section Append.

Variables pa pb : list FT_Vector.
Variables ta tb : list Z.
Variables offsetX offsetY : float.
Variable gen : bool.
Variable g : globals.
Hypothesis Htags : size ta = size pa.

Lemma read_vars_app_l s n j :
  0 <= j -> 0 < n -> s + n <= size pa ->
  read_vars (pa ++ pb) (ta ++ tb) offsetX offsetY s n j
  = read_vars pa ta offsetX offsetY s n j.
Proof.
  intros Hj Hn Hs. unfold read_vars.
  pose proof (int_mod_range j n Hj Hn).
  pose proof (int_mod_range (j + 1) n ltac:(lia) Hn).
  pose proof (int_mod_range (j + 2) n ltac:(lia) Hn).
  rewrite !(index_app_l pa pb) by lia.
  rewrite !(index_app_l ta tb) by lia.
  reflexivity.
Qed.

Lemma for_j_app_l s n k : forall j,
  0 <= j -> 0 < n -> s + n <= size pa ->
  for_j (pa ++ pb) (ta ++ tb) offsetX offsetY gen g s n k j
  = for_j pa ta offsetX offsetY gen g s n k j.
Proof.
  induction k as [|k IH]; intros j Hj Hn Hs; [reflexivity|].
  simpl. unfold iteration. rewrite read_vars_app_l by assumption.
  rewrite IH by lia. reflexivity.
Qed.

Lemma contour_app_l s e :
  s <= e -> e < size pa ->
  contour (pa ++ pb) (ta ++ tb) offsetX offsetY gen g s e
  = contour pa ta offsetX offsetY gen g s e.
Proof.
  intros Hse He. unfold contour.
  rewrite index_app_l by lia. rewrite for_j_app_l by lia. reflexivity.
Qed.

Lemma for_i_app_l contours : forall s,
  contours_ok contours s (size pa) = true ->
  for_i (pa ++ pb) (ta ++ tb) offsetX offsetY gen g contours s
  = for_i pa ta offsetX offsetY gen g contours s.
Proof.
  induction contours as [|e rest IH]; intros s H; [reflexivity|].
  simpl in H. apply andb_prop in H as [H H3]. apply andb_prop in H as [H1 H2].
  apply Z.leb_le in H1. apply Z.ltb_lt in H2.
  simpl. rewrite contour_app_l by lia. rewrite IH by assumption. reflexivity.
Qed.

Lemma read_vars_app_r s n j :
  0 <= j -> 0 < n -> 0 <= s ->
  read_vars (pa ++ pb) (ta ++ tb) offsetX offsetY (s + size pa) n j
  = option_map (shift_indices (size pa)) (read_vars pb tb offsetX offsetY s n j).
Proof.
  intros Hj Hn Hs. unfold read_vars.
  pose proof (int_mod_range j n Hj Hn).
  pose proof (int_mod_range (j + 1) n ltac:(lia) Hn).
  pose proof (int_mod_range (j + 2) n ltac:(lia) Hn).
  rewrite !Z.add_assoc.
  rewrite !(index_app_r pa pb) by lia.
  rewrite <- Htags. rewrite !(index_app_r ta tb) by lia.
  repeat match goal with
         | |- context [match ?e with Some _ => _ | None => _ end] =>
             destruct e; try reflexivity
         end.
Qed.

Lemma curve_shift k v ex ey :
  commands (curve gen g (shift_indices k v) ex ey) = commands (curve gen g v ex ey).
Proof. rewrite !curve_commands. reflexivity. Qed.

Lemma segment_shift k v :
  commands (segment gen g (shift_indices k v)) = commands (segment gen g v).
Proof.
  unfold segment. cbn [shift_indices Var.this_isctl Var.next_isctl Var.nextnext_isctl
                        Var.nx Var.ny Var.nnx Var.nny].
  destruct (negb (Var.this_isctl v) && Var.next_isctl v && negb (Var.nextnext_isctl v)).
  { apply curve_shift. }
  destruct (negb (Var.this_isctl v) && Var.next_isctl v && Var.nextnext_isctl v).
  { destruct (int_add (Var.nx v) (Var.nnx v)) as [sx|]; [|reflexivity].
    destruct (int_add (Var.ny v) (Var.nny v)) as [sy|]; [|reflexivity].
    pose proof (curve_shift k v (int_div sx 2) (int_div sy 2)) as H.
    destruct (curve gen g (shift_indices k v) _ _) as [[c d]|],
             (curve gen g v _ _) as [[c' d']|]; simpl in *; congruence. }
  destruct (negb (Var.this_isctl v) && negb (Var.next_isctl v)); [reflexivity|].
  destruct (Var.this_isctl v && negb (Var.next_isctl v)); reflexivity.
Qed.

Lemma iteration_app_r s n j :
  0 <= j -> 0 < n -> 0 <= s ->
  commands (iteration (pa ++ pb) (ta ++ tb) offsetX offsetY gen g (s + size pa) n j)
  = commands (iteration pb tb offsetX offsetY gen g s n j).
Proof.
  intros Hj Hn Hs. unfold iteration. rewrite read_vars_app_r by assumption.
  destruct (read_vars pb tb offsetX offsetY s n j) as [v|]; [|reflexivity].
  cbn [option_map]. unfold adjacent_ctl.
  cbn [shift_indices Var.this_isctl Var.next_isctl Var.x Var.y Var.nx Var.ny].
  destruct (Var.this_isctl v && Var.next_isctl v).
  - destruct (int_add (Var.x v) (Var.nx v)) as [sx|]; [|reflexivity].
    destruct (int_add (Var.y v) (Var.ny v)) as [sy|]; [|reflexivity].
    pose proof (segment_shift (size pa) (Var.set_xy v (int_div sx 2) (int_div sy 2))) as H.
    change (Var.set_xy (shift_indices (size pa) v) (int_div sx 2) (int_div sy 2))
      with (shift_indices (size pa) (Var.set_xy v (int_div sx 2) (int_div sy 2))).
    destruct (segment gen g (shift_indices _ _)) as [[c d]|],
             (segment gen g (Var.set_xy v _ _)) as [[c' d']|]; simpl in *; congruence.
  - pose proof (segment_shift (size pa) v) as H.
    destruct (segment gen g (shift_indices _ _)) as [[c d]|],
             (segment gen g v) as [[c' d']|]; simpl in *; congruence.
Qed.

Lemma for_j_app_r s n k : forall j,
  0 <= j -> 0 < n -> 0 <= s ->
  commands (for_j (pa ++ pb) (ta ++ tb) offsetX offsetY gen g (s + size pa) n k j)
  = commands (for_j pb tb offsetX offsetY gen g s n k j).
Proof.
  induction k as [|k IH]; intros j Hj Hn Hs; [reflexivity|].
  rewrite !for_j_step, iteration_app_r, IH by lia. reflexivity.
Qed.

Lemma contour_app_r s e :
  0 <= s -> s <= e ->
  commands (contour (pa ++ pb) (ta ++ tb) offsetX offsetY gen g
              (s + size pa) (e + size pa))
  = commands (contour pb tb offsetX offsetY gen g s e).
Proof.
  intros Hs Hse. rewrite !contour_commands.
  rewrite index_app_r by lia.
  replace (e + size pa - (s + size pa) + 1) with (e - s + 1) by lia.
  rewrite for_j_app_r by lia. reflexivity.
Qed.

Lemma for_i_app_r contours n : forall s,
  0 <= s -> contours_ok contours s n = true ->
  commands (for_i (pa ++ pb) (ta ++ tb) offsetX offsetY gen g
              (map (fun e => e + size pa) contours) (s + size pa))
  = commands (for_i pb tb offsetX offsetY gen g contours s).
Proof.
  induction contours as [|e rest IH]; intros s Hs H; [reflexivity|].
  simpl in H. apply andb_prop in H as [H H3]. apply andb_prop in H as [H1 H2].
  apply Z.leb_le in H1.
  cbn [map]. rewrite !for_i_step, contour_app_r by lia.
  replace (e + size pa + 1) with (e + 1 + size pa) by lia.
  rewrite IH by (assumption || lia). reflexivity.
Qed.

End Append.

Lemma size_nil_inv {A : Type} (v : list A) : size v = 0 -> v = [].
Proof. destruct v; [reflexivity|]. unfold size. simpl. lia. Qed.

Lemma size_app {A : Type} (a b : list A) : size (a ++ b) = size a + size b.
Proof. unfold size. rewrite length_app. lia. Qed.

Lemma size_nonneg {A : Type} (v : list A) : 0 <= size v.
Proof. unfold size. lia. Qed.

Lemma then_nil_l (a : option (list PathCommand)) : then_ (Some []) a = a.
Proof. destruct a; reflexivity. Qed.

Lemma then_nil_r (a : option (list PathCommand)) : then_ a (Some []) = a.
Proof. destruct a; [simpl; now rewrite app_nil_r | reflexivity]. Qed.

(** On a well-formed outline with at least one point the early returns are
    not taken. *)
Lemma outline_commands_nonempty points tags contours offsetX offsetY gen g :
  well_formed points tags contours = true -> 0 < size points ->
  outline_commands points tags contours offsetX offsetY gen g
  = commands (for_i points tags offsetX offsetY gen g contours 0).
Proof.
  intros H Hn. unfold well_formed in H. apply andb_prop in H as [_ H].
  pose proof (contours_ok_nonempty _ _ H Hn) as Hc.
  unfold outline_commands.
  destruct (Z.eqb_spec (size points) 0) as [E|_]; [lia|].
  destruct (Z.eqb_spec (size contours) 0) as [E|_]; [|reflexivity].
  now apply size_nil_inv in E.
Qed.

(** C9: for two well-formed outlines, the outline made of the points and
    tags of the first followed by those of the second, with the contours of
    the second moved by the number of points of the first, is drawn as the
    commands of the first followed by the commands of the second. *)
Theorem C9_contour_independence
    (pa : list FT_Vector) (ta ca : list Z) (pb : list FT_Vector) (tb cb : list Z)
    (offsetX offsetY : float) (gen : bool) (g : globals) :
  well_formed pa ta ca = true ->
  well_formed pb tb cb = true ->
  outline_commands (pa ++ pb) (ta ++ tb) (ca ++ map (fun e => e + size pa) cb)
    offsetX offsetY gen g
  = then_ (outline_commands pa ta ca offsetX offsetY gen g)
      (outline_commands pb tb cb offsetX offsetY gen g).
Proof.
  intros Ha Hb.
  pose proof Ha as Ha'. pose proof Hb as Hb'.
  unfold well_formed in Ha', Hb'.
  apply andb_prop in Ha' as [Hta Hca]. apply andb_prop in Hb' as [Htb Hcb].
  apply Z.eqb_eq in Hta. apply Z.eqb_eq in Htb.
  destruct (Z.eq_dec (size pa) 0) as [Ea|Ea].
  { (* the first outline is empty *)
    pose proof (size_nil_inv _ Ea) as ->. rewrite Ea in *.
    pose proof (size_nil_inv _ Hta) as ->.
    pose proof (contours_ok_empty _ 0 ltac:(lia) Hca) as ->.
    cbn [app]. rewrite (map_ext _ (fun e => e) (fun e => Z.add_0_r e)), map_id.
    change (outline_commands [] [] [] offsetX offsetY gen g) with (Some (@nil PathCommand)).
    now rewrite then_nil_l. }
  destruct (Z.eq_dec (size pb) 0) as [Eb|Eb].
  { (* the second outline is empty *)
    pose proof (size_nil_inv _ Eb) as ->. rewrite Eb in *.
    pose proof (size_nil_inv _ Htb) as ->.
    pose proof (contours_ok_empty _ 0 ltac:(lia) Hcb) as ->.
    cbn [map]. rewrite !app_nil_r.
    change (outline_commands [] [] [] offsetX offsetY gen g) with (Some (@nil PathCommand)).
    now rewrite then_nil_r. }
  pose proof (size_nonneg pa). pose proof (size_nonneg pb).
  rewrite (outline_commands_nonempty pa) by (assumption || lia).
  rewrite (outline_commands_nonempty pb) by (assumption || lia).
  unfold outline_commands.
  destruct (Z.eqb_spec (size (pa ++ pb)) 0) as [E|_]; [rewrite size_app in E; lia|].
  destruct (Z.eqb_spec (size (ca ++ map (fun e => e + size pa) cb)) 0) as [E|_].
  { apply size_nil_inv in E. apply app_eq_nil in E as [-> _].
    exfalso. apply (contours_ok_nonempty [] (size pa)); [assumption | lia | reflexivity]. }
  change (option_map fst ?r) with (commands r).
  rewrite for_i_app, (contours_ok_last _ _ _ Hca).
  rewrite for_i_app_l by assumption.
  change (size pa) with (0 + size pa) at 2.
  rewrite (for_i_app_r pa pb ta tb offsetX offsetY gen g Hta cb (size pb)) by (assumption || lia).
  reflexivity.
Qed.

Lemma C9_witness :
  outline_commands (P2_points ++ P4_points) (P2_tags ++ P4_tags) [2; 6]
    0%float 0%float true quiet
  = Some ([MoveToD 0 0; QuadCurveTo 10 0 20 0; LineTo 0 0; ClosePath]
          ++ [MoveToD 0 0; QuadCurveTo 10 10 15 5; QuadCurveTo 20 0 30 0;
              LineTo 0 0; ClosePath]).
Proof.
  exact (C9_contour_independence P2_points P2_tags [2] P4_points P4_tags [3]
           0%float 0%float true quiet eq_refl eq_refl).
Defined.

(** ** Where the coordinates come from *)

Section Placement.

Variable points : list FT_Vector.
Variable tags : list Z.
Variables offsetX offsetY : float.
Variable gen : bool.
Variable g : globals.

Lemma read_vars_at_point offset npts j v :
  read_vars points tags offsetX offsetY offset npts j = Some v ->
  at_point points offsetX offsetY (Var.x v) (Var.y v) /\ at_point points offsetX offsetY (Var.nx v) (Var.ny v)
  /\ at_point points offsetX offsetY (Var.nnx v) (Var.nny v).
Proof.
  unfold read_vars.
  destruct (index points (int_mod j npts + offset)) as [p|] eqn:Hp; [|discriminate].
  destruct (coordX offsetX p) as [x|] eqn:Hx; [|discriminate].
  destruct (coordY offsetY p) as [y|] eqn:Hy; [|discriminate].
  destruct (index points (int_mod (j + 1) npts + offset)) as [np|] eqn:Hnp; [|discriminate].
  destruct (coordX offsetX np) as [nx|] eqn:Hnx; [|discriminate].
  destruct (coordY offsetY np) as [ny|] eqn:Hny; [|discriminate].
  destruct (index points (int_mod (j + 2) npts + offset)) as [nnp|] eqn:Hnnp; [|discriminate].
  destruct (coordX offsetX nnp) as [nnx|] eqn:Hnnx; [|discriminate].
  destruct (coordY offsetY nnp) as [nny|] eqn:Hnny; [|discriminate].
  destruct (index tags (int_mod j npts + offset)) as [t1|]; [|discriminate].
  destruct (index tags (int_mod (j + 1) npts + offset)) as [t2|]; [|discriminate].
  destruct (index tags (int_mod (j + 2) npts + offset)) as [t3|]; [|discriminate].
  intros [= <-]. cbn [Var.x Var.y Var.nx Var.ny Var.nnx Var.nny].
  split; [|split]; [exists p | exists np | exists nnp];
    (split; [eapply index_In; eassumption | split; assumption]).
Qed.

Lemma curve_placed v ex ey cmds :
  on_grid points offsetX offsetY (Var.x v) (Var.y v) -> at_point points offsetX offsetY (Var.nx v) (Var.ny v) -> on_grid points offsetX offsetY ex ey ->
  commands (curve gen g v ex ey) = Some cmds -> Forall (placed points offsetX offsetY) cmds.
Proof.
  intros Hx Hn He. rewrite curve_commands. intros H.
  assert (H' := f_equal (fun o => match o with Some c => c | None => cmds end) H).
  cbv beta iota in H'. subst cmds. clear H.
  destruct gen.
  - constructor; [|constructor]. split; assumption.
  - unfold svgQuadraticBezier. rewrite map_map. apply Forall_forall.
    intros c Hc. apply in_map_iff in Hc as [t [<- Ht]].
    exists (Var.x v), (Var.y v), (Var.nx v), (Var.ny v), ex, ey, t.
    repeat split; assumption.
Qed.

Lemma segment_placed v cmds :
  on_grid points offsetX offsetY (Var.x v) (Var.y v) -> at_point points offsetX offsetY (Var.nx v) (Var.ny v) ->
  at_point points offsetX offsetY (Var.nnx v) (Var.nny v) ->
  commands (segment gen g v) = Some cmds -> Forall (placed points offsetX offsetY) cmds.
Proof.
  intros Hx Hn Hnn. unfold segment.
  destruct (negb (Var.this_isctl v) && Var.next_isctl v && negb (Var.nextnext_isctl v)).
  { apply curve_placed; [assumption | assumption | now left]. }
  destruct (negb (Var.this_isctl v) && Var.next_isctl v && Var.nextnext_isctl v).
  { unfold int_add.
    destruct (in_int (Var.nx v + Var.nnx v)); [|discriminate].
    destruct (in_int (Var.ny v + Var.nny v)); [|discriminate].
    fold (midpoint (Var.nx v) (Var.nnx v)) (midpoint (Var.ny v) (Var.nny v)).
    intros H. apply (curve_placed v (midpoint (Var.nx v) (Var.nnx v))
                       (midpoint (Var.ny v) (Var.nny v))); try assumption.
    - right. exists (Var.nx v), (Var.ny v), (Var.nnx v), (Var.nny v). now repeat split.
    - destruct (curve gen g v _ _) as [[c d]|]; [exact H | discriminate H]. }
  destruct (negb (Var.this_isctl v) && negb (Var.next_isctl v)).
  { intros [= <-]. constructor; [exact Hn | constructor]. }
  destruct (Var.this_isctl v && negb (Var.next_isctl v)); intros [= <-]; constructor.
Qed.

Lemma iteration_placed offset npts j cmds :
  commands (iteration points tags offsetX offsetY gen g offset npts j) = Some cmds ->
  Forall (placed points offsetX offsetY) cmds.
Proof.
  unfold iteration.
  destruct (read_vars _ _ _ _ _ _ _) as [v|] eqn:Hread; [|discriminate].
  apply read_vars_at_point in Hread as (Hx & Hn & Hnn).
  unfold adjacent_ctl.
  destruct (Var.this_isctl v && Var.next_isctl v).
  - unfold int_add.
    destruct (in_int (Var.x v + Var.nx v)); [|discriminate].
    destruct (in_int (Var.y v + Var.ny v)); [|discriminate].
    fold (midpoint (Var.x v) (Var.nx v)) (midpoint (Var.y v) (Var.ny v)).
    assert (Hm : at_midpoint points offsetX offsetY (midpoint (Var.x v) (Var.nx v)) (midpoint (Var.y v) (Var.ny v))).
    { exists (Var.x v), (Var.y v), (Var.nx v), (Var.ny v). now repeat split. }
    destruct (segment gen g _) as [[c d]|] eqn:Hs; [|discriminate].
    intros [= <-]. apply Forall_app. split.
    + destruct (j =? 0); constructor; [exact Hm | constructor].
    + apply (segment_placed (Var.set_xy v (midpoint (Var.x v) (Var.nx v))
                               (midpoint (Var.y v) (Var.ny v)))).
      * right. exact Hm.
      * exact Hn.
      * exact Hnn.
      * now rewrite Hs.
  - destruct (segment gen g v) as [[c d]|] eqn:Hs; [|discriminate].
    intros [= <-]. apply (segment_placed v); [now left | assumption | assumption |].
    now rewrite Hs.
Qed.

Lemma for_j_placed offset npts n : forall j cmds,
  commands (for_j points tags offsetX offsetY gen g offset npts n j) = Some cmds ->
  Forall (placed points offsetX offsetY) cmds.
Proof.
  induction n as [|n IH]; intros j cmds.
  - intros [= <-]. constructor.
  - rewrite for_j_step.
    destruct (commands (iteration _ _ _ _ _ _ _ _ _)) as [c|] eqn:Hi; [|discriminate].
    destruct (commands (for_j _ _ _ _ _ _ _ _ _ _)) as [c'|] eqn:Hf; [|discriminate].
    intros [= <-]. apply Forall_app. split.
    + eapply iteration_placed; eassumption.
    + eapply IH; eassumption.
Qed.

Lemma contour_placed s e cmds :
  commands (contour points tags offsetX offsetY gen g s e) = Some cmds ->
  Forall (placed points offsetX offsetY) cmds.
Proof.
  rewrite contour_commands.
  destruct (index points s) as [p|]; [|discriminate].
  destruct (commands (for_j _ _ _ _ _ _ _ _ _ _)) as [c|] eqn:Hf; [|discriminate].
  intros [= <-]. constructor; [exact I|].
  apply Forall_app. split; [eapply for_j_placed; eassumption|].
  constructor; [exact I | constructor].
Qed.

Lemma for_i_placed contours : forall s cmds,
  commands (for_i points tags offsetX offsetY gen g contours s) = Some cmds ->
  Forall (placed points offsetX offsetY) cmds.
Proof.
  induction contours as [|e rest IH]; intros s cmds.
  - intros [= <-]. constructor.
  - rewrite for_i_step.
    destruct (commands (contour _ _ _ _ _ _ _ _)) as [c|] eqn:Hc; [|discriminate].
    destruct (commands (for_i _ _ _ _ _ _ _ _)) as [c'|] eqn:Hf; [|discriminate].
    intros [= <-]. apply Forall_app. split.
    + eapply contour_placed; eassumption.
    + eapply IH; eassumption.
Qed.

End Placement.

(** C1, as the specification states it, fails in tessellation mode: on the
    contour of property P2 the second line sample has the abscissa
    2.0000000000000004, which is not an integer, so it is not the
    truncation of anything. *)
Lemma C1_counterexample :
  option_map (fun cmds => nth_error cmds 2)
    (outline_commands P2_points P2_tags [2] 0%float 0%float false quiet)
  = Some (Some (LineToD 2.0000000000000004 0))
  /\ is_integer 2.0000000000000004 = false.
Proof. split; vm_compute; reflexivity. Qed.

(** In curve mode the end of a curve can be a synthesized midpoint, here
    (15,5), which is the truncation of no point of the contour. *)
Example P4_curve_mode :
  outline_commands P4_points P4_tags [3] 0%float 0%float true quiet
  = Some [MoveToD 0 0; QuadCurveTo 10 10 15 5; QuadCurveTo 20 0 30 0; LineTo 0 0;
          ClosePath].
Proof. vm_compute. reflexivity. Qed.

(** The first point of a contour is written as the [double] it is: with the
    offset 0.5 the path starts at 0.5 and the closing line returns to 0. *)
Example first_point_not_truncated :
  outline_commands [mkFT 0 0; mkFT 5 5] [1; 1] [1] 0.5%float 0%float true quiet
  = Some [MoveToD 0.5 0; LineTo 5 5; LineTo 0 0; ClosePath].
Proof. vm_compute. reflexivity. Qed.

(** C1 (amended): in every command written by the loop over the points of a
    contour, an [int] coordinate pair is either a point of the outline moved
    by the offsets and truncated toward zero (the target of a [LineTo], the
    control point of a [QuadCurveTo], possibly its end), or the truncated
    average of two such pairs (the corrective [MoveTo], possibly the end of a
    [QuadCurveTo]); the line samples of tessellation mode are the
    [double]s the tessellator computes, on an arc between such pairs. *)
Theorem C1_coordinates (points : list FT_Vector) (tags contours : list Z)
    (offsetX offsetY : float) (gen : bool) (g : globals) (cmds : list PathCommand) :
  outline_commands points tags contours offsetX offsetY gen g = Some cmds ->
  Forall (placed points offsetX offsetY) cmds.
Proof.
  unfold outline_commands.
  destruct (size points =? 0); [intros [= <-]; constructor|].
  destruct (size contours =? 0); [intros [= <-]; constructor|].
  apply for_i_placed.
Qed.

Lemma C1_witness :
  Forall (placed P4_points 0%float 0%float)
    [MoveToD 0 0; QuadCurveTo 10 10 15 5; QuadCurveTo 20 0 30 0; LineTo 0 0; ClosePath].
Proof.
  exact (C1_coordinates P4_points P4_tags [3] 0%float 0%float true quiet _ eq_refl).
Defined.

(** ** What an iteration draws, as a function of its variables *)

Section Drawn.

Variable points : list FT_Vector.
Variable tags : list Z.
Variables offsetX offsetY : float.
Variable gen : bool.
Variable g : globals.

Lemma segment_defined v cmds :
  commands (segment gen g v) = Some cmds -> cmds = segment_cmds gen v.
Proof.
  unfold segment, segment_cmds, curve_cmds.
  destruct (negb (Var.this_isctl v) && Var.next_isctl v && negb (Var.nextnext_isctl v)).
  { rewrite curve_commands. congruence. }
  destruct (negb (Var.this_isctl v) && Var.next_isctl v && Var.nextnext_isctl v).
  { unfold int_add.
    destruct (in_int (Var.nx v + Var.nnx v)); [|discriminate].
    destruct (in_int (Var.ny v + Var.nny v)); [|discriminate].
    fold (midpoint (Var.nx v) (Var.nnx v)) (midpoint (Var.ny v) (Var.nny v)).
    pose proof (curve_commands gen g v (midpoint (Var.nx v) (Var.nnx v))
                  (midpoint (Var.ny v) (Var.nny v))) as H.
    destruct (curve gen g v _ _) as [[c d]|]; simpl in *; congruence. }
  destruct (negb (Var.this_isctl v) && negb (Var.next_isctl v)); [simpl; congruence|].
  destruct (Var.this_isctl v && negb (Var.next_isctl v)); simpl; congruence.
Qed.

Lemma segment_total v :
  in_int (Var.nx v + Var.nnx v) = true -> in_int (Var.ny v + Var.nny v) = true ->
  commands (segment gen g v) = Some (segment_cmds gen v).
Proof.
  intros Hx Hy. unfold segment, segment_cmds, curve_cmds, int_add.
  rewrite Hx, Hy.
  destruct (negb (Var.this_isctl v) && Var.next_isctl v && negb (Var.nextnext_isctl v)).
  { apply curve_commands. }
  destruct (negb (Var.this_isctl v) && Var.next_isctl v && Var.nextnext_isctl v).
  { fold (midpoint (Var.nx v) (Var.nnx v)) (midpoint (Var.ny v) (Var.nny v)).
    pose proof (curve_commands gen g v (midpoint (Var.nx v) (Var.nnx v))
                  (midpoint (Var.ny v) (Var.nny v))) as H.
    destruct (curve gen g v _ _) as [[c d]|]; simpl in *; congruence. }
  destruct (negb (Var.this_isctl v) && negb (Var.next_isctl v)); [reflexivity|].
  destruct (Var.this_isctl v && negb (Var.next_isctl v)); reflexivity.
Qed.

Lemma iteration_defined offset npts j v cmds :
  read_vars points tags offsetX offsetY offset npts j = Some v ->
  commands (iteration points tags offsetX offsetY gen g offset npts j) = Some cmds ->
  cmds = iteration_cmds gen j v.
Proof.
  intros Hread. rewrite (iteration_read _ _ _ _ gen g _ _ _ _ Hread).
  unfold adjacent_ctl, iteration_cmds, int_add.
  destruct (Var.this_isctl v && Var.next_isctl v).
  - destruct (in_int (Var.x v + Var.nx v)); [|discriminate].
    destruct (in_int (Var.y v + Var.ny v)); [|discriminate].
    fold (midpoint (Var.x v) (Var.nx v)) (midpoint (Var.y v) (Var.ny v)).
    destruct (commands (segment gen g _)) as [c|] eqn:Hs; [|discriminate].
    apply segment_defined in Hs. congruence.
  - destruct (commands (segment gen g v)) as [c|] eqn:Hs; [|discriminate].
    apply segment_defined in Hs. simpl. congruence.
Qed.

Lemma iteration_total offset npts j v :
  read_vars points tags offsetX offsetY offset npts j = Some v ->
  sums_in_int v = true ->
  commands (iteration points tags offsetX offsetY gen g offset npts j)
  = Some (iteration_cmds gen j v).
Proof.
  intros Hread Hs. unfold sums_in_int in Hs.
  apply andb_prop in Hs as [Hs H4]. apply andb_prop in Hs as [Hs H3].
  apply andb_prop in Hs as [H1 H2].
  rewrite (iteration_read _ _ _ _ gen g _ _ _ _ Hread).
  unfold adjacent_ctl, iteration_cmds, int_add. rewrite H1, H2.
  destruct (Var.this_isctl v && Var.next_isctl v).
  - fold (midpoint (Var.x v) (Var.nx v)) (midpoint (Var.y v) (Var.ny v)).
    rewrite segment_total by assumption. reflexivity.
  - rewrite segment_total by assumption. reflexivity.
Qed.

End Drawn.

(** ** Two runs on the same outline with different offsets *)

Lemma then_inv (a b : option (list PathCommand)) (c : list PathCommand) :
  then_ a b = Some c -> exists ca cb, a = Some ca /\ b = Some cb /\ c = ca ++ cb.
Proof.
  destruct a as [ca|], b as [cb|]; simpl; try discriminate.
  intros [= <-]. now exists ca, cb.
Qed.

Lemma iteration_reads points tags offsetX offsetY gen g offset npts j cmds :
  commands (iteration points tags offsetX offsetY gen g offset npts j) = Some cmds ->
  exists v, read_vars points tags offsetX offsetY offset npts j = Some v.
Proof.
  unfold iteration. destruct (read_vars _ _ _ _ _ _ _) as [v|]; [|discriminate].
  intros _. now exists v.
Qed.

Lemma Forall2_map_same {A B : Type} (R : B -> B -> Prop) (f f' : A -> B) (l : list A) :
  (forall a, R (f a) (f' a)) -> Forall2 R (map f l) (map f' l).
Proof. intros H. induction l; simpl; constructor; auto. Qed.

Section Translation.

Variable points : list FT_Vector.
Variable tags : list Z.
Variables offsetX offsetY offsetX' offsetY' : float.
Variable gen : bool.
Variable g : globals.

Variables r m : Z -> Z -> Z -> Z -> Prop.

Hypothesis Hpoints : forall p x y x' y',
  In p points ->
  coordX offsetX p = Some x -> coordY offsetY p = Some y ->
  coordX offsetX' p = Some x' -> coordY offsetY' p = Some y' ->
  r x y x' y'.
Hypothesis Hmid : forall a b a' b' c d c' d',
  r a b a' b' -> r c d c' d' ->
  m (midpoint a c) (midpoint b d) (midpoint a' c') (midpoint b' d').
Hypothesis Hrm : forall x y x' y', r x y x' y' -> m x y x' y'.

Lemma read_vars_related offset npts j v v' :
  read_vars points tags offsetX offsetY offset npts j = Some v ->
  read_vars points tags offsetX' offsetY' offset npts j = Some v' ->
  Var.this_isctl v' = Var.this_isctl v
  /\ Var.next_isctl v' = Var.next_isctl v
  /\ Var.nextnext_isctl v' = Var.nextnext_isctl v
  /\ r (Var.x v) (Var.y v) (Var.x v') (Var.y v')
  /\ r (Var.nx v) (Var.ny v) (Var.nx v') (Var.ny v')
  /\ r (Var.nnx v) (Var.nny v) (Var.nnx v') (Var.nny v').
Proof.
  unfold read_vars.
  destruct (index points (int_mod j npts + offset)) as [p|] eqn:Hp; [|discriminate].
  destruct (coordX offsetX p) as [x|] eqn:Hx; [|discriminate].
  destruct (coordY offsetY p) as [y|] eqn:Hy; [|discriminate].
  destruct (index points (int_mod (j + 1) npts + offset)) as [np|] eqn:Hnp; [|discriminate].
  destruct (coordX offsetX np) as [nx|] eqn:Hnx; [|discriminate].
  destruct (coordY offsetY np) as [ny|] eqn:Hny; [|discriminate].
  destruct (index points (int_mod (j + 2) npts + offset)) as [nnp|] eqn:Hnnp; [|discriminate].
  destruct (coordX offsetX nnp) as [nnx|] eqn:Hnnx; [|discriminate].
  destruct (coordY offsetY nnp) as [nny|] eqn:Hnny; [|discriminate].
  destruct (index tags (int_mod j npts + offset)) as [t1|]; [|discriminate].
  destruct (index tags (int_mod (j + 1) npts + offset)) as [t2|]; [|discriminate].
  destruct (index tags (int_mod (j + 2) npts + offset)) as [t3|]; [|discriminate].
  intros [= <-].
  destruct (coordX offsetX' p) as [x'|] eqn:Hx'; [|discriminate].
  destruct (coordY offsetY' p) as [y'|] eqn:Hy'; [|discriminate].
  destruct (coordX offsetX' np) as [nx'|] eqn:Hnx'; [|discriminate].
  destruct (coordY offsetY' np) as [ny'|] eqn:Hny'; [|discriminate].
  destruct (coordX offsetX' nnp) as [nnx'|] eqn:Hnnx'; [|discriminate].
  destruct (coordY offsetY' nnp) as [nny'|] eqn:Hnny'; [|discriminate].
  intros [= <-]. cbn.
  apply index_In in Hp, Hnp, Hnnp.
  repeat split; eauto.
Qed.

Lemma curve_cmds_related v v' ex ey ex' ey' :
  r (Var.nx v) (Var.ny v) (Var.nx v') (Var.ny v') -> m ex ey ex' ey' ->
  Forall2 (related r m) (curve_cmds gen v ex ey) (curve_cmds gen v' ex' ey').
Proof.
  intros Hn He. unfold curve_cmds. destruct gen.
  - constructor; [split; assumption | constructor].
  - unfold svgQuadraticBezier. rewrite !map_map.
    apply Forall2_map_same. intros t. exact I.
Qed.

Lemma segment_cmds_related v v' :
  Var.this_isctl v' = Var.this_isctl v ->
  Var.next_isctl v' = Var.next_isctl v ->
  Var.nextnext_isctl v' = Var.nextnext_isctl v ->
  r (Var.nx v) (Var.ny v) (Var.nx v') (Var.ny v') ->
  r (Var.nnx v) (Var.nny v) (Var.nnx v') (Var.nny v') ->
  Forall2 (related r m) (segment_cmds gen v) (segment_cmds gen v').
Proof.
  intros Ht Hn Hnn Rn Rnn. unfold segment_cmds. rewrite Ht, Hn, Hnn.
  destruct (negb (Var.this_isctl v) && Var.next_isctl v && negb (Var.nextnext_isctl v)).
  { apply curve_cmds_related; auto. }
  destruct (negb (Var.this_isctl v) && Var.next_isctl v && Var.nextnext_isctl v).
  { apply curve_cmds_related; auto. }
  destruct (negb (Var.this_isctl v) && negb (Var.next_isctl v)).
  { constructor; [exact Rn | constructor]. }
  constructor.
Qed.

Lemma iteration_cmds_related j v v' :
  Var.this_isctl v' = Var.this_isctl v ->
  Var.next_isctl v' = Var.next_isctl v ->
  Var.nextnext_isctl v' = Var.nextnext_isctl v ->
  r (Var.x v) (Var.y v) (Var.x v') (Var.y v') ->
  r (Var.nx v) (Var.ny v) (Var.nx v') (Var.ny v') ->
  r (Var.nnx v) (Var.nny v) (Var.nnx v') (Var.nny v') ->
  Forall2 (related r m) (iteration_cmds gen j v) (iteration_cmds gen j v').
Proof.
  intros Ht Hn Hnn Rx Rn Rnn. unfold iteration_cmds. rewrite Ht, Hn.
  destruct (Var.this_isctl v && Var.next_isctl v).
  - apply Forall2_app.
    + destruct (j =? 0); constructor; [apply Hmid; assumption | constructor].
    + apply segment_cmds_related; auto.
  - apply segment_cmds_related; auto.
Qed.

Lemma for_j_related offset npts n : forall j c c',
  commands (for_j points tags offsetX offsetY gen g offset npts n j) = Some c ->
  commands (for_j points tags offsetX' offsetY' gen g offset npts n j) = Some c' ->
  Forall2 (related r m) c c'.
Proof.
  induction n as [|n IH]; intros j c c'.
  - intros [= <-] [= <-]. constructor.
  - rewrite !for_j_step. intros H H'.
    apply then_inv in H as (a & b & Ha & Hb & ->).
    apply then_inv in H' as (a' & b' & Ha' & Hb' & ->).
    apply Forall2_app; [|eapply IH; eassumption].
    destruct (iteration_reads _ _ _ _ _ _ _ _ _ _ Ha) as [v Hv].
    destruct (iteration_reads _ _ _ _ _ _ _ _ _ _ Ha') as [v' Hv'].
    rewrite (iteration_defined _ _ _ _ _ _ _ _ _ _ _ Hv Ha).
    rewrite (iteration_defined _ _ _ _ _ _ _ _ _ _ _ Hv' Ha').
    destruct (read_vars_related _ _ _ _ _ Hv Hv') as (? & ? & ? & ? & ? & ?).
    apply iteration_cmds_related; assumption.
Qed.

Lemma contour_related s e c c' :
  commands (contour points tags offsetX offsetY gen g s e) = Some c ->
  commands (contour points tags offsetX' offsetY' gen g s e) = Some c' ->
  Forall2 (related r m) c c'.
Proof.
  rewrite !contour_commands.
  destruct (index points s) as [p|]; [|discriminate].
  destruct (commands (for_j _ _ offsetX _ _ _ _ _ _ _)) as [a|] eqn:Ha; [|discriminate].
  destruct (commands (for_j _ _ offsetX' _ _ _ _ _ _ _)) as [a'|] eqn:Ha'; [|discriminate].
  intros [= <-] [= <-]. constructor; [exact I|].
  apply Forall2_app; [eapply for_j_related; eassumption|].
  constructor; [exact I | constructor].
Qed.

Lemma for_i_related contours : forall s c c',
  commands (for_i points tags offsetX offsetY gen g contours s) = Some c ->
  commands (for_i points tags offsetX' offsetY' gen g contours s) = Some c' ->
  Forall2 (related r m) c c'.
Proof.
  induction contours as [|e rest IH]; intros s c c'.
  - intros [= <-] [= <-]. constructor.
  - rewrite !for_i_step. intros H H'.
    apply then_inv in H as (a & b & Ha & Hb & ->).
    apply then_inv in H' as (a' & b' & Ha' & Hb' & ->).
    apply Forall2_app; [eapply contour_related | eapply IH]; eassumption.
Qed.

Lemma outline_related contours c c' :
  outline_commands points tags contours offsetX offsetY gen g = Some c ->
  outline_commands points tags contours offsetX' offsetY' gen g = Some c' ->
  Forall2 (related r m) c c'.
Proof.
  unfold outline_commands.
  destruct (size points =? 0); [intros [= <-] [= <-]; constructor|].
  destruct (size contours =? 0); [intros [= <-] [= <-]; constructor|].
  apply for_i_related.
Qed.

End Translation.

(** C8, as the specification states it, fails.  With points of negative
    abscissa and the horizontal offset 0.5 (whose floor is 0), the lines go
    to -2 and 0 where the run without offset goes to -3 and -1, because the
    conversion to [int] truncates toward zero.  With the integer offset 1 the
    corrective move of a contour that starts with the control points (-1,0)
    and (0,0) stays at (0,0), because the average truncates toward zero. *)
Lemma C8_counterexample :
  (outline_commands [mkFT (-1) 0; mkFT (-3) 0] [1; 1] [1] 0%float 0%float true quiet
   = Some [MoveToD (-1) 0; LineTo (-3) 0; LineTo (-1) 0; ClosePath]
   /\ outline_commands [mkFT (-1) 0; mkFT (-3) 0] [1; 1] [1] 0.5%float 0%float true quiet
      = Some [MoveToD (-0.5) 0; LineTo (-2) 0; LineTo 0 0; ClosePath]
   /\ floor_double 0.5 = Some 0
   /\ LineTo (-2) 0 <> LineTo (-3 + 0) (0 + 0))
  /\ (outline_commands [mkFT (-1) 0; mkFT 0 0; mkFT 0 10] [0; 0; 1] [2]
        0%float 0%float true quiet
      = Some [MoveToD (-1) 0; MoveTo 0 0; QuadCurveTo 0 0 0 10; QuadCurveTo (-1) 0 0 0;
              ClosePath]
      /\ outline_commands [mkFT (-1) 0; mkFT 0 0; mkFT 0 10] [0; 0; 1] [2]
           1%float 0%float true quiet
         = Some [MoveToD 0 0; MoveTo 0 0; QuadCurveTo 1 0 1 10; QuadCurveTo 0 0 0 0;
                 ClosePath]
      /\ floor_double 1 = Some 1
      /\ MoveTo 0 0 <> MoveTo (0 + 1) (0 + 0)).
Proof.
  split.
  - split; [vm_compute; reflexivity|].
    split; [vm_compute; reflexivity|].
    split; [vm_compute; reflexivity | discriminate].
  - split; [vm_compute; reflexivity|].
    split; [vm_compute; reflexivity|].
    split; [vm_compute; reflexivity | discriminate].
Qed.

(** With integer offsets too a midpoint does not follow the translation
    when the sum it halves changes sign: halfway between -1 and 0 is 0, and
    halfway between 0 and 1 is 0 again. *)
Example midpoint_not_translated :
  midpoint (-1) 0 = 0 /\ midpoint (-1 + 1) (0 + 1) = 0.
Proof. split; reflexivity. Qed.

Lemma midpoint_moved (a c k : Z) :
  0 <= a -> 0 <= c -> 0 <= a + k -> 0 <= c + k ->
  midpoint (a + k) (c + k) = midpoint a c + k.
Proof.
  intros. unfold midpoint, int_div.
  rewrite !Z.quot_div_nonneg by lia.
  replace (a + k + (c + k)) with (a + c + k * 2) by lia.
  apply Z.div_add. lia.
Qed.

Lemma related_kind (r m : Z -> Z -> Z -> Z -> Prop) (c c' : PathCommand) :
  related r m c c' -> kind c = kind c'.
Proof. destruct c, c'; simpl; intros H; try reflexivity; contradiction. Qed.

Lemma related_kinds (r m : Z -> Z -> Z -> Z -> Prop) (cs cs' : list PathCommand) :
  Forall2 (related r m) cs cs' -> map kind cs = map kind cs'.
Proof.
  induction 1 as [|c c' cs cs' H _ IH]; [reflexivity|].
  simpl. f_equal; [eapply related_kind; eassumption | exact IH].
Qed.

(** Two runs whose truncated points differ by [(kx, ky)] and are not
    negative write [int] coordinates that differ by [(kx, ky)]. *)
Lemma outline_shifted (points : list FT_Vector) (tags contours : list Z)
    (offsetX offsetY offsetX' offsetY' : float) (gen : bool) (g : globals)
    (cmds cmds' : list PathCommand) (kx ky : Z) :
  (forall p x y x' y',
     In p points ->
     coordX offsetX p = Some x -> coordY offsetY p = Some y ->
     coordX offsetX' p = Some x' -> coordY offsetY' p = Some y' ->
     moved kx ky x y x' y' /\ 0 <= x /\ 0 <= y /\ 0 <= x' /\ 0 <= y') ->
  outline_commands points tags contours offsetX offsetY gen g = Some cmds ->
  outline_commands points tags contours offsetX' offsetY' gen g = Some cmds' ->
  Forall2 (shifted kx ky) cmds cmds'.
Proof.
  intros Hp H H'.
  assert (Hr : Forall2
                 (related
                    (fun x y x' y' =>
                       moved kx ky x y x' y' /\ 0 <= x /\ 0 <= y /\ 0 <= x' /\ 0 <= y')
                    (moved kx ky)) cmds cmds').
  { eapply outline_related; [exact Hp | | | exact H | exact H'].
    - intros a b a' b' c d c' d' ([-> ->] & ? & ? & ? & ?) ([-> ->] & ? & ? & ? & ?).
      split; apply midpoint_moved; assumption.
    - intros x y x' y' [Hm _]. exact Hm. }
  clear H H'. induction Hr as [|c c' cs cs' Hc _ IH]; constructor; [|exact IH].
  destruct c, c'; simpl in *; try tauto.
Qed.

Lemma coordX_integer (p : FT_Vector) (k x : Z) :
  Z.abs (FT_x p) < 2 ^ 52 -> Z.abs k < 2 ^ 52 ->
  coordX (double_of_Z k) p = Some x -> x = FT_x p + k.
Proof.
  intros Hp Hk. unfold coordX. rewrite int_of_double_sum by assumption.
  destruct (in_int (FT_x p + k)); congruence.
Qed.

Lemma coordY_integer (p : FT_Vector) (k y : Z) :
  Z.abs (FT_y p) < 2 ^ 52 -> Z.abs k < 2 ^ 52 ->
  coordY (double_of_Z k) p = Some y -> y = FT_y p + k.
Proof.
  intros Hp Hk. unfold coordY. rewrite int_of_double_sum by assumption.
  destruct (in_int (FT_y p + k)); congruence.
Qed.

(** C8 (amended): two runs on the same outline that differ in the offsets
    only write the same sequence of command kinds.  When the offsets are the
    integers [(ox, oy)] in the first run and [(ox + kx, oy + ky)] in the
    second, all below [2^52] in magnitude like the coordinates of the points,
    and no point moved by the offsets has a negative coordinate in either
    run, every [int] coordinate of the second run is that of the first plus
    [(kx, ky)]. *)
Theorem C8_translation (points : list FT_Vector) (tags contours : list Z)
    (offsetX offsetY offsetX' offsetY' : float) (gen : bool) (g : globals)
    (cmds cmds' : list PathCommand) :
  outline_commands points tags contours offsetX offsetY gen g = Some cmds ->
  outline_commands points tags contours offsetX' offsetY' gen g = Some cmds' ->
  map kind cmds = map kind cmds'
  /\ forall ox oy kx ky : Z,
       offsetX = double_of_Z ox -> offsetY = double_of_Z oy ->
       offsetX' = double_of_Z (ox + kx) -> offsetY' = double_of_Z (oy + ky) ->
       Z.abs ox < 2 ^ 52 -> Z.abs oy < 2 ^ 52 ->
       Z.abs (ox + kx) < 2 ^ 52 -> Z.abs (oy + ky) < 2 ^ 52 ->
       (forall p, In p points ->
          Z.abs (FT_x p) < 2 ^ 52 /\ Z.abs (FT_y p) < 2 ^ 52
          /\ 0 <= FT_x p + ox /\ 0 <= FT_x p + ox + kx
          /\ 0 <= FT_y p + oy /\ 0 <= FT_y p + oy + ky) ->
       Forall2 (shifted kx ky) cmds cmds'.
Proof.
  intros H H'. split.
  - apply (related_kinds (fun _ _ _ _ => True) (fun _ _ _ _ => True)).
    eapply outline_related; [| | | exact H | exact H']; auto.
  - intros ox oy kx ky -> -> -> -> Hox Hoy Hox' Hoy' Hp.
    eapply outline_shifted; [| exact H | exact H'].
    intros p x y x' y' Hin Hx Hy Hx' Hy'.
    destruct (Hp p Hin) as (Bx & By & ? & ? & ? & ?).
    apply coordX_integer in Hx, Hx'; try assumption.
    apply coordY_integer in Hy, Hy'; try assumption.
    unfold moved. lia.
Qed.

Lemma C8_witness :
  Forall2 (shifted 5 0)
    [MoveToD 0 0; QuadCurveTo 10 10 15 5; QuadCurveTo 20 0 30 0; LineTo 0 0; ClosePath]
    [MoveToD 5 0; QuadCurveTo 15 10 20 5; QuadCurveTo 25 0 35 0; LineTo 5 0; ClosePath].
Proof.
  refine (proj2 (C8_translation P4_points P4_tags [3] 0%float 0%float 5%float 0%float
                   true quiet _ _ eq_refl eq_refl)
            0 0 5 0 eq_refl eq_refl eq_refl eq_refl _ _ _ _ _);
    try reflexivity.
  intros p Hin.
  destruct Hin as [<-|[<-|[<-|[<-|[]]]]];
    vm_compute; repeat split; (discriminate || reflexivity).
Defined.

(** ** One contour, point by point *)

Lemma zrange_snoc (k : nat) : forall j,
  zrange j (S k) = zrange j k ++ [j + Z.of_nat k].
Proof.
  induction k as [|k IH]; intros j.
  - simpl. now rewrite Z.add_0_r.
  - change (zrange j (S (S k))) with (j :: zrange (j + 1) (S k)).
    rewrite IH. simpl. do 2 f_equal. f_equal. lia.
Qed.

Lemma zrange_In (k : nat) : forall j i,
  In i (zrange j k) -> j <= i < j + Z.of_nat k.
Proof.
  induction k as [|k IH]; intros j i; simpl; [tauto|].
  intros [<- | H]; [lia|]. apply IH in H. lia.
Qed.

Lemma map_zrange_ext {A : Type} (f f' : Z -> A) (k : nat) : forall j,
  (forall i, j <= i < j + Z.of_nat k -> f i = f' i) ->
  map f (zrange j k) = map f' (zrange j k).
Proof.
  intros j H. apply map_ext_in. intros i Hi. apply H. now apply zrange_In.
Qed.

Lemma map_zrange_shift {A : Type} (f : Z -> A) (d : Z) (k : nat) : forall j,
  map (fun i => f (i + d)) (zrange j k) = map f (zrange (j + d) k).
Proof.
  induction k as [|k IH]; intros j; [reflexivity|].
  simpl. f_equal. rewrite IH. do 2 f_equal. lia.
Qed.

(** Only the block for two adjacent control points moves, and only at
    [j = 0]. *)
Lemma curve_cmds_no_move gen v ex ey :
  Forall (fun c => kind c <> KMove) (curve_cmds gen v ex ey).
Proof.
  unfold curve_cmds. destruct gen.
  - constructor; [discriminate | constructor].
  - unfold svgQuadraticBezier. rewrite map_map. apply Forall_forall.
    intros c Hc. apply in_map_iff in Hc as [t [<- _]]. discriminate.
Qed.

Lemma segment_cmds_no_move gen v :
  Forall (fun c => kind c <> KMove) (segment_cmds gen v).
Proof.
  unfold segment_cmds.
  destruct (negb (Var.this_isctl v) && Var.next_isctl v && negb (Var.nextnext_isctl v));
    [apply curve_cmds_no_move|].
  destruct (negb (Var.this_isctl v) && Var.next_isctl v && Var.nextnext_isctl v);
    [apply curve_cmds_no_move|].
  destruct (negb (Var.this_isctl v) && negb (Var.next_isctl v)).
  - constructor; [discriminate | constructor].
  - constructor.
Qed.

Lemma iteration_cmds_no_move gen j v :
  j <> 0 \/ Var.this_isctl v && Var.next_isctl v = false ->
  Forall (fun c => kind c <> KMove) (iteration_cmds gen j v).
Proof.
  intros H. unfold iteration_cmds.
  destruct (Var.this_isctl v && Var.next_isctl v).
  - destruct H as [H|H]; [|discriminate].
    destruct (Z.eqb_spec j 0) as [E|_]; [contradiction|].
    apply segment_cmds_no_move.
  - apply segment_cmds_no_move.
Qed.

Section ForJ.

Variable points : list FT_Vector.
Variable tags : list Z.
Variables offsetX offsetY : float.
Variable gen : bool.
Variable g : globals.
Variables offset npts : Z.
Variable f : Z -> list PathCommand.

Lemma for_j_flat_map (k : nat) : forall j,
  (forall i, j <= i < j + Z.of_nat k ->
     commands (iteration points tags offsetX offsetY gen g offset npts i) = Some (f i)) ->
  commands (for_j points tags offsetX offsetY gen g offset npts k j)
  = Some (flat_map f (zrange j k)).
Proof.
  induction k as [|k IH]; intros j H; [reflexivity|].
  rewrite for_j_step, H by lia. rewrite IH by (intros i Hi; apply H; lia).
  reflexivity.
Qed.

End ForJ.

Section Contour.

Variable points : list FT_Vector.
Variable tags : list Z.
Variables offsetX offsetY : float.
Variable gen : bool.
Variable g : globals.

(** The contour is the points [s .. e]; the point of index [i] is [P i], it
    is moved and truncated to [(X i, Y i)], and [C i] tells whether it is a
    control point. *)
Variables s e : Z.
Variable P : Z -> FT_Vector.
Variables X Y : Z -> Z.
Variable C : Z -> bool.

Hypothesis Hse : s <= e.
Hypothesis Hreads : forall i, s <= i <= e -> reads points tags offsetX offsetY P X Y C i.

Lemma wrap_range k : 0 <= k -> s <= wrap s e k <= e.
Proof.
  intros Hk. unfold wrap.
  pose proof (int_mod_range k (e - s + 1) Hk ltac:(lia)). lia.
Qed.

Lemma wrap_small k : 0 <= k < e - s + 1 -> wrap s e k = k + s.
Proof. intros Hk. unfold wrap, int_mod. rewrite Z.rem_small by lia. reflexivity. Qed.

Lemma wrap_around : wrap s e (e - s + 1) = s.
Proof. unfold wrap, int_mod. rewrite Z.rem_same by lia. reflexivity. Qed.

Lemma read_vars_contour j :
  0 <= j ->
  read_vars points tags offsetX offsetY s (e - s + 1) j = Some (vars_at s e X Y C j).
Proof.
  intros Hj. unfold read_vars. fold (wrap s e j) (wrap s e (j + 1)) (wrap s e (j + 2)).
  destruct (Hreads (wrap s e j) (wrap_range j ltac:(lia)))
    as (-> & -> & -> & t1 & -> & H1).
  destruct (Hreads (wrap s e (j + 1)) (wrap_range (j + 1) ltac:(lia)))
    as (-> & -> & -> & t2 & -> & H2).
  destruct (Hreads (wrap s e (j + 2)) (wrap_range (j + 2) ltac:(lia)))
    as (-> & -> & -> & t3 & -> & H3).
  unfold vars_at. now rewrite H1, H2, H3.
Qed.

Lemma contour_flat_map (f : Z -> list PathCommand) :
  (forall j, 0 <= j < e - s + 1 ->
     commands (iteration points tags offsetX offsetY gen g s (e - s + 1) j) = Some (f j)) ->
  commands (contour points tags offsetX offsetY gen g s e)
  = Some (MoveToD (double_of_Z (FT_x (P s)) + offsetX)
            (double_of_Z (FT_y (P s)) + offsetY)
          :: flat_map f (zrange 0 (Z.to_nat (e - s + 1))) ++ [ClosePath]).
Proof.
  intros H. rewrite contour_commands.
  destruct (Hreads s ltac:(lia)) as (-> & _).
  rewrite (for_j_flat_map _ _ _ _ _ _ _ _ f); [reflexivity|].
  intros i Hi. apply H. lia.
Qed.

Lemma wrap_next_lines {A : Type} (line : Z -> A) :
  map (fun j => line (wrap s e (j + 1))) (zrange 0 (Z.to_nat (e - s + 1)))
  = map line (zrange (s + 1) (Z.to_nat (e - s)) ++ [s]).
Proof.
  replace (Z.to_nat (e - s + 1)) with (S (Z.to_nat (e - s))) by lia.
  rewrite zrange_snoc, !map_app. cbn [map]. f_equal.
  - rewrite (map_zrange_ext _ (fun j => line (j + (s + 1)))).
    + now rewrite map_zrange_shift.
    + intros j Hj. rewrite wrap_small by lia. f_equal. lia.
  - rewrite Z.add_0_l, Z2Nat.id by lia. now rewrite wrap_around.
Qed.

(** A contour without control points is a polygon. *)
Lemma contour_polygon :
  (forall i, s <= i <= e -> C i = false) ->
  commands (contour points tags offsetX offsetY gen g s e)
  = Some (MoveToD (double_of_Z (FT_x (P s)) + offsetX)
            (double_of_Z (FT_y (P s)) + offsetY)
          :: map (fun i => LineTo (X i) (Y i))
               (zrange (s + 1) (Z.to_nat (e - s)) ++ [s])
          ++ [ClosePath]).
Proof.
  intros HC.
  rewrite (contour_flat_map (fun j => [LineTo (X (wrap s e (j + 1))) (Y (wrap s e (j + 1)))])).
  - do 3 f_equal.
    rewrite <- (wrap_next_lines (fun i => LineTo (X i) (Y i))).
    induction (zrange 0 (Z.to_nat (e - s + 1))); simpl; congruence.
  - intros j Hj.
    apply (iteration_on_on _ _ _ _ gen g _ _ _ _ (read_vars_contour j ltac:(lia)));
      cbn; apply HC; apply wrap_range; lia.
Qed.

Hypothesis Hsmall : forall i, s <= i <= e ->
  - 2 ^ 30 <= X i < 2 ^ 30 /\ - 2 ^ 30 <= Y i < 2 ^ 30.

Lemma vars_sums_in_int j : 0 <= j -> sums_in_int (vars_at s e X Y C j) = true.
Proof.
  intros Hj.
  pose proof (Hsmall _ (wrap_range j ltac:(lia))).
  pose proof (Hsmall _ (wrap_range (j + 1) ltac:(lia))).
  pose proof (Hsmall _ (wrap_range (j + 2) ltac:(lia))).
  unfold sums_in_int, in_int, INT_MIN, INT_MAX. cbn [vars_at Var.x Var.y Var.nx Var.ny Var.nnx Var.nny].
  repeat (apply andb_true_intro; split); (apply Z.leb_le || idtac); lia.
Qed.

(** The commands of the contour when no sum overflows. *)
Lemma contour_total :
  commands (contour points tags offsetX offsetY gen g s e)
  = Some (MoveToD (double_of_Z (FT_x (P s)) + offsetX)
            (double_of_Z (FT_y (P s)) + offsetY)
          :: flat_map (fun j => iteration_cmds gen j (vars_at s e X Y C j))
               (zrange 0 (Z.to_nat (e - s + 1)))
          ++ [ClosePath]).
Proof.
  apply contour_flat_map. intros j Hj.
  apply iteration_total; [apply read_vars_contour | apply vars_sums_in_int]; lia.
Qed.

End Contour.

(** ** Polygons *)

(** C5: a contour [s .. e] all of whose points are on the curve is drawn as
    a move to its first point, a line to each of the following points in
    turn, a line back to the first point and [ClosePath]; no curve is
    drawn.  ([P i] is the point of index [i], and [(X i, Y i)] what it
    becomes once moved by the offsets and truncated; the move is to the
    first point moved by the offsets.) *)
Theorem C5_polygon (points : list FT_Vector) (tags : list Z)
    (offsetX offsetY : float) (gen : bool) (g : globals) (s e : Z)
    (P : Z -> FT_Vector) (X Y : Z -> Z) :
  s <= e ->
  (forall i, s <= i <= e ->
     reads points tags offsetX offsetY P X Y (fun _ => false) i) ->
  commands (contour points tags offsetX offsetY gen g s e)
  = Some (MoveToD (double_of_Z (FT_x (P s)) + offsetX)
            (double_of_Z (FT_y (P s)) + offsetY)
          :: map (fun i => LineTo (X i) (Y i))
               (zrange (s + 1) (Z.to_nat (e - s)) ++ [s])
          ++ [ClosePath])
  /\ Forall (fun c => kind c <> KQuad)
       (MoveToD (double_of_Z (FT_x (P s)) + offsetX)
          (double_of_Z (FT_y (P s)) + offsetY)
        :: map (fun i => LineTo (X i) (Y i))
             (zrange (s + 1) (Z.to_nat (e - s)) ++ [s])
        ++ [ClosePath]).
Proof.
  intros Hse Hreads. split.
  - apply (contour_polygon points tags offsetX offsetY gen g s e P X Y (fun _ => false));
      auto.
  - constructor; [discriminate|]. apply Forall_app. split.
    + apply Forall_forall. intros c Hc.
      apply in_map_iff in Hc as [i [<- _]]. discriminate.
    + constructor; [discriminate | constructor].
Qed.

Lemma C5_witness :
  commands (contour square_points [1; 1; 1; 1] 0%float 0%float true quiet 0 3)
  = Some [MoveToD 0 0; LineTo 10 0; LineTo 10 10; LineTo 0 10; LineTo 0 0; ClosePath].
Proof.
  refine (proj1 (C5_polygon square_points [1; 1; 1; 1] 0%float 0%float true quiet 0 3
                   (nth_point square_points)
                   (fun i => FT_x (nth_point square_points i))
                   (fun i => FT_y (nth_point square_points i)) _ _)).
  - lia.
  - intros i Hi.
    assert (i = 0 \/ i = 1 \/ i = 2 \/ i = 3) as [->|[->|[->| ->]]] by lia;
      (split; [reflexivity|]; split; [reflexivity|]; split; [reflexivity|];
       eexists; split; reflexivity).
Defined.

(** ** A contour that starts with a control point *)

(** C7: when the first point of a contour is a control point and the second
    is on the curve, the contour starts with the move to the first point
    (moved by the offsets, as for any contour) and contains no other move.
    When the first two points are both control points, the move to the first
    point is followed by a move to the point halfway between them. *)
Theorem C7_leading_control_point (points : list FT_Vector) (tags : list Z)
    (offsetX offsetY : float) (gen : bool) (g : globals) (s e : Z)
    (P : Z -> FT_Vector) (X Y : Z -> Z) (C : Z -> bool) :
  s < e ->
  (forall i, s <= i <= e -> reads points tags offsetX offsetY P X Y C i) ->
  (forall i, s <= i <= e -> - 2 ^ 30 <= X i < 2 ^ 30 /\ - 2 ^ 30 <= Y i < 2 ^ 30) ->
  C s = true ->
  (C (s + 1) = false ->
   exists body,
     commands (contour points tags offsetX offsetY gen g s e)
     = Some (MoveToD (double_of_Z (FT_x (P s)) + offsetX)
               (double_of_Z (FT_y (P s)) + offsetY) :: body ++ [ClosePath])
     /\ Forall (fun c => kind c <> KMove) body)
  /\ (C (s + 1) = true ->
      exists body,
        commands (contour points tags offsetX offsetY gen g s e)
        = Some (MoveToD (double_of_Z (FT_x (P s)) + offsetX)
                  (double_of_Z (FT_y (P s)) + offsetY)
                :: MoveTo (midpoint (X s) (X (s + 1))) (midpoint (Y s) (Y (s + 1)))
                :: body ++ [ClosePath])
        /\ Forall (fun c => kind c <> KMove) body).
Proof.
  intros Hse Hreads Hsmall Hs.
  pose proof (contour_total points tags offsetX offsetY gen g s e P X Y C
                ltac:(lia) Hreads Hsmall) as Hc.
  replace (Z.to_nat (e - s + 1)) with (S (Z.to_nat (e - s))) in Hc by lia.
  cbn [zrange flat_map] in Hc.
  assert (Hw0 : wrap s e 0 = s) by (rewrite wrap_small; lia).
  assert (Hw1 : wrap s e (0 + 1) = s + 1) by (rewrite wrap_small; lia).
  assert (Hrest : Forall (fun c => kind c <> KMove)
                    (flat_map (fun j => iteration_cmds gen j (vars_at s e X Y C j))
                       (zrange (0 + 1) (Z.to_nat (e - s))))).
  { apply Forall_forall. intros c Hin. apply in_flat_map in Hin as (j & Hj & Hin).
    apply zrange_In in Hj.
    pose proof (iteration_cmds_no_move gen j (vars_at s e X Y C j) ltac:(left; lia)) as H.
    rewrite Forall_forall in H. now apply H. }
  split; intros Hs1.
  - eexists. split; [exact Hc|]. apply Forall_app. split; [|exact Hrest].
    apply iteration_cmds_no_move. right.
    cbn [vars_at Var.this_isctl Var.next_isctl]. rewrite Hw0, Hw1, Hs, Hs1. reflexivity.
  - unfold iteration_cmds at 1 in Hc.
    cbn [vars_at Var.this_isctl Var.next_isctl Var.x Var.y Var.nx Var.ny] in Hc.
    rewrite Hw0, Hw1, Hs, Hs1 in Hc. cbn [andb Z.eqb app] in Hc.
    rewrite <- app_assoc in Hc. rewrite app_assoc in Hc.
    eexists. split; [exact Hc|]. apply Forall_app. split; [|exact Hrest].
    apply segment_cmds_no_move.
Qed.

Lemma C7_witness :
  (exists body,
     commands (contour [mkFT 0 0; mkFT 10 0; mkFT 10 10] [0; 1; 1] 0%float 0%float
                 true quiet 0 2)
     = Some (MoveToD 0 0 :: body ++ [ClosePath])
     /\ Forall (fun c => kind c <> KMove) body)
  /\ commands (contour [mkFT 0 0; mkFT 10 0; mkFT 10 10] [0; 1; 1] 0%float 0%float
                 true quiet 0 2)
     = Some [MoveToD 0 0; LineTo 10 10; QuadCurveTo 0 0 10 0; ClosePath].
Proof.
  split; [|reflexivity].
  refine (proj1 (C7_leading_control_point [mkFT 0 0; mkFT 10 0; mkFT 10 10] [0; 1; 1]
                   0%float 0%float true quiet 0 2
                   (nth_point [mkFT 0 0; mkFT 10 0; mkFT 10 10])
                   (fun i => FT_x (nth_point [mkFT 0 0; mkFT 10 0; mkFT 10 10] i))
                   (fun i => FT_y (nth_point [mkFT 0 0; mkFT 10 0; mkFT 10 10] i))
                   (fun i => i =? 0) _ _ _ eq_refl) eq_refl).
  - lia.
  - intros i Hi.
    assert (i = 0 \/ i = 1 \/ i = 2) as [->|[->| ->]] by lia;
      (split; [reflexivity|]; split; [reflexivity|]; split; [reflexivity|];
       eexists; split; reflexivity).
  - intros i Hi.
    assert (i = 0 \/ i = 1 \/ i = 2) as [->|[->| ->]] by lia;
      vm_compute; repeat split; (discriminate || reflexivity).
Defined.

(** ** Well-formed outlines are drawn *)

Section Defined.

Variable points : list FT_Vector.
Variable tags : list Z.
Variables ox oy : Z.
Variable gen : bool.
Variable g : globals.

Hypothesis Htags : size tags = size points.
Hypothesis Hox : Z.abs ox < 2 ^ 29.
Hypothesis Hoy : Z.abs oy < 2 ^ 29.
Hypothesis Hpoints : forall p, In p points ->
  Z.abs (FT_x p) < 2 ^ 29 /\ Z.abs (FT_y p) < 2 ^ 29.

Lemma index_nth_point i :
  0 <= i < size points -> index points i = Some (nth_point points i).
Proof.
  intros Hi. unfold index, nth_point, size in *.
  destruct (Z.ltb_spec i 0) as [L|_]; [lia|].
  apply nth_error_nth'. lia.
Qed.

Lemma nth_point_In i : 0 <= i < size points -> In (nth_point points i) points.
Proof. intros Hi. unfold nth_point, size in *. apply nth_In. lia. Qed.

Lemma reads_in_range i :
  0 <= i < size points ->
  reads points tags (double_of_Z ox) (double_of_Z oy) (nth_point points)
    (fun i => FT_x (nth_point points i) + ox) (fun i => FT_y (nth_point points i) + oy)
    (fun i => negb (tagbit1 (nth (Z.to_nat i) tags 0))) i.
Proof.
  intros Hi. destruct (Hpoints _ (nth_point_In i Hi)) as [Hx Hy].
  unfold reads. split; [now apply index_nth_point|].
  assert (P52 : 2 ^ 29 < 2 ^ 52) by reflexivity.
  assert (P31 : 2 ^ 29 + 2 ^ 29 < 2 ^ 31) by reflexivity.
  split; [|split].
  - unfold coordX. rewrite int_of_double_sum by lia.
    unfold in_int, INT_MIN, INT_MAX.
    destruct (Z.leb_spec (- 2 ^ 31) (FT_x (nth_point points i) + ox)); [|lia].
    destruct (Z.leb_spec (FT_x (nth_point points i) + ox) (2 ^ 31 - 1)); [reflexivity|lia].
  - unfold coordY. rewrite int_of_double_sum by lia.
    unfold in_int, INT_MIN, INT_MAX.
    destruct (Z.leb_spec (- 2 ^ 31) (FT_y (nth_point points i) + oy)); [|lia].
    destruct (Z.leb_spec (FT_y (nth_point points i) + oy) (2 ^ 31 - 1)); [reflexivity|lia].
  - exists (nth (Z.to_nat i) tags 0). split; [|reflexivity].
    unfold index, size in *. destruct (Z.ltb_spec i 0) as [L|_]; [lia|].
    apply nth_error_nth'. lia.
Qed.

Lemma contour_defined s e :
  0 <= s -> s <= e -> e < size points ->
  exists cmds,
    commands (contour points tags (double_of_Z ox) (double_of_Z oy) gen g s e) = Some cmds.
Proof.
  intros Hs Hse He. eexists.
  apply (contour_total points tags (double_of_Z ox) (double_of_Z oy) gen g s e
           (nth_point points)
           (fun i => FT_x (nth_point points i) + ox)
           (fun i => FT_y (nth_point points i) + oy)
           (fun i => negb (tagbit1 (nth (Z.to_nat i) tags 0))) Hse).
  - intros i Hi. apply reads_in_range. lia.
  - intros i Hi. destruct (Hpoints _ (nth_point_In i ltac:(lia))) as [Hx Hy].
    assert (P30 : 2 ^ 29 + 2 ^ 29 = 2 ^ 30) by reflexivity. lia.
Qed.

Lemma for_i_defined contours : forall s,
  0 <= s -> contours_ok contours s (size points) = true ->
  exists cmds,
    commands (for_i points tags (double_of_Z ox) (double_of_Z oy) gen g contours s)
    = Some cmds.
Proof.
  induction contours as [|e rest IH]; intros s Hs H.
  - now exists [].
  - simpl in H. apply andb_prop in H as [H H3]. apply andb_prop in H as [H1 H2].
    apply Z.leb_le in H1. apply Z.ltb_lt in H2.
    destruct (contour_defined s e Hs H1 H2) as [c Hc].
    destruct (IH (e + 1) ltac:(lia) H3) as [c' Hc'].
    exists (c ++ c'). now rewrite for_i_step, Hc, Hc'.
Qed.

End Defined.

(** On a well-formed outline whose coordinates and integer offsets are
    below [2^29] in magnitude, [do_outline] has no undefined behaviour: it
    returns a string, the path of the commands it writes unless the outline
    is empty. *)
Theorem do_outline_defined (points : list FT_Vector) (tags contours : list Z)
    (ox oy : Z) (gen : bool) (g : globals) :
  well_formed points tags contours = true ->
  Z.abs ox < 2 ^ 29 -> Z.abs oy < 2 ^ 29 ->
  (forall p, In p points -> Z.abs (FT_x p) < 2 ^ 29 /\ Z.abs (FT_y p) < 2 ^ 29) ->
  exists cmds,
    outline_commands points tags contours (double_of_Z ox) (double_of_Z oy) gen g
    = Some cmds
    /\ exists result,
         option_map fst
           (do_outline points tags contours (double_of_Z ox) (double_of_Z oy) gen g)
         = Some result.
Proof.
  intros Hwf Hox Hoy Hp. unfold well_formed in Hwf.
  apply andb_prop in Hwf as [Ht Hc]. apply Z.eqb_eq in Ht.
  rewrite do_outline_returns. unfold outline_commands.
  destruct (size points =? 0); [exists []; split; [reflexivity | now eexists]|].
  destruct (size contours =? 0); [exists []; split; [reflexivity | now eexists]|].
  destruct (for_i_defined points tags ox oy gen g Ht Hox Hoy Hp contours 0
              ltac:(lia) Hc) as [cmds Hcmds].
  exists cmds. unfold commands in Hcmds. rewrite Hcmds.
  split; [reflexivity | now eexists].
Qed.

Lemma do_outline_defined_witness :
  exists cmds,
    outline_commands P4_points P4_tags [3] 0%float 0%float false quiet = Some cmds
    /\ exists result,
         option_map fst (do_outline P4_points P4_tags [3] 0%float 0%float false quiet)
         = Some result.
Proof.
  refine (do_outline_defined P4_points P4_tags [3] 0 0 false quiet eq_refl eq_refl
            eq_refl _).
  intros p Hin.
  destruct Hin as [<-|[<-|[<-|[<-|[]]]]]; split; reflexivity.
Defined.

(** * The tessellator, beyond its default step *)

(** ** The end of the curve *)

Lemma add_zero_l (z a : float) :
  finite a = true -> is_zero (Prim2SF z) = true ->
  same_number (Prim2SF (z + a)) (Prim2SF a).
Proof.
  intros Hf Hz. unfold finite in Hf. rewrite add_spec.
  destruct (Prim2SF z) as [sz|sz| |sz mz ez]; try discriminate.
  destruct (Prim2SF a) as [s|s| |s m e]; try discriminate.
  - left. destruct s, sz; split; reflexivity.
  - right. split; [reflexivity | now exists s, m, e].
Qed.

Lemma add_zeros (x y : float) :
  is_zero (Prim2SF x) = true -> is_zero (Prim2SF y) = true ->
  is_zero (Prim2SF (x + y)) = true.
Proof.
  intros Hx Hy. rewrite add_spec.
  destruct (Prim2SF x) as [sx|sx| |sx mx ex]; try discriminate.
  destruct (Prim2SF y) as [sy|sy| |sy my ey]; try discriminate.
  destruct sx, sy; reflexivity.
Qed.

(** The Bezier formula at [t = 1], as the source computes it, is the end
    of the curve. *)
Lemma bezier_coordinate_at_one (a b c : float) :
  finite a = true -> finite b = true -> finite c = true ->
  (0 * a + 0 * b + 1 * c =? c)%float = true.
Proof.
  intros Ha Hb Hc. apply same_number_eqb.
  rewrite (mul_one_l c Hc).
  apply add_zero_l; [exact Hc|].
  apply add_zeros; now apply mul_zero_l.
Qed.

(** The curve starts at its first point and ends at its last: at [t = 0]
    the formula of [quadraticBezier] gives [p0], and at [t = 1] it gives
    [p2], whatever the control point, provided the coordinates are finite. *)
Theorem quadraticBezier_end_points (p0 p1 p2 : Point2D) :
  finite_point p0 = true -> finite_point p1 = true -> finite_point p2 = true ->
  same_point (quadraticBezier p0 p1 p2 0) p0 = true
  /\ same_point (quadraticBezier p0 p1 p2 1) p2 = true.
Proof.
  intros H0 H1 H2. split; [now apply quadraticBezier_at_zero|].
  unfold finite_point, same_point in *.
  apply andb_prop in H0 as [H0x H0y]. apply andb_prop in H1 as [H1x H1y].
  apply andb_prop in H2 as [H2x H2y].
  change (quadraticBezier p0 p1 p2 1)
    with {| P_x := (0 * P_x p0 + 0 * P_x p1 + 1 * P_x p2)%float;
            P_y := (0 * P_y p0 + 0 * P_y p1 + 1 * P_y p2)%float |}.
  cbn [P_x P_y]. now rewrite !bezier_coordinate_at_one.
Qed.

Lemma quadraticBezier_end_points_witness :
  same_point (quadraticBezier P3_start P3_control P3_end 0) P3_start = true
  /\ same_point (quadraticBezier P3_start P3_control P3_end 1) P3_end = true.
Proof.
  apply quadraticBezier_end_points; reflexivity.
Defined.

(** ** Steps for which the loop of the tessellator is not meant *)

Lemma zero_add (x : float) : is_zero (Prim2SF x) = false -> (0 + x)%float = x.
Proof.
  intros H. apply Prim2SF_inj. rewrite add_spec.
  change (Prim2SF 0) with (S754_zero false).
  destruct (Prim2SF x) as [s|s| |s m e]; try discriminate; reflexivity.
Qed.

Lemma zero_below_one (x : float) : is_zero (Prim2SF x) = true -> (x <? 1)%float = true.
Proof.
  intros H. rewrite ltb_spec.
  destruct (Prim2SF x) as [s|s| |s m e]; try discriminate; reflexivity.
Qed.

(** With a step that is not below 1 (a NaN included) the loop is left after
    its first turn: the tessellation is the start of the curve alone. *)
Theorem fullQuadraticBezier_large_step (p0 p1 p2 : Point2D) (increment : float) (n : nat) :
  (increment <? 1)%float = false ->
  fullQuadraticBezier (2 + n) p0 p1 p2 increment = Some [quadraticBezier p0 p1 p2 0].
Proof.
  intros H. unfold fullQuadraticBezier. cbn [Nat.add fullQuadraticBezier_from].
  change (0 <? 1)%float with true. cbv iota.
  assert (Hz : is_zero (Prim2SF increment) = false).
  { destruct (is_zero (Prim2SF increment)) eqn:E; [|reflexivity].
    apply zero_below_one in E. congruence. }
  rewrite (zero_add increment Hz), H. reflexivity.
Qed.

Lemma fullQuadraticBezier_large_step_witness :
  fullQuadraticBezier 2 P3_start P3_control P3_end 1
  = Some [quadraticBezier P3_start P3_control P3_end 0]
  /\ fullQuadraticBezier 2 P3_start P3_control P3_end nan
     = Some [quadraticBezier P3_start P3_control P3_end 0].
Proof.
  split.
  - exact (fullQuadraticBezier_large_step P3_start P3_control P3_end 1 0 eq_refl).
  - exact (fullQuadraticBezier_large_step P3_start P3_control P3_end nan 0 eq_refl).
Defined.

(** *** A step that is not positive *)

Lemma shr_1_nonneg (mrs : shr_record) : 0 <= shr_m mrs -> 0 <= shr_m (shr_1 mrs).
Proof.
  destruct mrs as [m r s]. cbn [shr_m]. intros H.
  destruct m as [|p|p]; [cbn; lia | | lia].
  destruct p; cbn; lia.
Qed.

Lemma iter_shr_1_nonneg (n : positive) : forall mrs,
  0 <= shr_m mrs -> 0 <= shr_m (iter_pos shr_1 n mrs).
Proof.
  induction n as [n IH|n IH|]; intros mrs H; cbn [iter_pos].
  - apply IH, IH. now apply shr_1_nonneg.
  - now apply IH, IH.
  - now apply shr_1_nonneg.
Qed.

Lemma shr_fexp_nonneg (m e : Z) (l : location) :
  0 <= m -> 0 <= shr_m (fst (shr_fexp prec emax m e l)).
Proof.
  intros H. unfold shr_fexp, shr.
  assert (H0 : 0 <= shr_m (shr_record_of_loc m l)).
  { destruct l as [|[| |]]; exact H. }
  destruct (fexp prec emax (Zdigits2 m + e) - e) as [|p|p]; cbn [fst];
    [exact H0 | now apply iter_shr_1_nonneg | exact H0].
Qed.

Lemma round_nearest_even_nonneg (m : Z) (l : location) :
  0 <= m -> 0 <= round_nearest_even m l.
Proof.
  intros H. unfold round_nearest_even.
  destruct l as [|[| |]]; try lia. destruct (Z.even m); lia.
Qed.

(** Rounding keeps the sign. *)
Lemma binary_round_aux_sign (s : bool) (m e : Z) (l : location) :
  0 <= m ->
  match binary_round_aux prec emax s m e l with
  | S754_zero s' | S754_infinity s' | S754_finite s' _ _ => s' = s
  | S754_nan => False
  end.
Proof.
  intros H. unfold binary_round_aux.
  pose proof (shr_fexp_nonneg m e l H) as H1.
  destruct (shr_fexp prec emax m e l) as [mrs' e'] eqn:E1. cbn [fst] in H1.
  pose proof (shr_fexp_nonneg _ e' loc_Exact
                (round_nearest_even_nonneg _ (loc_of_shr_record mrs') H1)) as H2.
  destruct (shr_fexp prec emax (round_nearest_even _ _) e' loc_Exact) as [mrs'' e''].
  cbn [fst] in H2.
  destruct (shr_m mrs'') as [|p|p]; [reflexivity | | lia].
  destruct (e'' <=? emax - prec); reflexivity.
Qed.

Lemma binary_round_sign (s : bool) (m : positive) (e : Z) :
  match binary_round prec emax s m e with
  | S754_zero s' | S754_infinity s' | S754_finite s' _ _ => s' = s
  | S754_nan => False
  end.
Proof.
  unfold binary_round. destruct (shl_align m e _) as [mz ez].
  apply binary_round_aux_sign. lia.
Qed.

(** The sum of two numbers that are not positive is not positive. *)
Lemma SFadd_not_positive (x y : spec_float) :
  not_positive x = true -> not_positive y = true ->
  not_positive (SF64add x y) = true.
Proof.
  unfold SF64add, SFadd, not_positive.
  destruct x as [sx|sx| |sx mx ex], y as [sy|sy| |sy my ey]; try discriminate;
    intros Hx Hy; subst; try reflexivity; try (destruct sx; reflexivity);
    try (destruct sy; reflexivity); try (destruct sx, sy; reflexivity).
  cbn [cond_Zopp].
  destruct (shl_align mx ex (Z.min ex ey)) as [ax ex'].
  destruct (shl_align my ey (Z.min ex ey)) as [ay ey']. cbn [fst].
  unfold binary_normalize. cbn [Z.opp Z.add].
  match goal with
  | |- context [binary_round _ _ ?s ?m ?e] =>
      pose proof (binary_round_sign s m e) as H;
      destruct (binary_round prec emax s m e)
  end; first [reflexivity | assumption | contradiction].
Qed.

Lemma not_positive_below_one (x : float) :
  not_positive (Prim2SF x) = true -> (x <? 1)%float = true.
Proof.
  rewrite ltb_spec. change (Prim2SF 1) with (S754_finite false 4503599627370496 (-52)).
  unfold not_positive.
  destruct (Prim2SF x) as [s|s| |s m e]; try discriminate; intros H; subst; reflexivity.
Qed.

Lemma leb_zero_not_positive (x : float) :
  (x <=? 0)%float = true -> not_positive (Prim2SF x) = true.
Proof.
  rewrite leb_spec. change (Prim2SF 0) with (S754_zero false).
  unfold not_positive, SFleb, SFcompare.
  destruct (Prim2SF x) as [s|s| |s m e]; try discriminate; try reflexivity;
    destruct s; try discriminate; reflexivity.
Qed.

Lemma fullQuadraticBezier_from_stuck (p0 p1 p2 : Point2D) (increment : float)
    (fuel : nat) : forall i,
  not_positive (Prim2SF increment) = true -> not_positive (Prim2SF i) = true ->
  fullQuadraticBezier_from fuel p0 p1 p2 increment i = None.
Proof.
  induction fuel as [|fuel IH]; intros i Hinc Hi; [reflexivity|].
  cbn [fullQuadraticBezier_from]. rewrite (not_positive_below_one i Hi).
  rewrite IH; [reflexivity | exact Hinc |].
  rewrite add_spec. now apply SFadd_not_positive.
Qed.

(** With a step that is zero or negative the loop variable never reaches 1:
    the loop is never left, whatever the number of turns granted. *)
Theorem fullQuadraticBezier_never_returns (p0 p1 p2 : Point2D) (increment : float)
    (fuel : nat) :
  (increment <=? 0)%float = true ->
  fullQuadraticBezier fuel p0 p1 p2 increment = None.
Proof.
  intros H. apply fullQuadraticBezier_from_stuck.
  - now apply leb_zero_not_positive.
  - reflexivity.
Qed.

Lemma fullQuadraticBezier_never_returns_witness :
  fullQuadraticBezier 1000 P3_start P3_control P3_end 0 = None
  /\ fullQuadraticBezier 1000 P3_start P3_control P3_end (-0.1) = None.
Proof.
  split.
  - exact (fullQuadraticBezier_never_returns P3_start P3_control P3_end 0 1000 eq_refl).
  - exact (fullQuadraticBezier_never_returns P3_start P3_control P3_end (-0.1) 1000 eq_refl).
Defined.

(** * [halfway_between] *)

(** ** Halves of integers in binary64 *)

Lemma bounded_lower (w : positive) (e : Z) :
  bounded prec emax w e = true -> -52 <= e <= 1 -> bounded prec emax w (e - 1) = true.
Proof.
  unfold bounded, canonical_mantissa, fexp, emin, prec, emax. intros H He.
  apply andb_prop in H as [Hc Hb]. apply Z.eqb_eq in Hc. apply Z.leb_le in Hb.
  apply andb_true_intro. split; [apply Z.eqb_eq | apply Z.leb_le]; lia.
Qed.

Lemma half_finite (n : Z) :
  n <> 0 -> Z.abs n < 2 ^ 53 ->
  exists w ew, half n = S754_finite (n <? 0) w ew
    /\ normal n = S754_finite (n <? 0) w (ew + 1)
    /\ bounded prec emax w ew = true
    /\ Z.pos w = Z.abs n * 2 ^ (- 1 - ew) /\ -53 <= ew <= -1.
Proof.
  intros Hn Hb. destruct (normal_finite n Hn Hb) as (w & ew & E & Hbd & Hw & Hew).
  exists w, (ew - 1).
  replace (ew - 1 + 1) with ew by lia. replace (- 1 - (ew - 1)) with (- ew) by lia.
  assert (Hbd' : bounded prec emax w (ew - 1) = true) by (apply bounded_lower; [assumption | lia]).
  repeat split; try assumption; try lia.
  unfold half, binary_normalize. destruct n as [|p|p]; [contradiction| |].
  - apply binary_round_value; [exact Hbd'|]. right. split; [lia|].
    replace (-1 - (ew - 1)) with (- ew) by lia. exact Hw.
  - apply binary_round_value; [exact Hbd'|]. right. split; [lia|].
    replace (-1 - (ew - 1)) with (- ew) by lia. exact Hw.
Qed.

(** Rounding a canonical mantissa followed by [q] zeros. *)
Lemma binary_round_aux_shifted (s : bool) (w q : positive) (ew : Z) :
  bounded prec emax w ew = true ->
  binary_round_aux prec emax s (Z.pos (Pos.iter xO w q)) (ew - Z.pos q) loc_Exact
  = S754_finite s w ew.
Proof.
  intros Hb. unfold bounded, canonical_mantissa in Hb.
  apply andb_prop in Hb as [Hc Hemax]. apply Z.eqb_eq in Hc.
  unfold binary_round_aux, shr_fexp. cbn [Zdigits2]. rewrite digits2_iter_xO.
  replace (Z.pos (digits2_pos w) + Z.pos q + (ew - Z.pos q))
    with (Z.pos (digits2_pos w) + ew) by lia.
  rewrite Hc. replace (ew - (ew - Z.pos q)) with (Z.pos q) by lia.
  cbn [shr shr_record_of_loc]. rewrite shr_iter_xO.
  cbn [shr_m loc_of_shr_record round_nearest_even Zdigits2].
  replace (ew - Z.pos q + Z.pos q) with ew by lia.
  rewrite Hc, Z.sub_diag. cbn [shr shr_m]. now rewrite Hemax.
Qed.

Lemma bounded_digits (w : positive) (e : Z) :
  bounded prec emax w e = true -> -1000 <= e -> Z.pos (digits2_pos w) = 53.
Proof.
  unfold bounded, canonical_mantissa, fexp, emin, prec, emax. intros H He.
  apply andb_prop in H as [Hc _]. apply Z.eqb_eq in Hc. lia.
Qed.

(** Dividing an integer by 2 is exact. *)
Lemma SFdiv_two (n : Z) :
  Z.abs n < 2 ^ 53 ->
  SF64div (normal n) (S754_finite false 4503599627370496 (-51)) = half n.
Proof.
  intros Hb. destruct (Z.eq_dec n 0) as [->|Hn]; [reflexivity|].
  destruct (half_finite n Hn Hb) as (w & ew & -> & -> & Hbd & Hw & Hew).
  assert (Hbd1 : bounded prec emax w (ew + 1) = true).
  { revert Hbd. unfold bounded, canonical_mantissa, fexp, emin, prec, emax. intros H.
    apply andb_prop in H as [Hc Hb']. apply Z.eqb_eq in Hc. apply Z.leb_le in Hb'.
    apply andb_true_intro. split; [apply Z.eqb_eq | apply Z.leb_le]; lia. }
  pose proof (bounded_digits w ew Hbd ltac:(lia)) as Hd.
  unfold SF64div, SFdiv, SFdiv_core_binary. cbn [Zdigits2 digits2_pos Pos.succ].
  rewrite Hd.
  assert (He : Z.min (fexp prec emax (53 + (ew + 1) - (53 + -51))) (ew + 1 - -51) = ew - 1)
    by (unfold fexp, emin, prec, emax; lia).
  rewrite He. replace (ew + 1 - -51 - (ew - 1)) with 53 by lia.
  assert (Hdiv : Z.div_eucl (Z.shiftl (Z.pos w) 53) 4503599627370496 = (Z.pos w~0, 0)).
  { rewrite Z.shiftl_mul_pow2 by lia.
    pose proof (Z.div_eucl_eq (Z.pos w * 2 ^ 53) 4503599627370496 ltac:(lia)) as Heq.
    pose proof (Z.mod_pos_bound (Z.pos w * 2 ^ 53) 4503599627370496 ltac:(lia)) as Hmod.
    unfold Z.modulo in Hmod.
    destruct (Z.div_eucl (Z.pos w * 2 ^ 53) 4503599627370496) as [q r].
    assert (H53 : 2 ^ 53 = 2 * 4503599627370496) by reflexivity.
    rewrite H53 in Heq.
    assert (q = 2 * Z.pos w) by nia. assert (r = 0) by nia. subst. reflexivity. }
  rewrite Hdiv.
  change (new_location 4503599627370496 0) with loc_Exact.
  replace (xorb (n <? 0) false) with (n <? 0) by (destruct (n <? 0); reflexivity).
  change (Z.pos w~0) with (Z.pos (Pos.iter xO w 1)).
  replace (ew - 1) with (ew - Z.pos 1) by lia.
  now apply binary_round_aux_shifted.
Qed.

(** Normalizing [z * 2^(-1-e)] with the exponent [e] is halving [z]. *)
Lemma normalize_half (z v e : Z) :
  Z.abs z < 2 ^ 53 -> e <= -1 -> v = z * 2 ^ (- 1 - e) ->
  binary_normalize prec emax v e false = half z.
Proof.
  intros Hz He Hv.
  assert (Hpow : 0 < 2 ^ (- 1 - e)) by (apply Z.pow_pos_nonneg; lia).
  destruct (Z.eq_dec z 0) as [->|Nz]; [subst v; reflexivity|].
  destruct (half_finite z Nz Hz) as (w & ew & -> & _ & Hbd & Hw & Hew).
  assert (Hround : forall s m, Z.pos m = Z.abs z * 2 ^ (- 1 - e) ->
                     binary_round prec emax s m e = S754_finite s w ew).
  { intros s m Hm. apply binary_round_value; [exact Hbd|].
    destruct (Z_le_gt_dec e ew) as [L|G].
    - left. split; [assumption|]. rewrite Hw, Hm, <- Z.mul_assoc, <- Z.pow_add_r by lia.
      f_equal. f_equal. lia.
    - right. split; [lia|]. rewrite Hw, Hm, <- Z.mul_assoc, <- Z.pow_add_r by lia.
      f_equal. f_equal. lia. }
  unfold binary_normalize. destruct z as [|p|p]; [contradiction| |].
  - destruct v as [|m|m]; try nia. now apply Hround.
  - destruct v as [|m|m]; try nia. apply Hround. cbn [Z.abs]. lia.
Qed.

(** An integer plus the half of an integer. *)
Lemma SFadd_half (a d : Z) :
  Z.abs a < 2 ^ 51 -> Z.abs d < 2 ^ 52 ->
  SF64add (normal a) (half d) = half (2 * a + d).
Proof.
  intros Ha Hd.
  assert (P51 : 2 ^ 52 = 2 * 2 ^ 51) by reflexivity.
  assert (P53 : 2 ^ 53 = 2 * 2 ^ 52) by reflexivity.
  destruct (Z.eq_dec a 0) as [->|Na].
  { destruct (Z.eq_dec d 0) as [->|Nd]; [reflexivity|].
    destruct (half_finite d Nd ltac:(lia)) as (w & ew & E & _).
    rewrite Z.mul_0_r, Z.add_0_l, E. reflexivity. }
  destruct (Z.eq_dec d 0) as [->|Nd].
  { destruct (normal_finite a Na ltac:(lia)) as (w & ew & E & _).
    rewrite Z.add_0_r. change (half 0) with (S754_zero false). rewrite E.
    cbn [SF64add SFadd]. rewrite <- E. symmetry.
    unfold half. apply normalize_value; lia. }
  destruct (normal_finite a Na ltac:(lia)) as (wa & ea & -> & _ & Hwa & Hea).
  destruct (half_finite d Nd ltac:(lia)) as (wd & ed & -> & _ & _ & Hwd & Hed).
  unfold SF64add, SFadd. apply normalize_half; [lia | lia |].
  rewrite !shl_align_value by lia. rewrite Hwa, Hwd.
  rewrite <- !Z.mul_assoc, <- !Z.pow_add_r by lia.
  replace (- ea + (ea - Z.min ea ed)) with (- Z.min ea ed) by lia.
  replace (- 1 - ed + (ed - Z.min ea ed)) with (- 1 - Z.min ea ed) by lia.
  assert (H2 : 2 ^ (- Z.min ea ed) = 2 * 2 ^ (- 1 - Z.min ea ed)).
  { rewrite <- Z.pow_succ_r by lia. f_equal. lia. }
  assert (0 <= 2 ^ (- 1 - Z.min ea ed)) by (apply Z.pow_nonneg; lia).
  rewrite H2, !cond_Zopp_abs by lia. lia.
Qed.

Lemma half_valid (n : Z) : Z.abs n < 2 ^ 53 -> valid_binary (half n) = true.
Proof.
  intros H. destruct (Z.eq_dec n 0) as [->|N]; [reflexivity|].
  destruct (half_finite n N H) as (w & ew & -> & _ & Hb & _). exact Hb.
Qed.

(** The integer part of [n / 2]. *)
Lemma trunc_half (x : float) (n : Z) :
  Z.abs n < 2 ^ 53 -> Prim2SF x = half n -> trunc_double x = Some (Z.quot n 2).
Proof.
  intros H Hx. unfold trunc_double. rewrite Hx.
  destruct (Z.eq_dec n 0) as [->|N]; [reflexivity|].
  destruct (half_finite n N H) as (w & ew & -> & _ & _ & Hw & Hew).
  assert (Hs : Z.shiftl (Z.pos w) ew = Z.abs n / 2).
  { rewrite <- (Z.opp_involutive ew) at 1.
    rewrite Z.shiftl_opp_r, Z.shiftr_div_pow2, Hw by lia.
    replace (- ew) with (Z.succ (- 1 - ew)) by lia.
    rewrite Z.pow_succ_r by lia.
    apply Z.div_mul_cancel_r; [lia|].
    apply Z.pow_nonzero; lia. }
  cbv zeta. rewrite Hs. f_equal.
  destruct (Z.ltb_spec n 0) as [L|G].
  - rewrite <- (Z.opp_involutive n) at 2. rewrite Z.quot_opp_l by lia.
    rewrite Z.quot_div_nonneg by lia. f_equal. f_equal. lia.
  - rewrite Z.quot_div_nonneg by lia. f_equal. lia.
Qed.

Lemma halfway_coordinate (a b : Z) :
  Z.abs a < 2 ^ 51 -> Z.abs b < 2 ^ 51 ->
  long_of_double (double_of_Z a + double_of_Z (b - a) / 2)%float = Some (midpoint a b).
Proof.
  intros Ha Hb.
  assert (P52 : 2 ^ 52 = 2 * 2 ^ 51) by reflexivity.
  assert (P53 : 2 ^ 53 = 4 * 2 ^ 51) by reflexivity.
  assert (Hx : Prim2SF (double_of_Z a + double_of_Z (b - a) / 2)%float = half (a + b)).
  { rewrite add_spec, div_spec, !Prim2SF_double_of_Z by lia.
    change (Prim2SF 2) with (S754_finite false 4503599627370496 (-51)).
    rewrite SFdiv_two, SFadd_half by lia. f_equal. lia. }
  unfold long_of_double. rewrite (trunc_half _ (a + b)) by (lia || exact Hx).
  unfold midpoint, int_div.
  assert (Hq : Z.abs (Z.quot (a + b) 2) <= Z.abs (a + b)).
  { generalize (a + b). intros n. Z.to_euclidean_division_equations. lia. }
  unfold in_long, LONG_MIN, LONG_MAX.
  assert (P63 : 2 ^ 52 < 2 ^ 63) by reflexivity.
  destruct (Z.leb_spec (- 2 ^ 63) (Z.quot (a + b) 2)); [|lia].
  destruct (Z.leb_spec (Z.quot (a + b) 2) (2 ^ 63 - 1)); [reflexivity|lia].
Qed.

(** For coordinates below [2^51] in magnitude [halfway_between] is defined
    and returns, on each axis, the average of the two coordinates truncated
    toward zero: the point [do_outline] computes as [(x + nx) / 2] on [int].
    So the order of the two points does not matter. *)
Theorem halfway_between_midpoint (p1 p2 : FT_Vector) :
  Z.abs (FT_x p1) < 2 ^ 51 -> Z.abs (FT_y p1) < 2 ^ 51 ->
  Z.abs (FT_x p2) < 2 ^ 51 -> Z.abs (FT_y p2) < 2 ^ 51 ->
  halfway_between p1 p2
  = Some (mkFT (midpoint (FT_x p1) (FT_x p2)) (midpoint (FT_y p1) (FT_y p2)))
  /\ halfway_between p2 p1 = halfway_between p1 p2.
Proof.
  intros H1x H1y H2x H2y.
  assert (P63 : 2 ^ 51 + 2 ^ 51 < 2 ^ 63) by reflexivity.
  assert (Hsub : forall a b, Z.abs a < 2 ^ 51 -> Z.abs b < 2 ^ 51 ->
                   long_sub b a = Some (b - a)).
  { intros a b Ha Hb. unfold long_sub, in_long, LONG_MIN, LONG_MAX.
    destruct (Z.leb_spec (- 2 ^ 63) (b - a)); [|lia].
    destruct (Z.leb_spec (b - a) (2 ^ 63 - 1)); [reflexivity|lia]. }
  assert (Hhalf : forall q1 q2,
            Z.abs (FT_x q1) < 2 ^ 51 -> Z.abs (FT_y q1) < 2 ^ 51 ->
            Z.abs (FT_x q2) < 2 ^ 51 -> Z.abs (FT_y q2) < 2 ^ 51 ->
            halfway_between q1 q2
            = Some (mkFT (midpoint (FT_x q1) (FT_x q2)) (midpoint (FT_y q1) (FT_y q2)))).
  { intros q1 q2 Q1x Q1y Q2x Q2y. unfold halfway_between.
    rewrite (Hsub _ _ Q1x Q2x), (halfway_coordinate _ _ Q1x Q2x).
    rewrite (Hsub _ _ Q1y Q2y), (halfway_coordinate _ _ Q1y Q2y). reflexivity. }
  split; [now apply Hhalf|].
  rewrite !Hhalf by assumption. unfold midpoint.
  now rewrite (Z.add_comm (FT_x p2)), (Z.add_comm (FT_y p2)).
Qed.

Lemma halfway_between_midpoint_witness :
  halfway_between (mkFT 0 0) (mkFT 3 (-3)) = Some (mkFT 1 (-1))
  /\ halfway_between (mkFT 3 (-3)) (mkFT 0 0) = halfway_between (mkFT 0 0) (mkFT 3 (-3)).
Proof.
  apply (halfway_between_midpoint (mkFT 0 0) (mkFT 3 (-3))); reflexivity.
Defined.

(** * More of [do_outline] *)

(** ** Only the lowest bit of a tag is read *)

Lemma index_map {A B : Type} (f : A -> B) (v : list A) (i : Z) :
  index (map f v) i = option_map f (index v i).
Proof.
  unfold index. destruct (i <? 0); [reflexivity|]. apply nth_error_map.
Qed.

Section TagBit.

Variable points : list FT_Vector.
Variables tags tags' : list Z.
Variables offsetX offsetY : float.
Variable gen : bool.
Variable g : globals.

Hypothesis Hbit : map tagbit1 tags = map tagbit1 tags'.







End TagBit.



(** ** The loops stop at the first undefined step *)

Section Reads.

Variable points : list FT_Vector.
Variable tags : list Z.
Variables offsetX offsetY : float.
Variable gen : bool.
Variable g : globals.

Lemma for_j_defined offset npts n : forall j cmds,
  commands (for_j points tags offsetX offsetY gen g offset npts n j) = Some cmds ->
  cmds = flat_map
           (fun i => match read_vars points tags offsetX offsetY offset npts i with
                     | Some v => iteration_cmds gen i v
                     | None => []
                     end) (zrange j n)
  /\ forall i, j <= i < j + Z.of_nat n ->
       exists v, read_vars points tags offsetX offsetY offset npts i = Some v.
Proof.
  induction n as [|n IH]; intros j cmds H.
  - simpl in H. injection H as <-. split; [reflexivity | lia].
  - rewrite for_j_step in H. apply then_inv in H as (ca & cb & Ha & Hb & ->).
    destruct (iteration_reads _ _ _ _ _ _ _ _ _ _ Ha) as [v Hv].
    apply (iteration_defined _ _ _ _ _ _ _ _ _ _ _ Hv) in Ha. subst ca.
    destruct (IH _ _ Hb) as [-> Hrest]. split.
    + cbn [zrange flat_map]. now rewrite Hv.
    + intros i Hi. destruct (Z.eq_dec i j) as [->|N]; [now exists v|].
      apply Hrest. lia.
Qed.

Lemma read_vars_this offset npts j v :
  read_vars points tags offsetX offsetY offset npts j = Some v ->
  (exists p, index points (int_mod j npts + offset) = Some p)
  /\ (exists t, index tags (int_mod j npts + offset) = Some t)
  /\ exists t, index tags (int_mod (j + 1) npts + offset) = Some t
               /\ Var.next_isctl v = is_ctl t.
Proof.
  unfold read_vars. intros H.
  destruct (index points (int_mod j npts + offset)) as [p|]; [|discriminate].
  destruct (coordX offsetX p) as [x|]; [|discriminate].
  destruct (coordY offsetY p) as [y|]; [|discriminate].
  destruct (index points (int_mod (j + 1) npts + offset)) as [np|]; [|discriminate].
  destruct (coordX offsetX np) as [nx|]; [|discriminate].
  destruct (coordY offsetY np) as [ny|]; [|discriminate].
  destruct (index points (int_mod (j + 2) npts + offset)) as [nnp|]; [|discriminate].
  destruct (coordX offsetX nnp) as [nnx|]; [|discriminate].
  destruct (coordY offsetY nnp) as [nny|]; [|discriminate].
  destruct (index tags (int_mod j npts + offset)) as [t1|]; [|discriminate].
  destruct (index tags (int_mod (j + 1) npts + offset)) as [t2|]; [|discriminate].
  destruct (index tags (int_mod (j + 2) npts + offset)) as [t3|]; [|discriminate].
  injection H as <-. split; [now exists p|]. split; [now exists t1|].
  exists t2. split; reflexivity.
Qed.

Lemma index_range {A : Type} (v : list A) (i : Z) (a : A) :
  index v i = Some a -> 0 <= i < size v.
Proof.
  unfold index, size. destruct (Z.ltb_spec i 0) as [L|G]; [discriminate|].
  intros H. assert (Hn : nth_error v (Z.to_nat i) <> None) by congruence.
  apply nth_error_Some in Hn. lia.
Qed.

(** A contour that is drawn has its first point in the vector, and its last
    point and tag when it is not empty. *)
Lemma contour_reads s e cmds :
  commands (contour points tags offsetX offsetY gen g s e) = Some cmds ->
  0 <= s < size points /\ e < size points /\ (s <= e -> e < size tags).
Proof.
  rewrite contour_commands.
  destruct (index points s) as [first|] eqn:Hs; [|discriminate].
  apply index_range in Hs.
  destruct (commands (for_j _ _ _ _ _ _ _ _ _ _)) as [body|] eqn:Hb; [|discriminate].
  intros _. split; [exact Hs|].
  destruct (Z_le_gt_dec s e) as [L|G]; [|lia].
  apply for_j_defined in Hb as [_ Hr].
  destruct (Hr (e - s) ltac:(lia)) as [v Hv].
  apply read_vars_this in Hv as ([p Hp] & [t Ht] & _).
  unfold int_mod in Hp, Ht. rewrite Z.rem_small in Hp, Ht by lia.
  replace (e - s + s) with e in Hp, Ht by lia.
  apply index_range in Hp. apply index_range in Ht. lia.
Qed.

Lemma for_i_reads contours : forall s cmds e,
  commands (for_i points tags offsetX offsetY gen g contours s) = Some cmds ->
  In e contours -> e < size points.
Proof.
  induction contours as [|e' rest IH]; intros s cmds e H Hin; [contradiction|].
  rewrite for_i_step in H. apply then_inv in H as (ca & cb & Ha & Hb & ->).
  destruct Hin as [->|Hin].
  - now apply contour_reads in Ha.
  - now apply (IH _ _ _ Hb).
Qed.

Lemma for_i_reads_tags contours : forall s cmds,
  commands (for_i points tags offsetX offsetY gen g contours s) = Some cmds ->
  contours_ok contours s (size points) = true ->
  s < size points -> size points <= size tags.
Proof.
  induction contours as [|e rest IH]; intros s cmds H Hok Hs.
  - simpl in Hok. apply Z.eqb_eq in Hok. lia.
  - rewrite for_i_step in H. apply then_inv in H as (ca & cb & Ha & Hb & ->).
    cbn [contours_ok] in Hok. apply andb_prop in Hok as [Hok H3].
    apply andb_prop in Hok as [H1 H2]. apply Z.leb_le in H1. apply Z.ltb_lt in H2.
    apply contour_reads in Ha as (_ & _ & Ht).
    destruct (Z.eq_dec (e + 1) (size points)) as [E|N].
    + specialize (Ht H1). lia.
    + apply (IH _ _ Hb H3).
      destruct rest as [|e2 rest].
      * simpl in H3. apply Z.eqb_eq in H3. lia.
      * lia.
Qed.

End Reads.

Lemma do_outline_for_i points tags contours offsetX offsetY gen g :
  size points <> 0 -> size contours <> 0 ->
  option_map fst (do_outline points tags contours offsetX offsetY gen g)
  = option_map svg_path
      (commands (for_i points tags offsetX offsetY gen g contours 0)).
Proof.
  intros Hp Hc. unfold do_outline.
  destruct (Z.eqb_spec (size points) 0) as [E|_]; [contradiction|].
  destruct (Z.eqb_spec (size contours) 0) as [E|_]; [contradiction|].
  destruct (for_i _ _ _ _ _ _ _ _) as [[c d]|]; reflexivity.
Qed.

Lemma do_outline_None points tags contours offsetX offsetY gen g :
  option_map fst (do_outline points tags contours offsetX offsetY gen g) = None ->
  do_outline points tags contours offsetX offsetY gen g = None.
Proof. destruct (do_outline _ _ _ _ _ _ _); [discriminate | reflexivity]. Qed.

(** [do_outline] does not check the contours against the vectors it reads:
    on an outline that has points, the behaviour is undefined as soon as a
    contour ends at an index that is not an index of a point, and, when the
    contours are those of the points, as soon as there are fewer tags than
    points. *)
Theorem do_outline_out_of_range (points : list FT_Vector) (tags contours : list Z)
    (offsetX offsetY : float) (gen : bool) (g : globals) :
  size points <> 0 ->
  (forall e, In e contours -> size points <= e ->
     do_outline points tags contours offsetX offsetY gen g = None)
  /\ (contours_ok contours 0 (size points) = true -> size tags < size points ->
      do_outline points tags contours offsetX offsetY gen g = None).
Proof.
  intros Hp. split.
  - intros e Hin He. apply do_outline_None.
    assert (Hc : size contours <> 0) by (destruct contours; [contradiction | discriminate]).
    rewrite do_outline_for_i by assumption.
    destruct (commands (for_i _ _ _ _ _ _ _ _)) as [cmds|] eqn:H; [|reflexivity].
    pose proof (for_i_reads _ _ _ _ _ _ _ _ _ _ H Hin). lia.
  - intros Hok Ht. apply do_outline_None.
    pose proof (size_nonneg points) as Hn.
    assert (Hc : size contours <> 0).
    { pose proof (contours_ok_nonempty contours (size points) Hok ltac:(lia)).
      destruct contours; [contradiction | discriminate]. }
    rewrite do_outline_for_i by assumption.
    destruct (commands (for_i _ _ _ _ _ _ _ _)) as [cmds|] eqn:H; [|reflexivity].
    pose proof (for_i_reads_tags _ _ _ _ _ _ _ _ _ H Hok ltac:(lia)). lia.
Qed.

Lemma do_outline_out_of_range_witness :
  do_outline square_points [1; 1; 1; 1] [4] 0%float 0%float true quiet = None
  /\ do_outline square_points [1; 1; 1] [3] 0%float 0%float true quiet = None.
Proof.
  split.
  - refine (proj1 (do_outline_out_of_range square_points [1; 1; 1; 1] [4] 0%float 0%float
                     true quiet _) 4 _ _).
    + discriminate.
    + now left.
    + discriminate.
  - refine (proj2 (do_outline_out_of_range square_points [1; 1; 1] [3] 0%float 0%float
                     true quiet _) eq_refl eq_refl).
    discriminate.
Defined.

(** ** The shape of the path *)

Lemma count_app f a b : count f (a ++ b) = (count f a + count f b)%nat.
Proof. unfold count. now rewrite filter_app, length_app. Qed.

Lemma count_none f cmds : Forall (fun c => f c = false) cmds -> count f cmds = 0%nat.
Proof.
  unfold count. induction 1 as [|c l Hc _ IH]; [reflexivity|].
  cbn [filter]. now rewrite Hc.
Qed.

Lemma count_flat_map_none {A : Type} f (F : A -> list PathCommand) (l : list A) :
  (forall a, count f (F a) = 0%nat) -> count f (flat_map F l) = 0%nat.
Proof.
  intros H. induction l as [|a l IH]; [reflexivity|].
  cbn [flat_map]. now rewrite count_app, H, IH.
Qed.

Lemma samples_count f (l : list Point2D) :
  (forall x y, f (LineToD x y) = true) ->
  count f (svgQuadraticBezier l) = List.length l.
Proof.
  intros H. unfold count, svgQuadraticBezier.
  induction l as [|p l IH]; [reflexivity|].
  cbn [map filter]. rewrite H. cbn [List.length]. now rewrite IH.
Qed.

Lemma samples_count_none f (l : list Point2D) :
  (forall x y, f (LineToD x y) = false) ->
  count f (svgQuadraticBezier l) = 0%nat.
Proof.
  intros H. apply count_none. unfold svgQuadraticBezier.
  apply Forall_forall. intros c Hc. apply in_map_iff in Hc as [p [<- _]]. apply H.
Qed.


Lemma curve_cmds_drawing gen v ex ey : Forall (drawing gen) (curve_cmds gen v ex ey).
Proof.
  unfold curve_cmds. destruct gen.
  - constructor; [reflexivity | constructor].
  - unfold svgQuadraticBezier. rewrite map_map. apply Forall_forall.
    intros c Hc. apply in_map_iff in Hc as [t [<- _]]. reflexivity.
Qed.

Lemma curve_cmds_curves gen v ex ey :
  count (is_curve gen) (curve_cmds gen v ex ey) = per_curve gen.
Proof.
  unfold curve_cmds, per_curve. destruct gen; [reflexivity|].
  rewrite samples_count by reflexivity. apply length_map.
Qed.

Lemma segment_cmds_drawing gen v : Forall (drawing gen) (segment_cmds gen v).
Proof.
  unfold segment_cmds.
  destruct (negb (Var.this_isctl v) && Var.next_isctl v && negb (Var.nextnext_isctl v));
    [apply curve_cmds_drawing|].
  destruct (negb (Var.this_isctl v) && Var.next_isctl v && Var.nextnext_isctl v);
    [apply curve_cmds_drawing|].
  destruct (negb (Var.this_isctl v) && negb (Var.next_isctl v)).
  - constructor; [exact I | constructor].
  - constructor.
Qed.

Lemma iteration_cmds_drawing gen j v : Forall (drawing gen) (iteration_cmds gen j v).
Proof.
  unfold iteration_cmds. destruct (Var.this_isctl v && Var.next_isctl v).
  - apply Forall_app. split; [|apply segment_cmds_drawing].
    destruct (j =? 0); constructor; [exact I | constructor].
  - apply segment_cmds_drawing.
Qed.

(** An iteration draws one curve when its next point is a control point,
    and none otherwise. *)
Lemma segment_cmds_curves gen v :
  Var.this_isctl v && Var.next_isctl v = false ->
  count (is_curve gen) (segment_cmds gen v)
  = if Var.next_isctl v then per_curve gen else 0%nat.
Proof.
  unfold segment_cmds.
  destruct (Var.this_isctl v), (Var.next_isctl v), (Var.nextnext_isctl v);
    cbn [negb andb]; intros H; try discriminate;
    try apply curve_cmds_curves; destruct gen; reflexivity.
Qed.

Lemma iteration_cmds_curves gen j v :
  count (is_curve gen) (iteration_cmds gen j v)
  = if Var.next_isctl v then per_curve gen else 0%nat.
Proof.
  unfold iteration_cmds.
  destruct (Var.this_isctl v && Var.next_isctl v) eqn:E.
  - rewrite count_app.
    rewrite (segment_cmds_curves gen (Var.set_xy v _ _)) by reflexivity.
    cbn [Var.set_xy Var.next_isctl].
    destruct (j =? 0); destruct gen; reflexivity.
  - now apply segment_cmds_curves.
Qed.

(** ** Sums over the points of a contour *)

Lemma count_flat_map {A : Type} f (F : A -> list PathCommand) (l : list A) :
  count f (flat_map F l) = list_sum (map (fun a => count f (F a)) l).
Proof.
  induction l as [|a l IH]; [reflexivity|].
  cbn [flat_map map list_sum]. now rewrite count_app, IH.
Qed.

Lemma list_sum_indicator {A : Type} (b : A -> bool) (k : nat) (l : list A) :
  list_sum (map (fun a => if b a then k else 0%nat) l)
  = (k * List.length (filter b l))%nat.
Proof.
  induction l as [|a l IH]; [simpl; lia|].
  cbn [map filter].
  change (list_sum ((if b a then k else 0%nat)
                    :: map (fun a => if b a then k else 0%nat) l))
    with ((if b a then k else 0) + list_sum (map (fun a => if b a then k else 0%nat) l))%nat.
  rewrite IH. destruct (b a); cbn [List.length]; lia.
Qed.

Lemma filter_map_length {A B : Type} (f : B -> bool) (h : A -> B) (l : list A) :
  List.length (filter f (map h l)) = List.length (filter (fun a => f (h a)) l).
Proof.
  induction l as [|a l IH]; [reflexivity|].
  cbn [map filter]. destruct (f (h a)); cbn [List.length]; now rewrite IH.
Qed.

Lemma filter_snoc_length {A : Type} (f : A -> bool) (l : list A) (a : A) :
  List.length (filter f (l ++ [a])) = List.length (filter f (a :: l)).
Proof.
  rewrite filter_app, length_app. cbn [filter].
  destruct (f a); cbn [List.length]; lia.
Qed.

(** The elements [s, s+1, ...] of a vector, [n] of them. *)
Lemma map_nth_zrange {A : Type} (v : list A) (d : A) (n : nat) : forall s,
  0 <= s -> s + Z.of_nat n <= size v ->
  map (fun i => nth (Z.to_nat i) v d) (zrange s n) = firstn n (skipn (Z.to_nat s) v).
Proof.
  unfold size. induction n as [|n IH]; intros s Hs Hn; [reflexivity|].
  cbn [zrange map]. rewrite IH by lia.
  replace (Z.to_nat (s + 1)) with (S (Z.to_nat s)) by lia.
  assert (Hlt : (Z.to_nat s < List.length v)%nat) by lia.
  revert Hlt. generalize (Z.to_nat s). clear.
  induction v as [|a v IHv]; intros k Hk; [simpl in Hk; lia|].
  destruct k as [|k].
  - reflexivity.
  - cbn [nth skipn]. destruct v as [|b v]; [simpl in Hk; lia|].
    apply IHv. simpl in *. lia.
Qed.

Lemma index_nth {A : Type} (v : list A) (i : Z) (a d : A) :
  index v i = Some a -> nth (Z.to_nat i) v d = a.
Proof.
  unfold index. destruct (i <? 0); [discriminate|]. apply nth_error_nth.
Qed.

Lemma drawing_other gen c :
  drawing gen c ->
  is_start c = false /\ is_close c = false /\ is_curve (negb gen) c = false.
Proof. destruct c, gen; cbn; intros H; repeat split; congruence. Qed.

Lemma count_drawing gen f cmds :
  (forall c, drawing gen c -> f c = false) ->
  Forall (drawing gen) cmds -> count f cmds = 0%nat.
Proof.
  intros Hf H. apply count_none. apply Forall_forall. intros c Hc.
  apply Hf. rewrite Forall_forall in H. now apply H.
Qed.

Section Shape.

Variable points : list FT_Vector.
Variable tags : list Z.
Variables offsetX offsetY : float.
Variable gen : bool.
Variable g : globals.

(** A contour is drawn as a move to its first point, the commands of its
    iterations and [ClosePath]; it has one curve for each of its control
    points. *)
Lemma contour_shape s e cmds :
  commands (contour points tags offsetX offsetY gen g s e) = Some cmds ->
  exists x y body,
    cmds = MoveToD x y :: body ++ [ClosePath]
    /\ Forall (drawing gen) body
    /\ (s <= e ->
        count (is_curve gen) body
        = (per_curve gen
           * List.length (filter is_ctl (firstn (Z.to_nat (e - s + 1))
                                           (skipn (Z.to_nat s) tags))))%nat).
Proof.
  intros H. pose proof (contour_reads _ _ _ _ _ _ _ _ _ H) as (Hs & _ & Ht).
  rewrite contour_commands in H.
  destruct (index points s) as [first|]; [|discriminate].
  destruct (commands (for_j _ _ _ _ _ _ _ _ _ _)) as [body|] eqn:Hb; [|discriminate].
  injection H as <-. apply for_j_defined in Hb as [-> Hr].
  eexists _, _, _. split; [reflexivity|]. split.
  - apply Forall_forall. intros c Hc. apply in_flat_map in Hc as (i & _ & Hc).
    destruct (read_vars _ _ _ _ _ _ _) as [v|]; [|contradiction].
    pose proof (iteration_cmds_drawing gen i v) as Hd.
    rewrite Forall_forall in Hd. now apply Hd.
  - intros Hse. specialize (Ht Hse).
    rewrite count_flat_map.
    rewrite (map_zrange_ext _
               (fun i => (fun k => if is_ctl (nth (Z.to_nat k) tags 0)
                                   then per_curve gen else 0%nat) (wrap s e (i + 1)))).
    + pose proof (wrap_next_lines s e Hse
                    (fun k => if is_ctl (nth (Z.to_nat k) tags 0)
                              then per_curve gen else 0%nat)) as W.
      cbv beta in W. cbv beta. rewrite W, list_sum_indicator. f_equal.
      rewrite filter_snoc_length.
      change (s :: zrange (s + 1) (Z.to_nat (e - s)))
        with (zrange s (S (Z.to_nat (e - s)))).
      replace (S (Z.to_nat (e - s))) with (Z.to_nat (e - s + 1)) by lia.
      rewrite <- (filter_map_length is_ctl (fun k => nth (Z.to_nat k) tags 0)).
      rewrite map_nth_zrange by lia. reflexivity.
    + intros i Hi. destruct (Hr i ltac:(lia)) as [v Hv]. rewrite Hv.
      rewrite iteration_cmds_curves.
      apply read_vars_this in Hv as (_ & _ & t & Hidx & ->).
      unfold wrap. now rewrite (index_nth _ _ _ 0 Hidx).
Qed.

Lemma for_i_shape contours : forall s cmds,
  commands (for_i points tags offsetX offsetY gen g contours s) = Some cmds ->
  count is_start cmds = List.length contours
  /\ count is_close cmds = List.length contours
  /\ count (is_curve (negb gen)) cmds = 0%nat
  /\ (contours <> [] -> exists x y body, cmds = MoveToD x y :: body ++ [ClosePath]).
Proof.
  induction contours as [|e rest IH]; intros s cmds H.
  - simpl in H. injection H as <-. repeat split; try reflexivity. congruence.
  - rewrite for_i_step in H. apply then_inv in H as (ca & cb & Ha & Hb & ->).
    apply contour_shape in Ha as (x & y & body & -> & Hd & _).
    destruct (IH _ _ Hb) as (I1 & I2 & I3 & I4).
    assert (B1 : count is_start body = 0%nat)
      by (apply (count_drawing gen); [intros c Hc; apply (drawing_other gen c Hc) | exact Hd]).
    assert (B2 : count is_close body = 0%nat)
      by (apply (count_drawing gen); [intros c Hc; apply (drawing_other gen c Hc) | exact Hd]).
    assert (B3 : count (is_curve (negb gen)) body = 0%nat)
      by (apply (count_drawing gen); [intros c Hc; apply (drawing_other gen c Hc) | exact Hd]).
    change (MoveToD x y :: body ++ [ClosePath]) with ([MoveToD x y] ++ body ++ [ClosePath]).
    rewrite !count_app, B1, B2, B3, I1, I2, I3. cbn [List.length].
    repeat split.
    + destruct gen; reflexivity.
    + intros _. destruct rest as [|e2 rest].
      * simpl in Hb. injection Hb as <-. exists x, y, body. now rewrite app_nil_r.
      * destruct (I4 ltac:(discriminate)) as (x2 & y2 & body2 & ->).
        exists x, y, (body ++ [ClosePath] ++ MoveToD x2 y2 :: body2).
        cbn [app]. f_equal. rewrite <- !app_assoc. reflexivity.
Qed.

Lemma for_i_curves contours : forall s cmds,
  commands (for_i points tags offsetX offsetY gen g contours s) = Some cmds ->
  contours_ok contours s (size tags) = true ->
  count (is_curve gen) cmds
  = (per_curve gen * List.length (filter is_ctl (skipn (Z.to_nat s) tags)))%nat.
Proof.
  induction contours as [|e rest IH]; intros s cmds H Hok.
  - simpl in H. injection H as <-. simpl in Hok. apply Z.eqb_eq in Hok.
    rewrite skipn_all2 by (unfold size in Hok; lia).
    cbn [filter List.length]. now rewrite Nat.mul_0_r.
  - rewrite for_i_step in H. apply then_inv in H as (ca & cb & Ha & Hb & ->).
    cbn [contours_ok] in Hok. apply andb_prop in Hok as [Hok H3].
    apply andb_prop in Hok as [H1 H2]. apply Z.leb_le in H1. apply Z.ltb_lt in H2.
    pose proof (contour_reads _ _ _ _ _ _ _ _ _ Ha) as (Hs & _ & _).
    apply contour_shape in Ha as (x & y & body & -> & _ & Hc).
    change (MoveToD x y :: body ++ [ClosePath]) with ([MoveToD x y] ++ body ++ [ClosePath]).
    rewrite !count_app, (Hc H1), (IH _ _ Hb H3).
    rewrite <- (firstn_skipn (Z.to_nat (e - s + 1)) (skipn (Z.to_nat s) tags)) at 2.
    rewrite filter_app, length_app, skipn_skipn.
    replace (Z.to_nat (e - s + 1) + Z.to_nat s)%nat with (Z.to_nat (e + 1)) by lia.
    destruct gen; cbn; lia.
Qed.

End Shape.

(** On an outline that has points, the path has one subpath for each
    contour: as many moves to a first point and as many [ClosePath] as there
    are contours, a move at its head and a [ClosePath] at its end. *)
Theorem one_subpath_per_contour (points : list FT_Vector) (tags contours : list Z)
    (offsetX offsetY : float) (gen : bool) (g : globals) (cmds : list PathCommand) :
  size points <> 0 ->
  outline_commands points tags contours offsetX offsetY gen g = Some cmds ->
  count is_start cmds = List.length contours
  /\ count is_close cmds = List.length contours
  /\ (contours <> [] -> exists x y body, cmds = MoveToD x y :: body ++ [ClosePath]).
Proof.
  intros Hp. unfold outline_commands.
  destruct (Z.eqb_spec (size points) 0) as [E|_]; [contradiction|].
  destruct (Z.eqb_spec (size contours) 0) as [E|_].
  - apply size_nil_inv in E. subst contours. intros [= <-].
    repeat split; try reflexivity. congruence.
  - intros H. destruct (for_i_shape _ _ _ _ _ _ _ _ _ H) as (H1 & H2 & _ & H4).
    repeat split; assumption.
Qed.

Lemma one_subpath_per_contour_witness :
  count is_start [MoveToD 0 0; QuadCurveTo 10 0 20 0; LineTo 0 0; ClosePath] = 1%nat
  /\ count is_close [MoveToD 0 0; QuadCurveTo 10 0 20 0; LineTo 0 0; ClosePath] = 1%nat
  /\ ([2] <> [] ->
      exists x y body,
        [MoveToD 0 0; QuadCurveTo 10 0 20 0; LineTo 0 0; ClosePath]
        = MoveToD x y :: body ++ [ClosePath]).
Proof.
  refine (one_subpath_per_contour P2_points P2_tags [2] 0%float 0%float true quiet _ _ _).
  - discriminate.
  - reflexivity.
Defined.

(** Curves are drawn one way only: with [generateBezierStatements] no
    sample of a tessellated curve is written, and without it no [Q]
    statement. *)
Theorem curves_drawn_one_way (points : list FT_Vector) (tags contours : list Z)
    (offsetX offsetY : float) (gen : bool) (g : globals) (cmds : list PathCommand) :
  outline_commands points tags contours offsetX offsetY gen g = Some cmds ->
  if gen then count is_sample cmds = 0%nat else count is_quad cmds = 0%nat.
Proof.
  unfold outline_commands.
  destruct (size points =? 0); [intros [= <-]; destruct gen; reflexivity|].
  destruct (size contours =? 0); [intros [= <-]; destruct gen; reflexivity|].
  intros H. destruct (for_i_shape _ _ _ _ _ _ _ _ _ H) as (_ & _ & H3 & _).
  destruct gen; exact H3.
Qed.

Lemma curves_drawn_one_way_witness :
  count is_sample [MoveToD 0 0; QuadCurveTo 10 0 20 0; LineTo 0 0; ClosePath] = 0%nat.
Proof.
  exact (curves_drawn_one_way P2_points P2_tags [2] 0%float 0%float true quiet _ eq_refl).
Defined.

(** On a well-formed outline the path has one curve for each control point:
    one [Q] statement with [generateBezierStatements], and the eleven line
    segments of the tessellation without. *)
Theorem one_curve_per_control_point (points : list FT_Vector) (tags contours : list Z)
    (offsetX offsetY : float) (gen : bool) (g : globals) (cmds : list PathCommand) :
  well_formed points tags contours = true ->
  outline_commands points tags contours offsetX offsetY gen g = Some cmds ->
  if gen then count is_quad cmds = List.length (filter is_ctl tags)
  else count is_sample cmds = (11 * List.length (filter is_ctl tags))%nat.
Proof.
  intros Hwf. unfold well_formed in Hwf.
  apply andb_prop in Hwf as [Ht Hok]. apply Z.eqb_eq in Ht.
  unfold outline_commands.
  destruct (Z.eqb_spec (size points) 0) as [E|Np].
  { rewrite E in Ht. apply size_nil_inv in Ht. subst tags.
    intros [= <-]. destruct gen; reflexivity. }
  destruct (Z.eqb_spec (size contours) 0) as [E|_].
  { apply size_nil_inv in E. subst contours. cbn [contours_ok] in Hok.
    apply Z.eqb_eq in Hok. congruence. }
  intros H. rewrite <- Ht in Hok.
  pose proof (for_i_curves _ _ _ _ _ _ _ _ _ H Hok) as Hc.
  change (skipn (Z.to_nat 0) tags) with tags in Hc. destruct gen.
  - change (count is_quad cmds = (1 * List.length (filter is_ctl tags))%nat) in Hc. lia.
  - exact Hc.
Qed.

Lemma one_curve_per_control_point_witness :
  count is_quad [MoveToD 0 0; QuadCurveTo 10 10 15 5; QuadCurveTo 20 0 30 0; LineTo 0 0;
                 ClosePath]
  = List.length (filter is_ctl P4_tags).
Proof.
  exact (one_curve_per_control_point P4_points P4_tags [3] 0%float 0%float true quiet _
           eq_refl eq_refl).
Defined.

(** ** Coordinates that do not fit an [int] *)

(** The sum of a finite number and of an infinity or a NaN is not finite. *)
Lemma add_not_finite (a off : float) :
  finite a = true -> finite off = false -> finite (a + off) = false.
Proof.
  unfold finite. rewrite add_spec. unfold SF64add, SFadd.
  destruct (Prim2SF a) as [sa|sa| |sa ma ea]; try discriminate;
    destruct (Prim2SF off) as [so|so| |so mo eo]; try discriminate; reflexivity.
Qed.

Lemma double_of_Z_finite (z : Z) : Z.abs z < 2 ^ 53 -> finite (double_of_Z z) = true.
Proof.
  intros H. unfold finite. rewrite Prim2SF_double_of_Z by assumption.
  destruct (Z.eq_dec z 0) as [->|N]; [reflexivity|].
  destruct (normal_finite z N H) as (w & ew & -> & _). reflexivity.
Qed.

Lemma int_of_double_not_finite (d : float) : finite d = false -> int_of_double d = None.
Proof.
  unfold finite, int_of_double, trunc_double.
  destruct (Prim2SF d); try discriminate; reflexivity.
Qed.

Section Converted.

Variable points : list FT_Vector.
Variable tags : list Z.
Variables offsetX offsetY : float.
Variable gen : bool.
Variable g : globals.

Lemma read_vars_converts offset npts j v :
  read_vars points tags offsetX offsetY offset npts j = Some v ->
  exists p, index points (int_mod j npts + offset) = Some p
            /\ coordX offsetX p = Some (Var.x v) /\ coordY offsetY p = Some (Var.y v).
Proof.
  unfold read_vars. intros H.
  destruct (index points (int_mod j npts + offset)) as [p|]; [|discriminate].
  destruct (coordX offsetX p) as [x|] eqn:Hx; [|discriminate].
  destruct (coordY offsetY p) as [y|] eqn:Hy; [|discriminate].
  destruct (index points (int_mod (j + 1) npts + offset)) as [np|]; [|discriminate].
  destruct (coordX offsetX np) as [nx|]; [|discriminate].
  destruct (coordY offsetY np) as [ny|]; [|discriminate].
  destruct (index points (int_mod (j + 2) npts + offset)) as [nnp|]; [|discriminate].
  destruct (coordX offsetX nnp) as [nnx|]; [|discriminate].
  destruct (coordY offsetY nnp) as [nny|]; [|discriminate].
  destruct (index tags (int_mod j npts + offset)) as [t1|]; [|discriminate].
  destruct (index tags (int_mod (j + 1) npts + offset)) as [t2|]; [|discriminate].
  destruct (index tags (int_mod (j + 2) npts + offset)) as [t3|]; [|discriminate].
  injection H as <-. exists p. repeat split; assumption.
Qed.

(** Every point of a contour that is drawn has been converted. *)
Lemma contour_converts s e cmds i p :
  commands (contour points tags offsetX offsetY gen g s e) = Some cmds ->
  s <= i <= e -> index points i = Some p ->
  exists x y, coordX offsetX p = Some x /\ coordY offsetY p = Some y.
Proof.
  rewrite contour_commands.
  destruct (index points s) as [first|]; [|discriminate].
  destruct (commands (for_j _ _ _ _ _ _ _ _ _ _)) as [body|] eqn:Hb; [|discriminate].
  intros _ Hi Hp. apply for_j_defined in Hb as [_ Hr].
  destruct (Hr (i - s) ltac:(lia)) as [v Hv].
  apply read_vars_converts in Hv as (q & Hq & Hx & Hy).
  unfold int_mod in Hq. rewrite Z.rem_small in Hq by lia.
  replace (i - s + s) with i in Hq by lia.
  assert (q = p) by congruence. subst q. now exists (Var.x v), (Var.y v).
Qed.

Lemma for_i_converts contours : forall s cmds i p,
  commands (for_i points tags offsetX offsetY gen g contours s) = Some cmds ->
  contours_ok contours s (size points) = true ->
  s <= i -> index points i = Some p ->
  exists x y, coordX offsetX p = Some x /\ coordY offsetY p = Some y.
Proof.
  induction contours as [|e rest IH]; intros s cmds i p H Hok Hi Hp.
  - cbn [contours_ok] in Hok. apply Z.eqb_eq in Hok. apply index_range in Hp. lia.
  - rewrite for_i_step in H. apply then_inv in H as (ca & cb & Ha & Hb & ->).
    cbn [contours_ok] in Hok. apply andb_prop in Hok as [Hok H3].
    destruct (Z_le_gt_dec i e) as [L|G].
    + now apply (contour_converts s e ca i p Ha).
    + apply (IH _ _ i p Hb H3); [lia | exact Hp].
Qed.

End Converted.

Lemma In_index {A : Type} (v : list A) (a : A) : In a v -> exists i, index v i = Some a.
Proof.
  intros H. apply In_nth_error in H as [k Hk]. exists (Z.of_nat k).
  unfold index. destruct (Z.ltb_spec (Z.of_nat k) 0) as [L|_]; [lia|].
  now rewrite Nat2Z.id.
Qed.

(** On a well-formed outline [do_outline] converts the two coordinates of
    every point, moved by the offsets, to [int]: it is defined only if each
    of them fits.  So it is undefined on every outline that has points when
    an offset is an infinity or a NaN. *)
Theorem do_outline_converts_every_point (points : list FT_Vector) (tags contours : list Z)
    (offsetX offsetY : float) (gen : bool) (g : globals) :
  well_formed points tags contours = true ->
  (forall r, do_outline points tags contours offsetX offsetY gen g = Some r ->
     forall p, In p points ->
       exists x y, coordX offsetX p = Some x /\ coordY offsetY p = Some y)
  /\ (points <> [] ->
      (forall p, In p points -> Z.abs (FT_x p) < 2 ^ 53 /\ Z.abs (FT_y p) < 2 ^ 53) ->
      finite offsetX = false \/ finite offsetY = false ->
      do_outline points tags contours offsetX offsetY gen g = None).
Proof.
  intros Hwf.
  assert (Hconv : forall r, do_outline points tags contours offsetX offsetY gen g = Some r ->
            forall p, In p points ->
              exists x y, coordX offsetX p = Some x /\ coordY offsetY p = Some y).
  { intros r Hr p Hin. unfold well_formed in Hwf.
    apply andb_prop in Hwf as [_ Hok].
    assert (Hp : size points <> 0) by (destruct points; [contradiction | discriminate]).
    assert (Hc : size contours <> 0).
    { pose proof (size_nonneg points).
      pose proof (contours_ok_nonempty contours (size points) Hok ltac:(lia)).
      destruct contours; [contradiction | discriminate]. }
    pose proof (do_outline_for_i points tags contours offsetX offsetY gen g Hp Hc) as H.
    rewrite Hr in H. cbn [option_map fst] in H.
    destruct (commands (for_i _ _ _ _ _ _ _ _)) as [cmds|] eqn:Hcmds; [|discriminate].
    destruct (In_index points p Hin) as [i Hi].
    pose proof (index_range _ _ _ Hi).
    exact (for_i_converts points tags offsetX offsetY gen g contours 0 cmds i p
             Hcmds Hok ltac:(lia) Hi). }
  split; [exact Hconv|].
  intros Hne Hsmall Hoff.
  destruct (do_outline points tags contours offsetX offsetY gen g) as [r|] eqn:Hr;
    [|reflexivity].
  destruct points as [|p rest]; [contradiction|].
  destruct (Hconv r eq_refl p ltac:(now left)) as (x & y & Hx & Hy).
  destruct (Hsmall p ltac:(now left)) as [Bx By].
  unfold coordX, coordY in Hx, Hy.
  destruct Hoff as [Hoff|Hoff].
  - rewrite int_of_double_not_finite in Hx; [discriminate|].
    apply add_not_finite; [now apply double_of_Z_finite | exact Hoff].
  - rewrite int_of_double_not_finite in Hy; [discriminate|].
    apply add_not_finite; [now apply double_of_Z_finite | exact Hoff].
Qed.

Lemma do_outline_converts_every_point_witness :
  (exists x y, coordX 0.5%float (mkFT 10 0) = Some x /\ coordY 0%float (mkFT 10 0) = Some y)
  /\ do_outline square_points [1; 1; 1; 1] [3] nan 0%float true quiet = None.
Proof.
  split.
  - destruct (do_outline square_points [1; 1; 1; 1] [3] 0.5%float 0%float true quiet)
      as [r|] eqn:Hr.
    + exact (proj1 (do_outline_converts_every_point square_points [1; 1; 1; 1] [3]
                      0.5%float 0%float true quiet eq_refl)
               r Hr (mkFT 10 0) (or_intror (or_introl eq_refl))).
    + vm_compute in Hr. discriminate Hr.
  - refine (proj2 (do_outline_converts_every_point square_points [1; 1; 1; 1] [3]
                     nan 0%float true quiet eq_refl) _ _ _).
    + discriminate.
    + intros p Hin.
      destruct Hin as [<-|[<-|[<-|[<-|[]]]]]; split; reflexivity.
    + now left.
Defined.

(** ** Rounding is symmetric *)

Lemma binary_round_aux_opposite (s : bool) (m e : Z) (l : location) :
  opposite (binary_round_aux prec emax s m e l) (binary_round_aux prec emax (negb s) m e l).
Proof.
  unfold binary_round_aux.
  destruct (shr_fexp prec emax m e l) as [mrs' e'].
  destruct (shr_fexp prec emax (round_nearest_even _ _) e' loc_Exact) as [mrs'' e''].
  destruct (shr_m mrs'') as [|p|p]; [exact I | | exact I].
  destruct (e'' <=? emax - prec); cbn; repeat split.
Qed.

Lemma binary_round_opposite (s : bool) (m : positive) (e : Z) :
  opposite (binary_round prec emax s m e) (binary_round prec emax (negb s) m e).
Proof.
  unfold binary_round. destruct (shl_align m e _) as [mz ez].
  apply binary_round_aux_opposite.
Qed.

Lemma binary_normalize_opposite (z e : Z) :
  opposite (binary_normalize prec emax z e false) (binary_normalize prec emax (- z) e false).
Proof.
  destruct z as [|p|p]; cbn [binary_normalize Z.opp].
  - exact I.
  - apply (binary_round_opposite false).
  - apply (binary_round_opposite true).
Qed.

Lemma SFopp_opposite (x : spec_float) : opposite x (SFopp x).
Proof. destruct x; cbn; repeat split. Qed.

Lemma SFadd_opposite (a a' b b' : spec_float) :
  opposite a a' -> opposite b b' -> opposite (SF64add a b) (SF64add a' b').
Proof.
  unfold SF64add, SFadd, opposite.
  destruct a as [sa|sa| |sa ma ea], a' as [sa'|sa'| |sa' ma' ea']; try contradiction;
    destruct b as [sb|sb| |sb mb eb], b' as [sb'|sb'| |sb' mb' eb']; try contradiction;
    intros Ha Hb; subst; auto.
  - destruct sa, sa', sb, sb'; exact I.
  - destruct sa, sb; cbn; auto.
  - destruct Ha as (-> & -> & ->), Hb as (-> & -> & ->).
    replace (cond_Zopp (negb sa) (Z.pos (fst (shl_align ma ea (Z.min ea eb))))
             + cond_Zopp (negb sb) (Z.pos (fst (shl_align mb eb (Z.min ea eb)))))
      with (- (cond_Zopp sa (Z.pos (fst (shl_align ma ea (Z.min ea eb))))
               + cond_Zopp sb (Z.pos (fst (shl_align mb eb (Z.min ea eb))))))
      by (destruct sa, sb; cbn [cond_Zopp negb]; lia).
    apply binary_normalize_opposite.
Qed.

(** The integer parts of opposite numbers are opposite. *)
Lemma trunc_double_opposite (d d' : float) :
  opposite (Prim2SF d) (Prim2SF d') ->
  trunc_double d' = option_map Z.opp (trunc_double d).
Proof.
  unfold trunc_double, opposite.
  destruct (Prim2SF d) as [s|s| |s m e], (Prim2SF d') as [s'|s'| |s' m' e'];
    try contradiction; try reflexivity.
  intros (-> & -> & ->). cbn [option_map]. f_equal. destruct s; cbn [negb]; lia.
Qed.

(** An inverted coordinate, moved the other way, is converted to the
    opposite integer. *)
Lemma int_of_double_inverted (y : Z) (off : float) (z z' : Z) :
  Z.abs y < 2 ^ 53 ->
  int_of_double (double_of_Z y + off) = Some z ->
  int_of_double (double_of_Z (- y) + - off) = Some z' ->
  z' = - z.
Proof.
  intros Hy. unfold int_of_double.
  rewrite (trunc_double_opposite (double_of_Z y + off) (double_of_Z (- y) + - off)).
  - destruct (trunc_double (double_of_Z y + off)) as [t|]; [|discriminate].
    cbn [option_map]. destruct (in_int t); [|discriminate].
    destruct (in_int (- t)); [|discriminate]. congruence.
  - rewrite !add_spec, opp_spec, !Prim2SF_double_of_Z by lia.
    apply SFadd_opposite; [apply binary_normalize_opposite | apply SFopp_opposite].
Qed.

Lemma midpoint_opp (a b : Z) : midpoint (- a) (- b) = - midpoint a b.
Proof.
  unfold midpoint, int_div. replace (- a + - b) with (- (a + b)) by lia.
  apply Z.quot_opp_l. lia.
Qed.

(** ** Two outlines with the same tags and contours *)

Section TwoOutlines.

Variables points points' : list FT_Vector.
Variable tags : list Z.
Variables offsetX offsetY offsetX' offsetY' : float.
Variable gen : bool.
Variable g : globals.

Variables r m : Z -> Z -> Z -> Z -> Prop.

Hypothesis Hsize : size points' = size points.
Hypothesis Hpoints : forall i p p' x y x' y',
  index points i = Some p -> index points' i = Some p' ->
  coordX offsetX p = Some x -> coordY offsetY p = Some y ->
  coordX offsetX' p' = Some x' -> coordY offsetY' p' = Some y' ->
  r x y x' y'.
Hypothesis Hmid : forall a b a' b' c d c' d',
  r a b a' b' -> r c d c' d' ->
  m (midpoint a c) (midpoint b d) (midpoint a' c') (midpoint b' d').
Hypothesis Hrm : forall x y x' y', r x y x' y' -> m x y x' y'.

Lemma read_vars_related_points offset npts j v v' :
  read_vars points tags offsetX offsetY offset npts j = Some v ->
  read_vars points' tags offsetX' offsetY' offset npts j = Some v' ->
  Var.this_isctl v' = Var.this_isctl v
  /\ Var.next_isctl v' = Var.next_isctl v
  /\ Var.nextnext_isctl v' = Var.nextnext_isctl v
  /\ r (Var.x v) (Var.y v) (Var.x v') (Var.y v')
  /\ r (Var.nx v) (Var.ny v) (Var.nx v') (Var.ny v')
  /\ r (Var.nnx v) (Var.nny v) (Var.nnx v') (Var.nny v').
Proof.
  unfold read_vars.
  destruct (index points (int_mod j npts + offset)) as [p|] eqn:Hp; [|discriminate].
  destruct (coordX offsetX p) as [x|] eqn:Hx; [|discriminate].
  destruct (coordY offsetY p) as [y|] eqn:Hy; [|discriminate].
  destruct (index points (int_mod (j + 1) npts + offset)) as [np|] eqn:Hnp; [|discriminate].
  destruct (coordX offsetX np) as [nx|] eqn:Hnx; [|discriminate].
  destruct (coordY offsetY np) as [ny|] eqn:Hny; [|discriminate].
  destruct (index points (int_mod (j + 2) npts + offset)) as [nnp|] eqn:Hnnp; [|discriminate].
  destruct (coordX offsetX nnp) as [nnx|] eqn:Hnnx; [|discriminate].
  destruct (coordY offsetY nnp) as [nny|] eqn:Hnny; [|discriminate].
  destruct (index tags (int_mod j npts + offset)) as [t1|]; [|discriminate].
  destruct (index tags (int_mod (j + 1) npts + offset)) as [t2|]; [|discriminate].
  destruct (index tags (int_mod (j + 2) npts + offset)) as [t3|]; [|discriminate].
  intros [= <-].
  destruct (index points' (int_mod j npts + offset)) as [p'|] eqn:Hp'; [|discriminate].
  destruct (coordX offsetX' p') as [x'|] eqn:Hx'; [|discriminate].
  destruct (coordY offsetY' p') as [y'|] eqn:Hy'; [|discriminate].
  destruct (index points' (int_mod (j + 1) npts + offset)) as [np'|] eqn:Hnp'; [|discriminate].
  destruct (coordX offsetX' np') as [nx'|] eqn:Hnx'; [|discriminate].
  destruct (coordY offsetY' np') as [ny'|] eqn:Hny'; [|discriminate].
  destruct (index points' (int_mod (j + 2) npts + offset)) as [nnp'|] eqn:Hnnp';
    [|discriminate].
  destruct (coordX offsetX' nnp') as [nnx'|] eqn:Hnnx'; [|discriminate].
  destruct (coordY offsetY' nnp') as [nny'|] eqn:Hnny'; [|discriminate].
  intros [= <-]. cbn.
  repeat split; eauto.
Qed.

Lemma for_j_related_points offset npts n : forall j c c',
  commands (for_j points tags offsetX offsetY gen g offset npts n j) = Some c ->
  commands (for_j points' tags offsetX' offsetY' gen g offset npts n j) = Some c' ->
  Forall2 (related r m) c c'.
Proof.
  induction n as [|n IH]; intros j c c'.
  - intros [= <-] [= <-]. constructor.
  - rewrite !for_j_step. intros H H'.
    apply then_inv in H as (a & b & Ha & Hb & ->).
    apply then_inv in H' as (a' & b' & Ha' & Hb' & ->).
    apply Forall2_app; [|eapply IH; eassumption].
    destruct (iteration_reads _ _ _ _ _ _ _ _ _ _ Ha) as [v Hv].
    destruct (iteration_reads _ _ _ _ _ _ _ _ _ _ Ha') as [v' Hv'].
    rewrite (iteration_defined _ _ _ _ _ _ _ _ _ _ _ Hv Ha).
    rewrite (iteration_defined _ _ _ _ _ _ _ _ _ _ _ Hv' Ha').
    destruct (read_vars_related_points _ _ _ _ _ Hv Hv') as (? & ? & ? & ? & ? & ?).
    apply (iteration_cmds_related gen r m Hmid Hrm); assumption.
Qed.

Lemma contour_related_points s e c c' :
  commands (contour points tags offsetX offsetY gen g s e) = Some c ->
  commands (contour points' tags offsetX' offsetY' gen g s e) = Some c' ->
  Forall2 (related r m) c c'.
Proof.
  rewrite !contour_commands.
  destruct (index points s) as [p|]; [|discriminate].
  destruct (index points' s) as [p'|]; [|discriminate].
  destruct (commands (for_j points _ _ _ _ _ _ _ _ _)) as [a|] eqn:Ha; [|discriminate].
  destruct (commands (for_j points' _ _ _ _ _ _ _ _ _)) as [a'|] eqn:Ha'; [|discriminate].
  intros [= <-] [= <-]. constructor; [exact I|].
  apply Forall2_app; [eapply for_j_related_points; eassumption|].
  constructor; [exact I | constructor].
Qed.

Lemma for_i_related_points contours : forall s c c',
  commands (for_i points tags offsetX offsetY gen g contours s) = Some c ->
  commands (for_i points' tags offsetX' offsetY' gen g contours s) = Some c' ->
  Forall2 (related r m) c c'.
Proof.
  induction contours as [|e rest IH]; intros s c c'.
  - intros [= <-] [= <-]. constructor.
  - rewrite !for_i_step. intros H H'.
    apply then_inv in H as (a & b & Ha & Hb & ->).
    apply then_inv in H' as (a' & b' & Ha' & Hb' & ->).
    apply Forall2_app; [eapply contour_related_points | eapply IH]; eassumption.
Qed.

Lemma outline_related_points contours c c' :
  outline_commands points tags contours offsetX offsetY gen g = Some c ->
  outline_commands points' tags contours offsetX' offsetY' gen g = Some c' ->
  Forall2 (related r m) c c'.
Proof.
  unfold outline_commands. rewrite Hsize.
  destruct (size points =? 0); [intros [= <-] [= <-]; constructor|].
  destruct (size contours =? 0); [intros [= <-] [= <-]; constructor|].
  apply for_i_related_points.
Qed.

End TwoOutlines.

(** The conversion commutes with the inversion of the y axis that
    [glyph::init] applies to the points: when the outline and its mirror
    image, moved by opposite vertical offsets, are both drawn, the two paths
    have the same commands, with the same abscissas and opposite ordinates
    for every [int] coordinate, because the conversion to [int] and the
    average both truncate toward zero.  (Ordinates below [2^53] in
    magnitude; coordinates written as [double]s are not compared.) *)
Theorem do_outline_mirror (points : list FT_Vector) (tags contours : list Z)
    (offsetX offsetY : float) (gen : bool) (g : globals)
    (cmds cmds' : list PathCommand) :
  (forall p, In p points -> Z.abs (FT_y p) < 2 ^ 53) ->
  outline_commands points tags contours offsetX offsetY gen g = Some cmds ->
  outline_commands (map invert_y points) tags contours offsetX (- offsetY)%float gen g
  = Some cmds' ->
  map kind cmds' = map kind cmds
  /\ Forall2 (related mirrored mirrored) cmds cmds'.
Proof.
  intros Hy H H'.
  assert (HR : Forall2 (related mirrored mirrored) cmds cmds').
  { apply (outline_related_points points (map invert_y points) tags
             offsetX offsetY offsetX (- offsetY)%float gen g mirrored mirrored)
      with (contours := contours); try assumption.
    - unfold size. now rewrite length_map.
    - intros i p p' x y x' y' Hp Hp' Hx Hyy Hx' Hy'.
      rewrite index_map, Hp in Hp'. cbn [option_map] in Hp'. injection Hp' as <-.
      unfold coordX, coordY, invert_y in *. cbn [FT_x FT_y] in *. split.
      + congruence.
      + apply (int_of_double_inverted (FT_y p) offsetY); try assumption.
        apply Hy. now apply (index_In points i).
    - intros a b a' b' c d c' d' [-> ->] [-> ->]. split; [reflexivity|].
      apply midpoint_opp.
    - auto. }
  split; [|exact HR]. symmetry. now apply (related_kinds mirrored mirrored).
Qed.

Lemma do_outline_mirror_witness :
  map kind [MoveToD 0 (-3.5); QuadCurveTo 10 (-10) 15 (-5); QuadCurveTo 20 (-1) 30 (-5);
            LineTo 0 (-3); ClosePath]
  = map kind [MoveToD 0 3.5; QuadCurveTo 10 10 15 5; QuadCurveTo 20 1 30 5; LineTo 0 3;
              ClosePath]
  /\ Forall2 (related mirrored mirrored)
       [MoveToD 0 3.5; QuadCurveTo 10 10 15 5; QuadCurveTo 20 1 30 5; LineTo 0 3;
        ClosePath]
       [MoveToD 0 (-3.5); QuadCurveTo 10 (-10) 15 (-5); QuadCurveTo 20 (-1) 30 (-5);
        LineTo 0 (-3); ClosePath].
Proof.
  refine (do_outline_mirror [mkFT 0 3; mkFT 10 10; mkFT 20 1; mkFT 30 5] P4_tags [3]
            0%float 0.5%float true quiet
            [MoveToD 0 3.5; QuadCurveTo 10 10 15 5; QuadCurveTo 20 1 30 5; LineTo 0 3;
             ClosePath]
            [MoveToD 0 (-3.5); QuadCurveTo 10 (-10) 15 (-5); QuadCurveTo 20 (-1) 30 (-5);
             LineTo 0 (-3); ClosePath] _ _ _).
  - intros p Hin.
    destruct Hin as [<-|[<-|[<-|[<-|[]]]]]; reflexivity.
  - vm_compute. reflexivity.
  - vm_compute. reflexivity.
Defined.

(** * The vertices of the path *)

Lemma controls_app a b : controls (a ++ b) = controls a ++ controls b.
Proof. apply flat_map_app. Qed.

Lemma ends_app a b : ends (a ++ b) = ends a ++ ends b.
Proof. apply flat_map_app. Qed.

Lemma curve_ends_app a b : curve_ends (a ++ b) = curve_ends a ++ curve_ends b.
Proof. apply flat_map_app. Qed.

Lemma curve_ends_flat_map_In {A : Type} (F : A -> list PathCommand) (l : list A) a p :
  In a l -> In p (curve_ends (F a)) -> In p (curve_ends (flat_map F l)).
Proof.
  intros Ha Hp. induction l as [|b l IH]; [contradiction|].
  cbn [flat_map]. rewrite curve_ends_app. apply in_or_app.
  destruct Ha as [->|Ha]; [now left | right; now apply IH].
Qed.

Lemma controls_flat_map {A : Type} (F : A -> list PathCommand) (l : list A) :
  controls (flat_map F l) = flat_map (fun a => controls (F a)) l.
Proof.
  induction l as [|a l IH]; [reflexivity|].
  cbn [flat_map]. now rewrite controls_app, IH.
Qed.

Lemma ends_flat_map_In {A : Type} (F : A -> list PathCommand) (l : list A) a p :
  In a l -> In p (ends (F a)) -> In p (ends (flat_map F l)).
Proof.
  intros Ha Hp. induction l as [|b l IH]; [contradiction|].
  cbn [flat_map]. rewrite ends_app. apply in_or_app.
  destruct Ha as [->|Ha]; [now left | right; now apply IH].
Qed.

Lemma zrange_mem (k : nat) : forall j i, j <= i < j + Z.of_nat k -> In i (zrange j k).
Proof.
  induction k as [|k IH]; intros j i H; [lia|].
  cbn [zrange]. destruct (Z.eq_dec i j) as [->|N]; [now left|].
  right. apply IH. lia.
Qed.

Lemma flat_map_filter {A B : Type} (f : A -> B) (c : A -> bool) (l : list A) :
  flat_map (fun a => if c a then [f a] else []) l = map f (filter c l).
Proof.
  induction l as [|a l IH]; [reflexivity|].
  cbn [flat_map filter]. destruct (c a); cbn [app map]; now rewrite IH.
Qed.

(** With [generateBezierStatements] an iteration writes a [Q] statement
    when its next point is a control point, with that point for control
    point. *)
Lemma iteration_cmds_controls j v :
  controls (iteration_cmds true j v)
  = if Var.next_isctl v then [(Var.nx v, Var.ny v)] else [].
Proof.
  unfold iteration_cmds, segment_cmds, curve_cmds.
  cbn [Var.set_xy Var.this_isctl Var.next_isctl Var.nextnext_isctl
       Var.nx Var.ny Var.nnx Var.nny].
  destruct (Var.this_isctl v), (Var.next_isctl v), (Var.nextnext_isctl v);
    cbn [negb andb]; try reflexivity; destruct (j =? 0); reflexivity.
Qed.

(** A line ends at the next point when the two points are on the curve. *)
Lemma iteration_cmds_line j v :
  Var.this_isctl v = false -> Var.next_isctl v = false ->
  In (Var.nx v, Var.ny v) (ends (iteration_cmds true j v)).
Proof.
  intros Ht Hn. unfold iteration_cmds, segment_cmds. rewrite Ht, Hn.
  cbn [negb andb]. now left.
Qed.

(** A curve ends at the point after its control point when that point is
    on the curve. *)
Lemma iteration_cmds_curve_end j v :
  Var.next_isctl v = true -> Var.nextnext_isctl v = false ->
  In (Var.nnx v, Var.nny v) (ends (iteration_cmds true j v)).
Proof.
  intros Hn Hnn. unfold iteration_cmds, segment_cmds, curve_cmds.
  cbn [Var.set_xy Var.this_isctl Var.next_isctl Var.nextnext_isctl
       Var.nx Var.ny Var.nnx Var.nny].
  rewrite Hn, Hnn. destruct (Var.this_isctl v); cbn [negb andb].
  - rewrite ends_app. apply in_or_app. right. now left.
  - now left.
Qed.

Lemma flat_map_zrange_ext {A : Type} (f f' : Z -> list A) (k : nat) (j : Z) :
  (forall i, j <= i < j + Z.of_nat k -> f i = f' i) ->
  flat_map f (zrange j k) = flat_map f' (zrange j k).
Proof.
  intros H. rewrite !flat_map_concat_map. f_equal. now apply map_zrange_ext.
Qed.

Lemma wrap_after (s e : Z) : s < e -> wrap s e (e - s + 1 + 1) = s + 1.
Proof.
  intros H. unfold wrap, int_mod.
  assert (Hr : Z.rem (e - s + 1 + 1) (e - s + 1) = 1).
  { symmetry. apply (Z.rem_unique _ _ 1); lia. }
  rewrite Hr. lia.
Qed.


(** A curve ends halfway between its control point and the point after it
    when that point is a control point too. *)
Lemma iteration_cmds_curve_mid j v :
  Var.next_isctl v = true -> Var.nextnext_isctl v = true ->
  In (midpoint (Var.nx v) (Var.nnx v), midpoint (Var.ny v) (Var.nny v))
    (curve_ends (iteration_cmds true j v)).
Proof.
  intros Hn Hnn. unfold iteration_cmds, segment_cmds, curve_cmds.
  cbn [Var.set_xy Var.this_isctl Var.next_isctl Var.nextnext_isctl
       Var.nx Var.ny Var.nnx Var.nny].
  rewrite Hn, Hnn. destruct (Var.this_isctl v); cbn [negb andb].
  - rewrite curve_ends_app. apply in_or_app. right. now left.
  - now left.
Qed.

Lemma wrap_one (s k : Z) : wrap s s k = s.
Proof. unfold wrap, int_mod. replace (s - s + 1) with 1 by lia. rewrite Z.rem_1_r. lia. Qed.

(** The iteration whose next point is [k]. *)
Lemma iteration_before (s e : Z) (C : Z -> bool) (k : Z) :
  s <= e -> s <= k <= e ->
  exists j, 0 <= j < e - s + 1 /\ wrap s e (j + 1) = k
            /\ wrap s e (j + 2) = next_in s e k
            /\ C (wrap s e j) = C (if k =? s then e else k - 1).
Proof.
  intros Hse Hk. unfold next_in.
  destruct (Z.eq_dec k s) as [->|Nk].
  - exists (e - s). split; [lia|]. rewrite Z.eqb_refl.
    rewrite wrap_around by assumption. split; [reflexivity|]. split.
    + destruct (Z.eqb_spec s e) as [<-|N]; [apply wrap_one|].
      replace (e - s + 2) with (e - s + 1 + 1) by lia. apply wrap_after. lia.
    + rewrite wrap_small by lia. f_equal. lia.
  - exists (k - s - 1). split; [lia|].
    destruct (Z.eqb_spec k s) as [E|_]; [contradiction|].
    split; [rewrite wrap_small by lia; lia|]. split.
    + destruct (Z.eqb_spec k e) as [->|N].
      * replace (e - s - 1 + 2) with (e - s + 1) by lia. now apply wrap_around.
      * rewrite wrap_small by lia. lia.
    + rewrite wrap_small by lia. f_equal. lia.
Qed.

Section Vertices.

Variable points : list FT_Vector.
Variable tags : list Z.
Variables offsetX offsetY : float.
Variable gen : bool.
Variable g : globals.
Variables s e : Z.
Variable P : Z -> FT_Vector.
Variables X Y : Z -> Z.
Variable C : Z -> bool.
Variable cmds : list PathCommand.

Hypothesis Hse : s <= e.
Hypothesis Hreads : forall i, s <= i <= e -> reads points tags offsetX offsetY P X Y C i.
Hypothesis Hcmds : commands (contour points tags offsetX offsetY gen g s e) = Some cmds.

(** The commands of a contour that is drawn are those of its iterations,
    between the move to its first point and [ClosePath]. *)
Lemma contour_body :
  cmds = MoveToD (double_of_Z (FT_x (P s)) + offsetX) (double_of_Z (FT_y (P s)) + offsetY)
         :: flat_map (fun j => iteration_cmds gen j (vars_at s e X Y C j))
              (zrange 0 (Z.to_nat (e - s + 1)))
         ++ [ClosePath].
Proof.
  pose proof Hcmds as H. rewrite contour_commands in H.
  destruct (Hreads s ltac:(lia)) as (Hs & _). rewrite Hs in H.
  destruct (commands (for_j _ _ _ _ _ _ _ _ _ _)) as [body|] eqn:Hb; [|discriminate].
  injection H as <-. apply for_j_defined in Hb as [-> _].
  do 2 f_equal. apply flat_map_zrange_ext. intros j Hj.
  now rewrite (read_vars_contour points tags offsetX offsetY s e P X Y C Hse Hreads j) by lia.
Qed.

Lemma contour_ends_In j p :
  0 <= j < e - s + 1 ->
  In p (ends (iteration_cmds gen j (vars_at s e X Y C j))) -> In p (ends cmds).
Proof.
  intros Hj Hp. rewrite contour_body.
  change (MoveToD ?x ?y :: ?l) with ([MoveToD x y] ++ l).
  rewrite !ends_app. apply in_or_app. right. apply in_or_app. left.
  apply (ends_flat_map_In _ _ j); [apply zrange_mem; lia | exact Hp].
Qed.

Lemma contour_curve_ends_In j p :
  0 <= j < e - s + 1 ->
  In p (curve_ends (iteration_cmds gen j (vars_at s e X Y C j))) -> In p (curve_ends cmds).
Proof.
  intros Hj Hp. rewrite contour_body.
  change (MoveToD ?x ?y :: ?l) with ([MoveToD x y] ++ l).
  rewrite !curve_ends_app. apply in_or_app. right. apply in_or_app. left.
  apply (curve_ends_flat_map_In _ _ j); [apply zrange_mem; lia | exact Hp].
Qed.

End Vertices.

Section Reached.

Variable points : list FT_Vector.
Variable tags : list Z.
Variables offsetX offsetY : float.
Variable g : globals.
Variables s e : Z.
Variable P : Z -> FT_Vector.
Variables X Y : Z -> Z.
Variable C : Z -> bool.
Variable cmds : list PathCommand.

Hypothesis Hse : s <= e.
Hypothesis Hreads : forall i, s <= i <= e -> reads points tags offsetX offsetY P X Y C i.
Hypothesis Hcmds : commands (contour points tags offsetX offsetY true g s e) = Some cmds.

Lemma controls_in_order :
  controls cmds
  = map (fun k => (X k, Y k)) (filter C (zrange (s + 1) (Z.to_nat (e - s)) ++ [s])).
Proof.
  rewrite (contour_body points tags offsetX offsetY true g s e P X Y C cmds Hse Hreads Hcmds).
  change (MoveToD ?x ?y :: ?l) with ([MoveToD x y] ++ l).
  rewrite !controls_app, controls_flat_map. cbn [controls flat_map app].
  rewrite app_nil_r.
  rewrite (flat_map_zrange_ext _
             (fun j => (fun k => if C k then [(X k, Y k)] else []) (wrap s e (j + 1))))
    by (intros j Hj; apply iteration_cmds_controls).
  rewrite flat_map_concat_map.
  pose proof (wrap_next_lines s e Hse (fun k => if C k then [(X k, Y k)] else [])) as W.
  cbv beta in W. cbv beta. rewrite W.
  rewrite <- flat_map_concat_map. apply flat_map_filter.
Qed.

(** A point on the curve is reached by the line of the iteration before
    it, or by the curve of the iteration before that one. *)
Lemma on_curve_reached k :
  s <= k <= e -> C k = false -> In (X k, Y k) (ends cmds).
Proof.
  intros Hk HC.
  destruct (iteration_before s e C k Hse Hk) as (j & Hj & W1 & _ & W0).
  destruct (C (if k =? s then e else k - 1)) eqn:Cp.
  - (* the point before is a control point: it has an iteration before it *)
    assert (Hp : s <= (if k =? s then e else k - 1) <= e)
      by (destruct (Z.eqb_spec k s); lia).
    assert (Hnext : next_in s e (if k =? s then e else k - 1) = k).
    { unfold next_in. destruct (Z.eqb_spec k s) as [->|N].
      - now rewrite Z.eqb_refl.
      - destruct (Z.eqb_spec (k - 1) e); lia. }
    destruct (iteration_before s e C _ Hse Hp) as (i & Hi & V1 & V2 & _).
    rewrite Hnext in V2.
    apply (contour_ends_In points tags offsetX offsetY true g s e P X Y C cmds
             Hse Hreads Hcmds i); [exact Hi|].
    replace (X k, Y k)
      with (Var.nnx (vars_at s e X Y C i), Var.nny (vars_at s e X Y C i))
      by (cbn [vars_at Var.nnx Var.nny]; now rewrite V2).
    apply iteration_cmds_curve_end; cbn [vars_at Var.next_isctl Var.nextnext_isctl];
      rewrite ?V1, ?V2; assumption.
  - apply (contour_ends_In points tags offsetX offsetY true g s e P X Y C cmds
             Hse Hreads Hcmds j); [exact Hj|].
    replace (X k, Y k)
      with (Var.nx (vars_at s e X Y C j), Var.ny (vars_at s e X Y C j))
      by (cbn [vars_at Var.nx Var.ny]; now rewrite W1).
    apply iteration_cmds_line; cbn [vars_at Var.this_isctl Var.next_isctl];
      rewrite ?W0, ?W1; first [assumption | reflexivity].
Qed.

(** The point halfway between two consecutive control points is reached by
    the curve of the iteration before the first of them. *)
Lemma halfway_reached k :
  s <= k <= e -> C k = true -> C (next_in s e k) = true ->
  In (midpoint (X k) (X (next_in s e k)), midpoint (Y k) (Y (next_in s e k)))
    (curve_ends cmds).
Proof.
  intros Hk HC HCn.
  destruct (iteration_before s e C k Hse Hk) as (j & Hj & W1 & W2 & _).
  apply (contour_curve_ends_In points tags offsetX offsetY true g s e P X Y C cmds
           Hse Hreads Hcmds j); [exact Hj|].
  replace (midpoint (X k) (X (next_in s e k)), midpoint (Y k) (Y (next_in s e k)))
    with (midpoint (Var.nx (vars_at s e X Y C j)) (Var.nnx (vars_at s e X Y C j)),
          midpoint (Var.ny (vars_at s e X Y C j)) (Var.nny (vars_at s e X Y C j)))
    by (cbn [vars_at Var.nx Var.ny Var.nnx Var.nny]; now rewrite W1, W2).
  apply iteration_cmds_curve_mid; cbn [vars_at Var.next_isctl Var.nextnext_isctl];
    rewrite ?W1, ?W2; assumption.
Qed.

End Reached.

(** With [generateBezierStatements], the [Q] statements of a contour have
    for control points the control points of the contour, in the order of
    the contour from its second point on, the first point coming last.
    Every point of the contour that is on the curve is the end of a line or
    of a [Q] statement, and the point halfway between every two consecutive
    control points is the end of a [Q] statement.
    ([P i] is the point of index [i], [(X i, Y i)] what it becomes once
    moved by the offsets and truncated, and [C i] tells whether it is a
    control point.) *)
Theorem curve_mode_vertices (points : list FT_Vector) (tags : list Z)
    (offsetX offsetY : float) (g : globals) (s e : Z)
    (P : Z -> FT_Vector) (X Y : Z -> Z) (C : Z -> bool) (cmds : list PathCommand) :
  s <= e ->
  (forall i, s <= i <= e -> reads points tags offsetX offsetY P X Y C i) ->
  commands (contour points tags offsetX offsetY true g s e) = Some cmds ->
  controls cmds
  = map (fun k => (X k, Y k)) (filter C (zrange (s + 1) (Z.to_nat (e - s)) ++ [s]))
  /\ (forall k, s <= k <= e -> C k = false -> In (X k, Y k) (ends cmds))
  /\ (forall k, s <= k <= e -> C k = true -> C (next_in s e k) = true ->
      In (midpoint (X k) (X (next_in s e k)), midpoint (Y k) (Y (next_in s e k)))
        (curve_ends cmds)).
Proof.
  intros Hse Hreads H. split; [|split].
  - now apply (controls_in_order points tags offsetX offsetY g s e P).
  - now apply (on_curve_reached points tags offsetX offsetY g s e P).
  - now apply (halfway_reached points tags offsetX offsetY g s e P).
Qed.

Lemma curve_mode_vertices_witness :
  controls [MoveToD 0 0; QuadCurveTo 10 10 15 5; QuadCurveTo 20 0 30 0; LineTo 0 0;
            ClosePath]
  = [(10, 10); (20, 0)]
  /\ In (30, 0) (ends [MoveToD 0 0; QuadCurveTo 10 10 15 5; QuadCurveTo 20 0 30 0;
                       LineTo 0 0; ClosePath])
  /\ In (15, 5) (curve_ends [MoveToD 0 0; QuadCurveTo 10 10 15 5; QuadCurveTo 20 0 30 0;
                             LineTo 0 0; ClosePath]).
Proof.
  pose proof (curve_mode_vertices P4_points P4_tags 0%float 0%float quiet 0 3
                (nth_point P4_points)
                (fun i => FT_x (nth_point P4_points i))
                (fun i => FT_y (nth_point P4_points i))
                (fun i => (i =? 1) || (i =? 2))
                [MoveToD 0 0; QuadCurveTo 10 10 15 5; QuadCurveTo 20 0 30 0; LineTo 0 0;
                 ClosePath]) as H.
  destruct H as (H1 & H2 & H3).
  - lia.
  - intros i Hi.
    assert (i = 0 \/ i = 1 \/ i = 2 \/ i = 3) as [->|[->|[->| ->]]] by lia;
      (split; [reflexivity|]; split; [reflexivity|]; split; [reflexivity|];
       eexists; split; reflexivity).
  - reflexivity.
  - split; [exact H1|]. split.
    + exact (H2 3 ltac:(lia) eq_refl).
    + exact (H3 1 ltac:(lia) eq_refl eq_refl).
Defined.

(** * The drawing methods of [class glyph] *)

(** ** Arrays and the vectors built from them *)

Lemma index_firstn {A : Type} (l : list A) (n i : Z) :
  0 <= i < n -> index (firstn (Z.to_nat n) l) i = index l i.
Proof.
  intros H. unfold index. destruct (Z.ltb_spec i 0) as [L|_]; [lia|].
  rewrite nth_error_firstn.
  destruct (Nat.ltb_spec (Z.to_nat i) (Z.to_nat n)) as [_|G]; [reflexivity | lia].
Qed.

Lemma size_firstn {A : Type} (l : list A) (n : Z) :
  0 <= n <= size l -> size (firstn (Z.to_nat n) l) = n.
Proof. unfold size. intros H. rewrite length_firstn. lia. Qed.

Lemma vector_of_firstn {A : Type} (a : list A) (n : Z) :
  0 <= n <= size a -> vector_of a n = Some (firstn (Z.to_nat n) a).
Proof.
  intros H. unfold vector_of.
  destruct (Z.leb_spec 0 n); [|lia]. destruct (Z.leb_spec n (size a)); [reflexivity | lia].
Qed.

Lemma index_nth_error {A : Type} (l : list A) (i : Z) (d : A) :
  0 <= i < size l -> index l i = Some (nth (Z.to_nat i) l d).
Proof.
  intros H. unfold index, size in *. destruct (Z.ltb_spec i 0) as [L|_]; [lia|].
  apply nth_error_nth'. lia.
Qed.

Lemma nth_firstn {A : Type} (l : list A) (n i : Z) (d : A) :
  0 <= i < n -> n <= size l ->
  nth (Z.to_nat i) (firstn (Z.to_nat n) l) d = nth (Z.to_nat i) l d.
Proof.
  intros Hi Hn.
  pose proof (index_firstn l n i Hi) as H.
  rewrite (index_nth_error (firstn (Z.to_nat n) l) i d) in H
    by (rewrite size_firstn; lia).
  rewrite (index_nth_error l i d) in H by lia. congruence.
Qed.

(** ** [glyph::outline] *)

(** On a glyph whose arrays hold the points, tags and contours that its
    counts announce, whose contours are those of its points, and whose
    coordinates and integer offsets are below [2^29] in magnitude,
    [outline] has no undefined behaviour: it returns the comment for an
    outline without points when the glyph has none, and the path of its
    commands otherwise. *)
Theorem glyph_outline_defined (gl : Glyph.glyph) (ox oy : Z) (g : globals) :
  0 <= Glyph.n_points gl <= size (Glyph.ftpoints gl) ->
  Glyph.n_points gl <= size (Glyph.tags gl) ->
  0 <= Glyph.n_contours gl <= size (Glyph.contours gl) ->
  contours_ok (firstn (Z.to_nat (Glyph.n_contours gl)) (Glyph.contours gl)) 0
    (Glyph.n_points gl) = true ->
  Glyph.offsetX gl = double_of_Z ox -> Glyph.offsetY gl = double_of_Z oy ->
  Z.abs ox < 2 ^ 29 -> Z.abs oy < 2 ^ 29 ->
  (forall p, In p (firstn (Z.to_nat (Glyph.n_points gl)) (Glyph.ftpoints gl)) ->
     Z.abs (FT_x p) < 2 ^ 29 /\ Z.abs (FT_y p) < 2 ^ 29) ->
  exists cmds,
    Glyph.path gl g = Some cmds
    /\ option_map fst (Glyph.outline gl g)
       = Some (if Glyph.n_points gl =? 0 then no_points else svg_path cmds).
Proof.
  intros Hp Ht Hc Hok Hox Hoy Box Boy Hsmall.
  unfold Glyph.path, Glyph.outline.
  rewrite !vector_of_firstn by lia. rewrite Hox, Hoy.
  set (pointsv := firstn (Z.to_nat (Glyph.n_points gl)) (Glyph.ftpoints gl)) in *.
  set (tagsv := firstn (Z.to_nat (Glyph.n_points gl)) (Glyph.tags gl)).
  set (contoursv := firstn (Z.to_nat (Glyph.n_contours gl)) (Glyph.contours gl)) in *.
  assert (Sp : size pointsv = Glyph.n_points gl) by (apply size_firstn; lia).
  assert (St : size tagsv = size pointsv) by (rewrite Sp; apply size_firstn; lia).
  rewrite do_outline_returns. unfold outline_commands. rewrite Sp.
  destruct (Z.eqb_spec (Glyph.n_points gl) 0) as [E|N]; [now exists []|].
  assert (Nc : size contoursv <> 0).
  { intros E. apply size_nil_inv in E. rewrite E in Hok. cbn [contours_ok] in Hok.
    apply Z.eqb_eq in Hok. lia. }
  destruct (Z.eqb_spec (size contoursv) 0) as [E|_]; [contradiction|].
  rewrite <- Sp in Hok.
  destruct (for_i_defined pointsv tagsv ox oy (Glyph.generateBezierStatements gl) g
              St Box Boy Hsmall contoursv 0 ltac:(lia) Hok) as [cmds Hcmds].
  exists cmds. unfold commands in Hcmds. rewrite Hcmds. split; reflexivity.
Qed.

Lemma glyph_outline_defined_witness :
  exists cmds,
    Glyph.path P4_glyph quiet = Some cmds
    /\ option_map fst (Glyph.outline P4_glyph quiet) = Some (svg_path cmds).
Proof.
  refine (glyph_outline_defined P4_glyph 0 0 quiet _ _ _ eq_refl eq_refl eq_refl
            eq_refl eq_refl _).
  - vm_compute. split; discriminate.
  - vm_compute. discriminate.
  - vm_compute. split; discriminate.
  - intros p Hin.
    destruct Hin as [<-|[<-|[<-|[<-|[]]]]]; split; reflexivity.
Defined.

(** ** [glyph::pointlines] *)

Lemma skipn_index {A : Type} (l : list A) (j : Z) (c : A) :
  index l j = Some c ->
  skipn (Z.to_nat j) l = c :: skipn (Z.to_nat (j + 1)) l.
Proof.
  unfold index. destruct (Z.ltb_spec j 0) as [L|G]; [discriminate|].
  replace (Z.to_nat (j + 1)) with (S (Z.to_nat j)) by lia.
  generalize (Z.to_nat j). clear. intros n. revert l.
  induction n as [|n IH]; intros l H.
  - destruct l; [discriminate|]. simpl in H. now injection H as ->.
  - destruct l as [|a l]; [discriminate|]. simpl in H. cbn [skipn]. now apply IH.
Qed.

(** The inner loop sets [dash_mod] when the point ends one of the contours
    it goes through. *)
Lemma dash_loop_spec (gl : Glyph.glyph) (i : Z) (n : nat) : forall j d,
  0 <= j -> j + Z.of_nat n <= size (Glyph.contours gl) ->
  Glyph.dash_loop gl i n j d
  = Some (if existsb (Z.eqb i) (firstn n (skipn (Z.to_nat j) (Glyph.contours gl)))
          then " stroke-dasharray='3'" else d).
Proof.
  induction n as [|n IH]; intros j d Hj Hn; [reflexivity|].
  cbn [Glyph.dash_loop].
  destruct (index_Some (Glyph.contours gl) j ltac:(lia)) as [c Hc]. rewrite Hc.
  rewrite IH by lia. rewrite (skipn_index _ _ _ Hc). cbn [firstn existsb].
  destruct (i =? c); cbn [orb]; [|reflexivity].
  now destruct (existsb _ _).
Qed.

Lemma pointlines_loop_spec (gl : Glyph.glyph) (n : nat) : forall i,
  0 <= i -> i + Z.of_nat n < Glyph.n_points gl ->
  Glyph.n_points gl <= size (Glyph.ftpoints gl) ->
  0 <= Glyph.n_contours gl <= size (Glyph.contours gl) ->
  Glyph.pointlines_loop gl n i
  = Some (map (fun k =>
                 Glyph.mkLine
                   (if existsb (Z.eqb k)
                         (firstn (Z.to_nat (Glyph.n_contours gl)) (Glyph.contours gl))
                    then " stroke-dasharray='3'" else EmptyString)
                   (nth_point (Glyph.ftpoints gl) k)
                   (nth_point (Glyph.ftpoints gl) (k + 1)))
            (zrange i n)).
Proof.
  induction n as [|n IH]; intros i Hi Hn Hp Hc; [reflexivity|].
  cbn [Glyph.pointlines_loop zrange map]. unfold Glyph.pointlines_iteration.
  rewrite dash_loop_spec by lia. cbn [Z.to_nat skipn].
  unfold int_mod. rewrite Z.rem_small by lia.
  unfold nth_point.
  rewrite (index_nth_error (Glyph.ftpoints gl) i (mkFT 0 0)) by lia.
  rewrite (index_nth_error (Glyph.ftpoints gl) (i + 1) (mkFT 0 0)) by lia.
  rewrite IH by lia. reflexivity.
Qed.

(** On a glyph that has points, [pointlines] is defined when the arrays hold
    what the counts announce.  After the move to the first point it draws a
    line from each point but the last to the point that follows it, so the
    index [(i+1) % n_points] never wraps and no line returns to the first
    point of a contour; the line is dashed when its first point ends one of
    the contours. *)
Theorem pointlines_segments (gl : Glyph.glyph) :
  1 <= Glyph.n_points gl <= size (Glyph.ftpoints gl) ->
  0 <= Glyph.n_contours gl <= size (Glyph.contours gl) ->
  Glyph.lines gl
  = Some (map (fun i =>
                 Glyph.mkLine
                   (if existsb (Z.eqb i)
                         (firstn (Z.to_nat (Glyph.n_contours gl)) (Glyph.contours gl))
                    then " stroke-dasharray='3'" else EmptyString)
                   (nth_point (Glyph.ftpoints gl) i)
                   (nth_point (Glyph.ftpoints gl) (i + 1)))
            (zrange 0 (Z.to_nat (Glyph.n_points gl - 1))))
  /\ Glyph.pointlines gl
     = option_map
         (fun ls => Glyph.pointlines_open (nth_point (Glyph.ftpoints gl) 0)
                    ++ flat_map Glyph.line_text ls)
         (Glyph.lines gl).
Proof.
  intros Hp Hc. split.
  - unfold Glyph.lines. apply pointlines_loop_spec; lia.
  - unfold Glyph.pointlines, nth_point.
    rewrite (index_nth_error (Glyph.ftpoints gl) 0 (mkFT 0 0)) by lia.
    destruct (Glyph.lines gl); reflexivity.
Qed.

Lemma pointlines_segments_witness :
  Glyph.lines two_triangles
  = Some [Glyph.mkLine EmptyString (mkFT 0 0) (mkFT 10 0);
          Glyph.mkLine EmptyString (mkFT 10 0) (mkFT 0 10);
          Glyph.mkLine " stroke-dasharray='3'" (mkFT 0 10) (mkFT 20 0);
          Glyph.mkLine EmptyString (mkFT 20 0) (mkFT 30 0);
          Glyph.mkLine EmptyString (mkFT 30 0) (mkFT 20 10)]
  /\ Glyph.pointlines two_triangles
     = option_map
         (fun ls => Glyph.pointlines_open (mkFT 0 0) ++ flat_map Glyph.line_text ls)
         (Glyph.lines two_triangles).
Proof.
  refine (pointlines_segments two_triangles _ _).
  - vm_compute. split; discriminate.
  - vm_compute. split; discriminate.
Defined.

(** ** [glyph::points] and the outline *)

Lemma int_of_long_small (z : Z) : Z.abs z < 2 ^ 31 -> int_of_long z = z.
Proof.
  intros H. unfold int_of_long.
  assert (P32 : 2 ^ 32 = 2 * 2 ^ 31) by reflexivity.
  rewrite Z.mod_small by lia. lia.
Qed.

Lemma halfway_points_app a b : halfway_points (a ++ b) = halfway_points a ++ halfway_points b.
Proof. apply flat_map_app. Qed.

Section OneContour.

Variable gl : Glyph.glyph.
Variable g : globals.

(** The vectors [outline] builds, and for the point of index [i] its
    coordinates and whether it is a control point. *)
#[local] Abbreviation n := (Glyph.n_points gl).
#[local] Abbreviation pointsv := (firstn (Z.to_nat (Glyph.n_points gl)) (Glyph.ftpoints gl)).
#[local] Abbreviation tagsv := (firstn (Z.to_nat (Glyph.n_points gl)) (Glyph.tags gl)).
#[local] Abbreviation X :=
  (fun i => FT_x (nth_point (firstn (Z.to_nat (Glyph.n_points gl)) (Glyph.ftpoints gl)) i) + 0).
#[local] Abbreviation Y :=
  (fun i => FT_y (nth_point (firstn (Z.to_nat (Glyph.n_points gl)) (Glyph.ftpoints gl)) i) + 0).
#[local] Abbreviation C :=
  (fun i => negb (tagbit1 (nth (Z.to_nat i)
                             (firstn (Z.to_nat (Glyph.n_points gl)) (Glyph.tags gl)) 0))).

Hypothesis Hn : 1 <= n <= size (Glyph.ftpoints gl).
Hypothesis Ht : n <= size (Glyph.tags gl).
Hypothesis Hsmall : forall p, In p pointsv ->
  Z.abs (FT_x p) < 2 ^ 29 /\ Z.abs (FT_y p) < 2 ^ 29.

Lemma one_contour_sizes : size pointsv = n /\ size tagsv = size pointsv.
Proof.
  assert (Sp : size pointsv = n) by (apply size_firstn; lia).
  split; [exact Sp|]. rewrite Sp. apply size_firstn. lia.
Qed.

Lemma one_contour_reads i :
  0 <= i <= n - 1 ->
  reads pointsv tagsv (double_of_Z 0) (double_of_Z 0) (nth_point pointsv) X Y C i.
Proof.
  intros Hi. destruct one_contour_sizes as [Sp St].
  apply (reads_in_range pointsv tagsv 0 0 St); try reflexivity; [exact Hsmall | lia].
Qed.

Lemma one_contour_point i :
  0 <= i < n ->
  index (Glyph.ftpoints gl) i = Some (nth_point pointsv i)
  /\ Z.abs (FT_x (nth_point pointsv i)) < 2 ^ 29
  /\ Z.abs (FT_y (nth_point pointsv i)) < 2 ^ 29.
Proof.
  intros Hi. destruct one_contour_sizes as [Sp St].
  assert (Hidx : index pointsv i = Some (nth_point pointsv i))
    by (apply index_nth_error; lia).
  split.
  - rewrite <- Hidx. symmetry. now apply index_firstn.
  - apply Hsmall. now apply (index_In pointsv i).
Qed.

Lemma one_contour_tag i :
  0 <= i < n ->
  index (Glyph.tags gl) i = Some (nth (Z.to_nat i) tagsv 0).
Proof.
  intros Hi. rewrite nth_firstn by lia. apply index_nth_error. lia.
Qed.

Lemma one_contour_next i :
  0 <= i < n -> int_mod (i + 1) n = next_in 0 (n - 1) i /\ 0 <= next_in 0 (n - 1) i < n.
Proof.
  intros Hi. unfold int_mod, next_in. destruct (Z.eqb_spec i (n - 1)) as [->|N].
  - replace (n - 1 + 1) with n by lia. rewrite Z.rem_same by lia. lia.
  - rewrite Z.rem_small by lia. lia.
Qed.

(** What [points] draws for the point [i]. *)
Lemma points_iteration_spec i :
  0 <= i < n ->
  Glyph.points_iteration gl i
  = Some ((if C i && C (next_in 0 (n - 1) i)
           then [Glyph.Halfway (midpoint (X i) (X (next_in 0 (n - 1) i)))
                   (midpoint (Y i) (Y (next_in 0 (n - 1) i)))]
           else [])
          ++ [Glyph.Numbered i (if C i then "none" else "blue")
                (FT_x (nth_point pointsv i)) (FT_y (nth_point pointsv i))
                (if i =? 0 then 10 else 5)]).
Proof.
  intros Hi. unfold Glyph.points_iteration. fold n.
  destruct (one_contour_next i Hi) as [-> Hnext].
  destruct (one_contour_point i Hi) as (-> & Hx & Hy).
  destruct (one_contour_point _ Hnext) as (-> & Hnx & Hny).
  rewrite (one_contour_tag i Hi), (one_contour_tag _ Hnext).
  assert (P31 : 2 ^ 29 + 2 ^ 29 < 2 ^ 31) by reflexivity.
  rewrite !int_of_long_small by lia. cbv beta.
  destruct (negb (tagbit1 (nth (Z.to_nat i) tagsv 0))
            && negb (tagbit1 (nth (Z.to_nat (next_in 0 (n - 1) i)) tagsv 0)));
    [|reflexivity].
  unfold int_add, in_int, INT_MIN, INT_MAX.
  destruct (Z.leb_spec (- 2 ^ 31) (FT_x (nth_point pointsv i)
                                    + FT_x (nth_point pointsv (next_in 0 (n - 1) i))));
    [|lia].
  destruct (Z.leb_spec (FT_x (nth_point pointsv i)
                        + FT_x (nth_point pointsv (next_in 0 (n - 1) i))) (2 ^ 31 - 1));
    [|lia].
  destruct (Z.leb_spec (- 2 ^ 31) (FT_y (nth_point pointsv i)
                                    + FT_y (nth_point pointsv (next_in 0 (n - 1) i))));
    [|lia].
  destruct (Z.leb_spec (FT_y (nth_point pointsv i)
                        + FT_y (nth_point pointsv (next_in 0 (n - 1) i))) (2 ^ 31 - 1));
    [|lia].
  cbn [andb]. unfold midpoint. now rewrite !Z.add_0_r.
Qed.

Lemma points_loop_spec (m : nat) : forall i,
  0 <= i -> i + Z.of_nat m <= n ->
  exists cs, Glyph.points_loop gl m i = Some cs
    /\ forall c, In c (halfway_points cs) ->
         exists k, 0 <= k < n /\ C k = true /\ C (next_in 0 (n - 1) k) = true
           /\ c = (midpoint (X k) (X (next_in 0 (n - 1) k)),
                   midpoint (Y k) (Y (next_in 0 (n - 1) k))).
Proof.
  induction m as [|m IH]; intros i Hi Hm.
  - exists []. split; [reflexivity | contradiction].
  - cbn [Glyph.points_loop]. rewrite points_iteration_spec by lia.
    destruct (IH (i + 1) ltac:(lia) ltac:(lia)) as (cs & -> & Hcs).
    eexists. split; [reflexivity|]. intros c Hc.
    rewrite !halfway_points_app in Hc. cbn [halfway_points flat_map app] in Hc.
    apply in_app_or in Hc as [Hc|Hc]; [|now apply Hcs].
    destruct (C i && C (next_in 0 (n - 1) i)) eqn:E; [|contradiction].
    apply andb_prop in E as [E1 E2]. destruct Hc as [<-|[]].
    exists i. repeat split; (lia || assumption).
Qed.

Hypothesis Hcontours : Glyph.n_contours gl = 1.
Hypothesis Hend : index (Glyph.contours gl) 0 = Some (n - 1).
Hypothesis Hox : Glyph.offsetX gl = 0%float.
Hypothesis Hoy : Glyph.offsetY gl = 0%float.
Hypothesis Hgen : Glyph.generateBezierStatements gl = true.

Lemma one_contour_path :
  exists cmds,
    Glyph.path gl g = Some cmds
    /\ commands (contour pointsv tagsv (double_of_Z 0) (double_of_Z 0) true g 0 (n - 1))
       = Some cmds.
Proof.
  destruct one_contour_sizes as [Sp St].
  assert (Hcv : vector_of (Glyph.contours gl) 1 = Some [n - 1]).
  { unfold vector_of, index, size in *. destruct (Glyph.contours gl) as [|c rest].
    - discriminate.
    - simpl in Hend. injection Hend as ->. cbn [List.length].
      destruct (Z.leb_spec 1 (Z.of_nat (S (List.length rest)))); [reflexivity | lia]. }
  unfold Glyph.path. fold n. rewrite !vector_of_firstn by lia.
  rewrite Hcontours, Hcv, Hox, Hoy, Hgen. fold pointsv tagsv.
  unfold outline_commands. rewrite Sp.
  destruct (Z.eqb_spec n 0) as [E|_]; [lia|].
  cbn [size List.length Z.of_nat Z.eqb Pos.of_succ_nat].
  change 0%float with (double_of_Z 0).
  fold (commands (for_i pointsv tagsv (double_of_Z 0) (double_of_Z 0) true g [n - 1] 0)).
  rewrite for_i_step. cbn [for_i commands option_map fst]. rewrite then_nil_r.
  destruct (contour_defined pointsv tagsv 0 0 true g St eq_refl eq_refl Hsmall 0 (n - 1)
              ltac:(lia) ltac:(lia) ltac:(lia)) as [cmds Hcmds].
  exists cmds. split; exact Hcmds.
Qed.

End OneContour.

(** On a glyph of one contour, drawn with [generateBezierStatements] and
    without offsets, the small circles that [points] draws halfway between
    two consecutive control points are points of the outline: each of them
    is the end of a [Q] statement of the path that [outline] returns.  Both
    methods are defined when the arrays hold the points and tags that the
    count announces and the coordinates are below [2^29] in magnitude. *)
Theorem halfway_circles_on_outline (gl : Glyph.glyph) (g : globals) :
  1 <= Glyph.n_points gl <= size (Glyph.ftpoints gl) ->
  Glyph.n_points gl <= size (Glyph.tags gl) ->
  (forall p, In p (firstn (Z.to_nat (Glyph.n_points gl)) (Glyph.ftpoints gl)) ->
     Z.abs (FT_x p) < 2 ^ 29 /\ Z.abs (FT_y p) < 2 ^ 29) ->
  Glyph.n_contours gl = 1 ->
  index (Glyph.contours gl) 0 = Some (Glyph.n_points gl - 1) ->
  Glyph.offsetX gl = 0%float -> Glyph.offsetY gl = 0%float ->
  Glyph.generateBezierStatements gl = true ->
  exists cs cmds,
    Glyph.points gl = Some (Glyph.points_open ++ flat_map Glyph.circle_text cs)
    /\ Glyph.path gl g = Some cmds
    /\ incl (halfway_points cs) (curve_ends cmds).
Proof.
  intros Hn Ht Hsmall Hc Hend Hox Hoy Hgen.
  destruct (points_loop_spec gl Hn Ht Hsmall (Z.to_nat (Glyph.n_points gl)) 0
              ltac:(lia) ltac:(lia)) as (cs & Hcs & Hhalf).
  destruct (one_contour_path gl g Hn Ht Hsmall Hc Hend Hox Hoy Hgen)
    as (cmds & Hpath & Hcmds).
  exists cs, cmds. split; [unfold Glyph.points, Glyph.circles; now rewrite Hcs|].
  split; [exact Hpath|].
  intros c Hin. destruct (Hhalf c Hin) as (k & Hk & Ck & Cn & ->).
  apply (halfway_reached _ _ _ _ g 0 (Glyph.n_points gl - 1) _ _ _ _ cmds
           ltac:(lia) (one_contour_reads gl Hn Ht Hsmall) Hcmds k ltac:(lia) Ck Cn).
Qed.

Lemma halfway_circles_on_outline_witness :
  exists cs cmds,
    Glyph.points P4_glyph = Some (Glyph.points_open ++ flat_map Glyph.circle_text cs)
    /\ Glyph.path P4_glyph quiet = Some cmds
    /\ incl (halfway_points cs) (curve_ends cmds).
Proof.
  refine (halfway_circles_on_outline P4_glyph quiet _ _ _ eq_refl eq_refl eq_refl
            eq_refl eq_refl).
  - vm_compute. split; discriminate.
  - vm_compute. discriminate.
  - intros p Hin.
    destruct Hin as [<-|[<-|[<-|[<-|[]]]]]; split; reflexivity.
Defined.
